(** * bsondb: the document store, its query matcher, the encryption codec
      and the file-backed secondary index

    A shallow embedding of [lib/Collection.js], [lib/Encryption.js] and
    [lib/IndexManager.js].  JavaScript values are an inductive type, a
    thrown exception is the [Throw] outcome of a small error monad, the
    collection's data file and the calls made to the index manager are
    explicit state, and the index files of a collection are a directory
    of decoded files whose [data] object is a finite map. *)

From Stdlib Require Import ZArith List Bool Ascii String Lia Sorted.
From stdpp Require Import base option list strings pretty gmap fin_maps.

Import ListNotations.
Local Open Scope string_scope.
Local Open Scope list_scope.
Local Open Scope Z_scope.

Set Warnings "-register-all".

(* ===================================================================== *)
(** ** JavaScript values and the primitive operations the code uses      *)
(* ===================================================================== *)

Module Js.

(** Values that reach the store: what BSON and JSON carry.  Numbers are
    the integers (exact below 2^53) and NaN; an [ObjectId] is its
    24-digit hex string.  Functions, symbols, dates and fractions are not
    represented; of the members a plain object inherits from
    [Object.prototype] the names are ([inherited] below), for the
    places where the code would read one. *)
Inductive value : Type :=
| VUndef
| VNull
| VBool (b : bool)
| VNum (z : Z)
| VNaN
| VStr (s : string)
| VOid (hex : string)
| VArr (items : list value)
| VObj (fields : list (string * value)).

(** A plain object: its own enumerable properties in insertion order
    (keys that read as array indices, which JavaScript lists first, are
    not told apart). *)
Definition obj : Type := list (string * value).

(** Exceptions.  The first three are thrown by the language and its
    libraries.  [CryptoError] and [CorruptionError] are the names the
    design gives to a failed decryption and to an undecodable data
    file. *)
Inductive error : Type :=
| TypeError
| SyntaxError
| Error (message : string)
| CryptoError
| CorruptionError.

(** The outcome of an expression that may throw. *)
Inductive result (A : Type) : Type :=
| Ok (a : A)
| Throw (e : error).
Arguments Ok {A} a.
Arguments Throw {A} e.

Definition rbind {A B} (r : result A) (k : A -> result B) : result B :=
  match r with
  | Ok a => k a
  | Throw e => Throw e
  end.

Definition rmap {A B} (f : A -> B) (r : result A) : result B :=
  rbind r (fun a => Ok (f a)).

#[global] Instance result_ret : MRet result := @Ok.
#[global] Instance result_bind : MBind result := fun A B k r => rbind r k.
#[global] Instance result_fmap : FMap result := fun A B f r => rmap f r.

(** [!v]: the falsy values are undefined, null, false, 0, NaN and "". *)
Definition truthy (v : value) : bool :=
  match v with
  | VUndef | VNull | VNaN => false
  | VBool b => b
  | VNum z => negb (z =? 0)
  | VStr s => negb (String.eqb s "")
  | VOid _ | VArr _ | VObj _ => true
  end.

(** [a || b] *)
Definition js_or (a b : value) : value := if truthy a then a else b.

(** [typeof v === 'object' && v !== null] *)
Definition is_object (v : value) : bool :=
  match v with
  | VOid _ | VArr _ | VObj _ => true
  | _ => false
  end.

(** [Array.isArray(v)] *)
Definition isArray (v : value) : bool :=
  match v with
  | VArr _ => true
  | _ => false
  end.

(** [a === b].  Primitives compare by value and NaN equals nothing.
    Objects compare by reference: the two sides met by the store are a
    value just deserialized from the data file and a value supplied by
    the caller, which are never the same object. *)
Definition strict_eq (a b : value) : bool :=
  match a, b with
  | VUndef, VUndef => true
  | VNull, VNull => true
  | VBool x, VBool y => Bool.eqb x y
  | VNum x, VNum y => x =? y
  | VStr x, VStr y => String.eqb x y
  | _, _ => false
  end.

(** SameValueZero, the equality of [Array.prototype.includes]: as
    [===] except that NaN equals NaN. *)
Definition same_value_zero (a b : value) : bool :=
  match a, b with
  | VNaN, VNaN => true
  | _, _ => strict_eq a b
  end.

(** [String(v)] / [v.toString()] where [v] is not null or undefined. *)
Fixpoint to_string (v : value) : string :=
  match v with
  | VUndef => "undefined"
  | VNull => "null"
  | VBool true => "true"
  | VBool false => "false"
  | VNum z => pretty z
  | VNaN => "NaN"
  | VStr s => s
  | VOid hex => hex
  | VArr items =>
      String.concat ","
        (List.map (fun x => match x with
                            | VUndef | VNull => ""
                            | _ => to_string x
                            end) items)
  | VObj _ => "[object Object]"
  end.

(** [v.toString()]: a TypeError on null and undefined. *)
Definition toString_method (v : value) : result string :=
  match v with
  | VUndef | VNull => Throw TypeError
  | _ => Ok (to_string v)
  end.

(** ToPrimitive: objects become strings. *)
Definition to_primitive (v : value) : value :=
  match v with
  | VOid _ | VArr _ | VObj _ => VStr (to_string v)
  | _ => v
  end.

Definition is_digit (c : ascii) : bool :=
  let n := nat_of_ascii c in (48 <=? n)%nat && (n <=? 57)%nat.

Fixpoint digits_value (acc : Z) (s : string) : option Z :=
  match s with
  | EmptyString => Some acc
  | String c s' =>
      if is_digit c
      then digits_value (10 * acc + Z.of_nat (nat_of_ascii c - 48)) s'
      else None
  end.

(** ToNumber on a string, for the decimal integer literals: the empty
    string is 0, an optionally signed run of digits is its value, and
    every other string is NaN ([None]). *)
Definition string_to_number (s : string) : option Z :=
  match s with
  | EmptyString => Some 0
  | String "-" (String _ _ as ds) => Z.opp <$> digits_value 0 ds
  | String "+" (String _ _ as ds) => digits_value 0 ds
  | _ => digits_value 0 s
  end.

(** ToNumber of a primitive; [None] is NaN. *)
Definition to_number (v : value) : option Z :=
  match v with
  | VUndef | VNaN => None
  | VNull => Some 0
  | VBool true => Some 1
  | VBool false => Some 0
  | VNum z => Some z
  | VStr s => string_to_number s
  | VOid _ | VArr _ | VObj _ => None
  end.

(** Code-unit order on strings. *)
Fixpoint string_ltb (a b : string) : bool :=
  match a, b with
  | _, EmptyString => false
  | EmptyString, String _ _ => true
  | String x a', String y b' =>
      let nx := nat_of_ascii x in
      let ny := nat_of_ascii y in
      if (nx <? ny)%nat then true
      else if (ny <? nx)%nat then false
      else string_ltb a' b'
  end.

(** The abstract relational comparison [a < b]: [Some true],
    [Some false], or [None] for "undefined" (a NaN operand). *)
Definition compare_lt (a b : value) : option bool :=
  match to_primitive a, to_primitive b with
  | VStr x, VStr y => Some (string_ltb x y)
  | pa, pb =>
      match to_number pa, to_number pb with
      | Some x, Some y => Some (x <? y)
      | _, _ => None
      end
  end.

(** [a < b], [a > b], [a <= b], [a >= b] *)
Definition js_lt (a b : value) : bool :=
  match compare_lt a b with Some true => true | _ => false end.
Definition js_gt (a b : value) : bool := js_lt b a.
Definition js_le (a b : value) : bool :=
  match compare_lt b a with Some false => true | _ => false end.
Definition js_ge (a b : value) : bool :=
  match compare_lt a b with Some false => true | _ => false end.

(** [a + b]: concatenation when either primitive is a string, numeric
    addition otherwise.  The sum is that of the integers, which is the
    sum of the code's doubles as long as the numbers are [safe]. *)
Definition js_add (a b : value) : value :=
  match to_primitive a, to_primitive b with
  | VStr x, pb => VStr (x +:+ to_string pb)
  | pa, VStr y => VStr (to_string pa +:+ y)
  | pa, pb =>
      match to_number pa, to_number pb with
      | Some x, Some y => VNum (x + y)
      | _, _ => VNaN
      end
  end.

(** *** Properties of plain objects *)

Fixpoint lookup_field (o : obj) (k : string) : option value :=
  match o with
  | [] => None
  | (k', v) :: o' => if String.eqb k' k then Some v else lookup_field o' k
  end.

(** [o[k]] *)
Definition get (o : obj) (k : string) : value :=
  match lookup_field o k with
  | Some v => v
  | None => VUndef
  end.

(** [o[k] = v]: an existing property keeps its place, a new one goes
    last. *)
Fixpoint set (o : obj) (k : string) (v : value) : obj :=
  match o with
  | [] => [(k, v)]
  | (k', v') :: o' =>
      if String.eqb k' k then (k', v) :: o' else (k', v') :: set o' k v
  end.

(** [delete o[k]] *)
Fixpoint delete (o : obj) (k : string) : obj :=
  match o with
  | [] => []
  | (k', v') :: o' =>
      if String.eqb k' k then delete o' k else (k', v') :: delete o' k
  end.

(** Index keys "0", "1", ... paired with the elements. *)
Fixpoint indexed_from {A} (i : nat) (l : list A) : list (string * A) :=
  match l with
  | [] => []
  | x :: l' => (pretty i, x) :: indexed_from (S i) l'
  end.

(** [hay.includes(needle)] on strings. *)
Fixpoint string_includes (needle hay : string) : bool :=
  String.prefix needle hay
  || match hay with
     | EmptyString => false
     | String _ hay' => string_includes needle hay'
     end.

Definition chars (s : string) : list value :=
  List.map (fun c => VStr (String c EmptyString)) (list_ascii_of_string s).

(** *** Where the representation ends *)

(** The names of the members a plain object inherits from
    [Object.prototype]: [o[name]] is such a member, not undefined,
    when [o] has no property of its own under the name. *)
Definition inherited (name : string) : bool :=
  existsb (String.eqb name)
    ["constructor"; "__defineGetter__"; "__defineSetter__"; "hasOwnProperty";
     "__lookupGetter__"; "__lookupSetter__"; "isPrototypeOf";
     "propertyIsEnumerable"; "toString"; "valueOf"; "__proto__";
     "toLocaleString"].

(** An integer that a JavaScript number holds exactly: one between
    -2^53 and 2^53. *)
Definition safe (z : Z) : bool :=
  (-9007199254740992 <=? z) && (z <=? 9007199254740992).

(** A boolean, an exact number, NaN, a string or an [ObjectId]: the
    values whose [String(v)] and [v.toString()] are the string of
    [to_string], whatever properties an object may have of its own. *)
Definition scalar (v : value) : bool :=
  match v with
  | VBool _ | VNaN | VStr _ | VOid _ => true
  | VNum z => safe z
  | VUndef | VNull | VArr _ | VObj _ => false
  end.

(** No NUL character: a BSON key cannot hold one. *)
Definition noNul (s : string) : bool :=
  forallb (fun c => negb (Ascii.eqb c "000"%char)) (list_ascii_of_string s).

(** A value that [deserialize(serialize(v))] gives back as it is.
    [serialize] leaves out a property that holds undefined, writes an
    undefined element as null and refuses a key with a NUL character. *)
Fixpoint stable (v : value) : bool :=
  match v with
  | VUndef => false
  | VNum z => safe z
  | VArr items => forallb stable items
  | VObj fields =>
      forallb (fun field => match field with
                            | (k, x) => noNul k && stable x
                            end) fields
  | _ => true
  end.

End Js.

(* ===================================================================== *)
(** ** lib/Collection.js                                                 *)
(* ===================================================================== *)

Module Collection.
Import Js.

(** What the store takes from the libraries it is linked with: the
    regular-expression engine ([regexp_test pattern subject] is
    [new RegExp(pattern).test(subject)]), and the [ObjectId] class of
    the [bson] package (its constructor from a string, which throws on
    a malformed one, the identifiers [new ObjectId()] hands out,
    numbered in the order of the calls, and the own enumerable
    properties of an [ObjectId] object, which differ between versions
    of the package). *)
Record Host : Type := {
  regexp_test : value -> value -> result bool;
  objectid_of_string : string -> result string;
  objectid_fresh : nat -> string;
  objectid_entries : string -> list (string * value)
}.

(** *** The state a collection operation runs in *)

(** The data file [data.bson] as a read finds it: absent or unreadable,
    holding bytes that [deserialize] rejects after decryption, or
    holding an object whose [documents] field is the given array
    ([None] when the field is missing). *)
Inductive data_file : Type :=
| Missing
| Undecodable
| Decoded (documents : option (list obj)).

(** The writes a collection operation performs, in order: the snapshot
    it saves and the calls it makes to the index manager. *)
Inductive event : Type :=
| SaveData (documents : list obj)
| UpdateIndex (newDoc : obj) (oldDoc : option obj)
| RemoveFromIndex (doc : obj).

Record store : Type := {
  dataFile : data_file;
  issued : nat;            (* how many identifiers [new ObjectId()] has handed out *)
  trace : list event       (* the writes so far, oldest first *)
}.

(** A collection method: it may read and write the store and may
    throw; what it wrote before throwing stays written. *)
Definition M (A : Type) : Type := store -> result A * store.

#[global] Instance M_ret : MRet M := fun A a st => (Ok a, st).
#[global] Instance M_bind : MBind M := fun A B k m st =>
  match m st with
  | (Ok a, st') => k a st'
  | (Throw e, st') => (Throw e, st')
  end.

#[global] Instance M_fmap : FMap M := fun A B f m st =>
  match m st with
  | (Ok a, st') => (Ok (f a), st')
  | (Throw e, st') => (Throw e, st')
  end.

(** A method that never writes the data file. *)
Definition keepsFile {A} (m : M A) : Prop :=
  ∀ st, dataFile (m st).2 = dataFile st.

(** A method that leaves the whole store as it found it. *)
Definition readOnly {A} (m : M A) : Prop :=
  ∀ st, (m st).2 = st.

(** A pure expression that may throw, evaluated inside a method. *)
Definition lift {A} (r : result A) : M A := fun st => (r, st).

Definition emit (e : event) : M unit := fun st =>
  (Ok tt, {| dataFile := dataFile st; issued := issued st;
             trace := trace st ++ [e] |}).

Section WithHost.
Variable host : Host.

(** [Object.entries(v)]: a TypeError on null and undefined, the indexed
    elements of an array and the indexed characters of a string, nothing
    for the other primitives. *)
Definition entries (v : value) : result (list (string * value)) :=
  match v with
  | VUndef | VNull => Throw TypeError
  | VBool _ | VNum _ | VNaN => Ok []
  | VStr s => Ok (indexed_from 0 (chars s))
  | VOid hex => Ok (objectid_entries host hex)
  | VArr items => Ok (indexed_from 0 items)
  | VObj fields => Ok fields
  end.

(** [value.includes(fieldValue)] of the [$in] and [$nin] cases: the
    array method, the string method, or a TypeError when [value] has no
    such method. *)
Definition includes (value fieldValue : value) : result bool :=
  match value with
  | VArr items => Ok (existsb (same_value_zero fieldValue) items)
  | VStr s => Ok (string_includes (to_string fieldValue) s)
  | _ => Throw TypeError
  end.

(** [matchOperator(fieldValue, operator, value)] *)
Definition matchOperator (fieldValue : value) (operator : string) (value : value)
  : result bool :=
  if String.eqb operator "$eq" then Ok (strict_eq fieldValue value)
  else if String.eqb operator "$ne" then Ok (negb (strict_eq fieldValue value))
  else if String.eqb operator "$gt" then Ok (js_gt fieldValue value)
  else if String.eqb operator "$gte" then Ok (js_ge fieldValue value)
  else if String.eqb operator "$lt" then Ok (js_lt fieldValue value)
  else if String.eqb operator "$lte" then Ok (js_le fieldValue value)
  else if String.eqb operator "$in" then includes value fieldValue
  else if String.eqb operator "$nin" then negb <$> includes value fieldValue
  else if String.eqb operator "$regex" then regexp_test host value fieldValue
  else Ok false.

(** [arr.some(f)] and [arr.every(f)] for a callback that may throw:
    the elements are visited in order until the answer is known. *)
Definition some {A} (f : A -> result bool) : list A -> result bool :=
  fix go (l : list A) : result bool :=
    match l with
    | [] => Ok false
    | x :: l' => b ← f x; if b : bool then Ok true else go l'
    end.

Definition every {A} (f : A -> result bool) : list A -> result bool :=
  fix go (l : list A) : result bool :=
    match l with
    | [] => Ok true
    | x :: l' => b ← f x; if b : bool then go l' else Ok false
    end.

(** The inner loop of [matchDocument] over the operators of one field:
    [for (const [op, opValue] of Object.entries(value))]. *)
Definition matchOperators (fieldValue : value) (ops : list (string * value))
  : result bool :=
  every (fun '(op, opValue) => matchOperator fieldValue op opValue) ops.

(** One turn of the loop of [matchDocument] for a key that is neither
    [$or] nor [$and]: [true] when the loop goes on, [false] when it
    returns false. *)
Definition matchField (doc : obj) (key : string) (value : value) : result bool :=
  if is_object value
  then ops ← entries value; matchOperators (get doc key) ops
  else Ok (strict_eq (get doc key) value).

(** [matchDocument(doc, query)].  Only an array has the methods [some]
    and [every].  A query that is not a plain object has the entries of
    [Object.entries]; their keys are indices, or the property names of
    an [ObjectId], none of which is [$or] or [$and]. *)
Fixpoint matchDocument (doc : obj) (query : value) {struct query} : result bool :=
  match query with
  | VObj fields =>
      every (fun '(key, value) =>
               if String.eqb key "$or" then
                 match value with
                 | VArr conditions => some (matchDocument doc) conditions
                 | _ => Throw TypeError
                 end
               else if String.eqb key "$and" then
                 match value with
                 | VArr conditions => every (matchDocument doc) conditions
                 | _ => Throw TypeError
                 end
               else matchField doc key value) fields
  | _ =>
      fields ← entries query;
      every (fun '(key, value) => matchField doc key value) fields
  end.

(** No document of the list matches [query]. *)
Definition noMatch (query : value) (documents : list obj) : Prop :=
  Forall (fun doc => matchDocument doc query = Ok false) documents.

(** *** Sorting *)

(** The comparator of [sortDocuments]: negative, zero or positive. *)
Definition compareDocuments (sort : list (string * value)) (a b : obj) : Z :=
  (fix go (keys : list (string * value)) : Z :=
     match keys with
     | [] => 0
     | (field, direction) :: keys' =>
         let aVal := get a field in
         let bVal := get b field in
         if js_lt aVal bVal then (if strict_eq direction (VNum 1) then -1 else 1)
         else if js_gt aVal bVal then (if strict_eq direction (VNum 1) then 1 else -1)
         else go keys'
     end) sort.

(** [Array.prototype.sort] is stable: elements that compare equal keep
    their order.  It is modelled by the stable insertion sort, which is
    what every stable sort computes when the comparator is consistent. *)
Fixpoint insertSorted {A} (cmp : A -> A -> Z) (x : A) (l : list A) : list A :=
  match l with
  | [] => [x]
  | y :: l' => if cmp x y <=? 0 then x :: y :: l' else y :: insertSorted cmp x l'
  end.

Definition stableSort {A} (cmp : A -> A -> Z) (l : list A) : list A :=
  foldr (insertSorted cmp) [] l.

(** [sortDocuments(documents, sort)] *)
Definition sortDocuments (documents : list obj) (sort : value) : result (list obj) :=
  keys ← entries sort;
  Ok (stableSort (compareDocuments keys) documents).

(** *** Slices *)

(** The relative index of [Array.prototype.slice]: a negative index
    counts from the end, and the result is clamped to the array. *)
Definition relativeIndex (len i : Z) : Z :=
  if i <? 0 then Z.max (len + i) 0 else Z.min i len.

(** [l.slice(start, end)] *)
Definition slice {A} (l : list A) (start stop : Z) : list A :=
  let len := Z.of_nat (length l) in
  let k := relativeIndex len start in
  let final := relativeIndex len stop in
  take (Z.to_nat (final - k)) (drop (Z.to_nat k) l).

(** [l.slice(start)] *)
Definition sliceFrom {A} (l : list A) (start : Z) : list A :=
  slice l start (Z.of_nat (length l)).

(** [documents.filter(p)] for a predicate that may throw. *)
Fixpoint filterThrowing {A} (p : A -> result bool) (l : list A) : result (list A) :=
  match l with
  | [] => Ok []
  | x :: l' =>
      b ← p x;
      rest ← filterThrowing p l';
      Ok (if b : bool then x :: rest else rest)
  end.

(** [documents.findIndex(p)]: [None] stands for -1. *)
Fixpoint findIndex {A} (p : A -> result bool) (l : list A) : result (option nat) :=
  match l with
  | [] => Ok None
  | x :: l' =>
      b ← p x;
      if b : bool then Ok (Some 0%nat)
      else i ← findIndex p l'; Ok (option_map S i)
  end.

(** *** Updates *)

(** [Object.assign(target, source)]: a null or undefined source is
    skipped, any other source gives its own enumerable properties. *)
Definition assign (target : obj) (source : value) : obj :=
  match entries source with
  | Ok fields => fold_left (fun u '(field, v) => set u field v) fields target
  | Throw _ => target
  end.

(** One turn of the loop of [applyUpdate]: the [switch] on the operator. *)
Definition applyOperator (updated : obj) (operator : string) (value : value)
  : result obj :=
  if String.eqb operator "$set" then Ok (assign updated value)
  else if String.eqb operator "$unset" then
    fields ← entries value;
    Ok (fold_left (fun u '(field, _) => delete u field) fields updated)
  else if String.eqb operator "$inc" then
    fields ← entries value;
    Ok (fold_left
          (fun u '(field, amount) =>
             set u field (js_add (js_or (get u field) (VNum 0)) amount))
          fields updated)
  else if String.eqb operator "$push" then
    fields ← entries value;
    Ok (fold_left
          (fun u '(field, item) =>
             let arr := match get u field with
                        | VArr items => items
                        | _ => []
                        end in
             set u field (VArr (arr ++ [item])))
          fields updated)
  else Ok updated.

(** [applyUpdate(doc, update)]: the copy [{ ...doc }] updated by each
    operator of [update] in turn.  The copy is one level deep and the
    values here are not shared; [exactUpdate] below tells the updates on which
    that makes no difference. *)
Definition applyUpdate (doc : obj) (update : obj) : result obj :=
  fold_left (fun acc '(operator, value) =>
               updated ← acc; applyOperator updated operator value)
            update (Ok doc).

(** *** Persistence *)

(** [saveData(data)]: the snapshot replaces the data file.  The file
    is kept as the documents it decodes to, which are the documents
    given when these are [stable]. *)
Definition saveData (data : list obj) : M unit := fun st =>
  (Ok tt, {| dataFile := Decoded (Some data); issued := issued st;
             trace := trace st ++ [SaveData data] |}).

(** [loadData()]: [parsed.documents || []] when the file decodes, and
    the empty array both when the file cannot be read and when it
    cannot be parsed. *)
Definition loadData : M (list obj) := fun st =>
  match dataFile st with
  | Missing => (Ok [], st)
  | Undecodable => (Ok [], st)
  | Decoded (Some documents) => (Ok documents, st)
  | Decoded None => (Ok [], st)
  end.

(** The documents a data file holds for its readers. *)
Definition snapshot (f : data_file) : list obj :=
  match f with
  | Decoded (Some documents) => documents
  | _ => []
  end.

(** [this.database.indexManager.updateIndex(this.name, newDoc, oldDoc)] *)
Definition updateIndex (newDoc : obj) (oldDoc : option obj) : M unit :=
  emit (UpdateIndex newDoc oldDoc).

(** [this.database.indexManager.removeFromIndex(this.name, doc)] *)
Definition removeFromIndex (doc : obj) : M unit :=
  emit (RemoveFromIndex doc).

(** [new ObjectId()] *)
Definition newObjectId : M value := fun st =>
  (Ok (VOid (objectid_fresh host (issued st))),
   {| dataFile := dataFile st; issued := S (issued st); trace := trace st |}).

(** [new ObjectId(s)] *)
Definition parseObjectId (s : string) : M value :=
  lift (VOid <$> objectid_of_string host s).

(** The head of [insertOne] and the loop body of [insertMany]: a
    document without a truthy [_id] gets a new one, a string [_id] is
    converted. *)
Definition ensureId (document : obj) : M obj :=
  if negb (truthy (get document "_id")) then
    id ← newObjectId; mret (set document "_id" id)
  else
    match get document "_id" with
    | VStr s => id ← parseObjectId s; mret (set document "_id" id)
    | _ => mret document
    end.

(** *** Reads *)

Record find_options : Type := {
  sort : value;            (* [VUndef] when absent *)
  limit : option Z;        (* [None] when absent *)
  skip : option Z
}.

Definition noOptions : find_options :=
  {| sort := VUndef; limit := None; skip := None |}.

(** [if (options.limit)] / [if (options.skip)]: a number is truthy
    when it is not 0. *)
Definition given (n : option Z) : option Z :=
  match n with
  | Some z => if z =? 0 then None else Some z
  | None => None
  end.

(** The two cuts at the end of [find]: [limit], then [skip]. *)
Definition cut {A} (options : find_options) (results : list A) : list A :=
  let results := match given (limit options) with
                 | Some n => slice results 0 n
                 | None => results
                 end in
  match given (skip options) with
  | Some n => sliceFrom results n
  | None => results
  end.

(** [find(query, options)] *)
Definition find (query : value) (options : find_options) : M (list obj) :=
  documents ← loadData;
  results ← lift (filterThrowing (fun doc => matchDocument doc query) documents);
  results ← (if truthy (sort options)
             then lift (sortDocuments results (sort options))
             else mret results);
  let results := match given (limit options) with
                 | Some n => slice results 0 n
                 | None => results
                 end in
  let results := match given (skip options) with
                 | Some n => sliceFrom results n
                 | None => results
                 end in
  mret results.

(** [findOne(query)]: [None] stands for null. *)
Definition findOne (query : value) : M (option obj) :=
  documents ← loadData;
  index ← lift (findIndex (fun doc => matchDocument doc query) documents);
  mret (i ← index; documents !! i).

(** [findById(id)] *)
Definition findById (id : value) : M (option obj) :=
  id ← match id with
       | VStr s => parseObjectId s
       | _ => mret id
       end;
  findOne (VObj [("_id", id)]).

(** [count(query)] *)
Definition count (query : value) : M nat :=
  documents ← loadData;
  results ← lift (filterThrowing (fun doc => matchDocument doc query) documents);
  mret (length results).

(** *** Writes *)

(** [insertOne(document)] *)
Definition insertOne (document : obj) : M obj :=
  document ← ensureId document;
  documents ← loadData;
  let documents := documents ++ [document] in
  _ ← saveData documents;
  _ ← updateIndex document None;
  mret document.

(** The two loops of [insertMany]. *)
Fixpoint ensureIds (documents : list obj) : M (list obj) :=
  match documents with
  | [] => mret []
  | doc :: rest =>
      doc ← ensureId doc;
      rest ← ensureIds rest;
      mret (doc :: rest)
  end.

Fixpoint updateIndexes (documents : list obj) : M unit :=
  match documents with
  | [] => mret tt
  | doc :: rest => _ ← updateIndex doc None; updateIndexes rest
  end.

(** [insertMany(documents)] *)
Definition insertMany (documents : list obj) : M (list obj) :=
  documents ← ensureIds documents;
  existingDocs ← loadData;
  let existingDocs := existingDocs ++ documents in
  _ ← saveData existingDocs;
  _ ← updateIndexes documents;
  mret documents.

(** [updateOne(query, update, options)]; [None] stands for null.  The
    upsert inserts [update.$set || update]: on a primitive, the
    assignment of the new [_id] in [insertOne] is a TypeError, class
    bodies being strict code.  An array or an [ObjectId] as [$set]
    payload the code stores as it stores a document; the data file of
    the model holds plain objects only, so this case lies outside it
    (the branch is a placeholder, and every statement about an upsert
    leaves the case out).  The second [None] branch is never taken,
    [findIndex] returning an index of the array.  The [oldDoc] handed
    to the index manager is the document as it was loaded, which is
    what the code hands over when the update is [unshared]. *)
Definition updateOne (query : value) (update : obj) (upsert : bool)
  : M (option obj) :=
  documents ← loadData;
  index ← lift (findIndex (fun doc => matchDocument doc query) documents);
  match index with
  | None =>
      if upsert then
        match js_or (get update "$set") (VObj update) with
        | VObj document => Some <$> insertOne document
        | VArr _ | VOid _ => lift (Throw TypeError)
        | _ => _ ← newObjectId; lift (Throw TypeError)
        end
      else mret None
  | Some i =>
      match documents !! i with
      | Some oldDoc =>
          updatedDoc ← lift (applyUpdate oldDoc update);
          let documents := <[i := updatedDoc]> documents in
          _ ← saveData documents;
          _ ← updateIndex updatedDoc (Some oldDoc);
          mret (Some updatedDoc)
      | None => lift (Throw TypeError)
      end
  end.

(** The loop of [updateMany]: the documents after the loop and the
    updated ones, each index update made as soon as its document is
    updated. *)
Fixpoint updateManyLoop (query : value) (update : obj) (documents : list obj)
  : M (list obj * list obj) :=
  match documents with
  | [] => mret ([], [])
  | oldDoc :: rest =>
      b ← lift (matchDocument oldDoc query);
      if b : bool then
        updatedDoc ← lift (applyUpdate oldDoc update);
        _ ← updateIndex updatedDoc (Some oldDoc);
        '(rest', results) ← updateManyLoop query update rest;
        mret (updatedDoc :: rest', updatedDoc :: results)
      else
        '(rest', results) ← updateManyLoop query update rest;
        mret (oldDoc :: rest', results)
  end.

(** [updateMany(query, update)] *)
Definition updateMany (query : value) (update : obj) : M (list obj) :=
  documents ← loadData;
  '(documents, results) ← updateManyLoop query update documents;
  _ ← (if (0 <? length results)%nat then saveData documents else mret tt);
  mret results.



(** The first loop of [deleteMany]: the documents to delete and the
    remaining ones. *)
Fixpoint partitionThrowing {A} (p : A -> result bool) (l : list A)
  : result (list A * list A) :=
  match l with
  | [] => Ok ([], [])
  | x :: l' =>
      b ← p x;
      '(yes, no) ← partitionThrowing p l';
      Ok (if b : bool then (x :: yes, no) else (yes, x :: no))
  end.

Fixpoint removeFromIndexes (documents : list obj) : M unit :=
  match documents with
  | [] => mret tt
  | doc :: rest => _ ← removeFromIndex doc; removeFromIndexes rest
  end.

(** [deleteMany(query)] *)
Definition deleteMany (query : value) : M (list obj) :=
  documents ← loadData;
  '(toDelete, remaining) ←
    lift (partitionThrowing (fun doc => matchDocument doc query) documents);
  _ ← (if (0 <? length toDelete)%nat
       then (_ ← saveData remaining; removeFromIndexes toDelete)
       else mret tt);
  mret toDelete.

(** *** Identifiers *)

(** The own enumerable properties of the [$set] payload of an update,
    as [Object.assign] copies them. *)
Definition setFields (update : obj) : list (string * value) :=
  match entries (get update "$set") with
  | Ok fields => fields
  | Throw _ => []
  end.

(** No array is shared.  [applyUpdate] copies the document one level
    deep and [Object.assign] copies the [$set] payload one level deep,
    so an array the document or the payload holds in a field is the
    array of the copy too, and [$push] on that field would extend it in
    the stored document and in the payload as well.  The update is
    unshared for the document when no field that [$push] names holds
    an array in the document or in the [$set] payload. *)
Definition unshared (update doc : obj) : bool :=
  forallb (fun entry =>
             match entry with
             | (operator, payload) =>
                 if String.eqb operator "$push" then
                   match entries payload with
                   | Ok fields =>
                       forallb (fun field =>
                                  negb (isArray (get doc field.1))
                                  && negb (isArray (get (setFields update) field.1)))
                               fields
                   | Throw _ => true
                   end
                 else true
             end) update.


(** The predicate of a filter returned true. *)
Definition isMatch (r : result bool) : bool :=
  match r with
  | Ok true => true
  | _ => false
  end.

(** How [updateMany] relates a stored document to the document in its
    place afterwards: updated when it matches, itself when it does not. *)
Definition updatedBy (query : value) (update : obj) (oldDoc newDoc : obj) : Prop :=
  (matchDocument oldDoc query = Ok true ∧ applyUpdate oldDoc update = Ok newDoc)
  ∨ (matchDocument oldDoc query = Ok false ∧ newDoc = oldDoc).

(** The fields the operator [operator] of an update writes or removes:
    the keys of its payload when it is one of the four that
    [applyUpdate] knows. *)
Definition writtenFields (operator : string) (payload : value) : list string :=
  if existsb (String.eqb operator) ["$set"; "$unset"; "$inc"; "$push"]
  then match entries payload with
       | Ok fields => List.map fst fields
       | Throw _ => []
       end
  else [].


(** The updates that [applyUpdate] above follows to the letter on a
    document: the update is [unshared] for it; no field it names is
    called like a member of [Object.prototype] (where [$inc] would read
    the inherited member and an assignment to [__proto__] would make no
    property); and the document, the update and the updated document
    are made of values the data file holds as they are, with no
    undefined property and every number exact. *)
Definition exactUpdate (update doc : obj) : bool :=
  unshared update doc
  && forallb (fun entry =>
                match entry with
                | (operator, payload) =>
                    forallb (fun field => negb (inherited field))
                            (writtenFields operator payload)
                end) update
  && stable (VObj doc)
  && stable (VObj update)
  && match applyUpdate doc update with
     | Ok updated => stable (VObj updated)
     | Throw _ => true
     end.










End WithHost.
End Collection.

(* ===================================================================== *)
(** ** lib/Encryption.js                                                 *)
(* ===================================================================== *)

Module Encryption.
Import Js.

Definition bytes : Type := list Byte.byte.

(** The [crypto] module of the platform: SHA-256, and AES-256-CBC
    encryption and decryption of a buffer under a key and an
    initialization vector ([update] followed by [final]), which throw on
    a bad key, vector or padding. *)
Record Crypto : Type := {
  sha256 : string -> bytes;
  cipher : bytes -> bytes -> bytes -> result bytes;
  decipher : bytes -> bytes -> bytes -> result bytes
}.

Record t : Type := {
  enabled : bool;
  key : bytes;
  ivLength : nat
}.

Section WithCrypto.
Variable crypto : Crypto.

(** [new Encryption(key)]; [None] is a null key. *)
Definition new (passphrase : option string) : t :=
  match passphrase with
  | Some k =>
      if negb (String.eqb k "") && negb (String.eqb k "default-encryption-key")
      then {| enabled := true; key := sha256 crypto k; ivLength := 16 |}
      else {| enabled := false; key := []; ivLength := 16 |}
  | None => {| enabled := false; key := []; ivLength := 16 |}
  end.

(** What a [try { ... } catch { return fallback }] block returns. *)
Definition orElse {A} (r : result A) (fallback : A) : result A :=
  match r with
  | Ok a => Ok a
  | Throw _ => Ok fallback
  end.

(** [encrypt(data)], given the vector [crypto.randomBytes] draws. *)
Definition encrypt (this : t) (iv : bytes) (data : bytes) : result bytes :=
  if negb (enabled this) then Ok data
  else
    orElse (encrypted ← cipher crypto (key this) iv data;
            Ok (iv ++ encrypted))
           data.

(** [decrypt(encryptedData)] *)
Definition decrypt (this : t) (encryptedData : bytes) : result bytes :=
  if negb (enabled this) then Ok encryptedData
  else
    orElse (if (length encryptedData <? ivLength this)%nat
            then Ok encryptedData
            else
              let iv := take (ivLength this) encryptedData in
              let encrypted := drop (ivLength this) encryptedData in
              decipher crypto (key this) iv encrypted)
           encryptedData.

End WithCrypto.
End Encryption.

(* ===================================================================== *)
(** ** lib/IndexManager.js                                               *)
(* ===================================================================== *)

(** The index manager with the cache disconnected ([isConnected] false),
    where the index files are the only index.  The files of one
    collection directory are modelled decoded: what
    [deserialize(decrypt(readFile(...)))] gives for each. *)
Module IndexManager.
Import Js.

Record index_meta : Type := {
  name : string;
  collection : string;
  fields : list string
}.

(** An index file [_index_<name>.bson]: bytes that do not deserialize,
    or [{ metadata, data }] with [data] from composite key to the array
    of identifier strings. *)
Inductive index_file : Type :=
| Corrupt
| Good (metadata : index_meta) (data : gmap string (list string)).

(** The index files of the collection directory in [readdir] order,
    each under its index name. *)
Definition directory : Type := list (string * index_file).

Fixpoint readFile (dir : directory) (indexName : string) : option index_file :=
  match dir with
  | [] => None
  | (n, f) :: dir' => if String.eqb n indexName then Some f else readFile dir' indexName
  end.

Fixpoint writeFile (dir : directory) (indexName : string) (f : index_file) : directory :=
  match dir with
  | [] => [(indexName, f)]
  | (n, f') :: dir' =>
      if String.eqb n indexName then (n, f) :: dir'
      else (n, f') :: writeFile dir' indexName f
  end.

Fixpoint unlink (dir : directory) (indexName : string) : directory :=
  match dir with
  | [] => []
  | (n, f) :: dir' =>
      if String.eqb n indexName then unlink dir' indexName
      else (n, f) :: unlink dir' indexName
  end.

(** [s.split(c)] for a one-character separator. *)
Fixpoint split (c : ascii) (s : string) : list string :=
  match s with
  | EmptyString => [EmptyString]
  | String x s' =>
      if Ascii.eqb x c then EmptyString :: split c s'
      else match split c s' with
           | part :: parts => String x part :: parts
           | [] => [String x EmptyString]
           end
  end.

(** [acc[part]] for a truthy [acc]: a field of an object, an element or
    the length of an array, a character or the length of a string. *)
Definition property (acc : value) (part : string) : value :=
  match acc with
  | VObj o => get o part
  | VArr items =>
      if String.eqb part "length" then VNum (Z.of_nat (length items))
      else get (indexed_from 0 items) part
  | VStr s =>
      if String.eqb part "length" then VNum (Z.of_nat (String.length s))
      else get (indexed_from 0 (chars s)) part
  | _ => VUndef
  end.

(** [getNestedValue(obj, path)] *)
Definition getNestedValue (o : obj) (path : string) : value :=
  fold_left (fun acc part => if truthy acc then property acc part else acc)
            (split "." path) (VObj o).

(** [getDocumentIndexKey(doc, fields)] *)
Definition getDocumentIndexKey (doc : obj) (fields : list string) : string :=
  String.concat "::"
    (List.map (fun field =>
                 match getNestedValue doc field with
                 | VUndef => "null"
                 | value => to_string value
                 end) fields).

(** [indexData.data[key]] where the code goes on to call an array
    method on what it finds: the array the object has of its own under
    the key, or nothing; but for a key that names a member of
    [Object.prototype] and no property of the object, the inherited
    member, which is truthy and no array, so that [.filter] and
    [.includes] on it are a TypeError. *)
Definition member (data : gmap string (list string)) (key : string)
  : result (option (list string)) :=
  match data !! key with
  | Some ids => Ok (Some ids)
  | None => if inherited key then Throw TypeError else Ok None
  end.

(** The body of the inner [try] of [updateFileIndex], from the decoded
    [indexData] to the [data] that is written back.  [Throw] is an
    exception raised on the way, which the [catch] takes for a parse
    error. *)
Definition updateIndexData (fields : list string) (data : gmap string (list string))
    (newDoc : obj) (oldDoc : option obj) : result (gmap string (list string)) :=
  data ←
    match oldDoc with
    | Some oldDoc =>
        let oldKey := getDocumentIndexKey oldDoc fields in
        found ← member data oldKey;
        match found with
        | Some [] => Ok (base.delete oldKey data)
        | Some ids =>
            oldId ← toString_method (get oldDoc "_id");
            let kept := List.filter (fun id => negb (String.eqb id oldId)) ids in
            Ok (if (length kept =? 0)%nat
                then base.delete oldKey data
                else <[oldKey := kept]> data)
        | None => Ok data
        end
    | None => Ok data
    end;
  let newKey := getDocumentIndexKey newDoc fields in
  found ← member data newKey;
  let ids := default [] found in
  newId ← toString_method (get newDoc "_id");
  Ok (if existsb (String.eqb newId) ids
      then <[newKey := ids]> data
      else <[newKey := ids ++ [newId]]> data).

(** The body of the inner [try] of [removeFromFileIndex]. *)
Definition removeIndexData (fields : list string) (data : gmap string (list string))
    (doc : obj) : result (gmap string (list string)) :=
  let docKey := getDocumentIndexKey doc fields in
  found ← member data docKey;
  match found with
  | Some [] => Ok (base.delete docKey data)
  | Some ids =>
      docId ← toString_method (get doc "_id");
      let kept := List.filter (fun id => negb (String.eqb id docId)) ids in
      Ok (if (length kept =? 0)%nat
          then base.delete docKey data
          else <[docKey := kept]> data)
  | None => Ok data
  end.

(** [removeFromFileIndex(collectionName, indexName, doc)]: a file that
    is missing or does not parse, and an exception in the inner [try],
    are only logged; unlike [updateFileIndex] it repairs nothing. *)
Definition removeFromFileIndex (indexName : string) (doc : obj) (dir : directory)
  : directory :=
  match readFile dir indexName with
  | None => dir
  | Some Corrupt => dir
  | Some (Good metadata data) =>
      match removeIndexData (fields metadata) data doc with
      | Ok data' => writeFile dir indexName (Good metadata data')
      | Throw _ => dir
      end
  end.

(** [dropIndex(collectionName, fields)]: the file is unlinked and its
    absence is no error; the result is always [true]. *)
Definition dropIndex (fieldArray : list string) (dir : directory) : bool * directory :=
  (true, unlink dir (String.concat "_" fieldArray)).

(** No composite key is left with an empty array. *)
Definition data_nonempty (data : gmap string (list string)) : Prop :=
  ∀ key ids, data !! key = Some ids → ids ≠ [].

(** [for (const x of l) { await body(x) }] over the directory; [None]
    when a turn runs out of fuel. *)
Definition forEach {A} (body : A → directory → option directory)
  : list A → directory → option directory :=
  fix each (l : list A) (dir : directory) : option directory :=
    match l with
    | [] => Some dir
    | x :: l' => dir ← body x dir; each l' dir
    end.

Section WithCollection.
(** The collection the calls are about: its name, and what
    [this.database.collection(collectionName)] and its [loadData()]
    give, [None] while the collection is not yet in the registry. *)
Variable collectionName : string.
Variable documents : option (list obj).

(** The loop of [getCollectionIndexes] over the index files that
    [readdir] listed: a file that has gone is skipped, a file that does
    not parse is repaired, and the metadata of a file of this
    collection is collected. *)
Definition collectIndexes (repair : string → directory → option directory)
  : list string → list index_meta → directory
    → option (list index_meta * directory) :=
  fix each (files : list string) (indexes : list index_meta) (dir : directory)
    : option (list index_meta * directory) :=
    match files with
    | [] => Some (indexes, dir)
    | file :: files' =>
        match readFile dir file with
        | None => each files' indexes dir
        | Some Corrupt =>
            dir ← repair file dir;
            each files' indexes dir
        | Some (Good metadata _) =>
            if String.eqb (collection metadata) collectionName
            then each files' (indexes ++ [metadata]) dir
            else each files' indexes dir
        end
    end.

(** The five methods call each other, and a document without an
    identifier, or one whose composite key names a member of
    [Object.prototype], makes the rebuild of an index repair that index
    again without end; [fuel] bounds the depth of the calls, and [None]
    is a run that needs more. *)
Fixpoint getCollectionIndexes (fuel : nat) (dir : directory)
  : option (list index_meta * directory) :=
  match fuel with
  | O => None
  | S fuel' =>
      collectIndexes (repairIndexFile fuel') (List.map fst dir) [] dir
  end

with repairIndexFile (fuel : nat) (indexName : string) (dir : directory)
  : option directory :=
  match fuel with
  | O => None
  | S fuel' =>
      match readFile dir indexName with
      | None => Some dir
      | Some _ =>
          '(_, dir) ← createIndex fuel' (split "_" indexName) (unlink dir indexName);
          Some dir
      end
  end

with createIndex (fuel : nat) (fieldArray : list string) (dir : directory)
  : option (index_meta * directory) :=
  match fuel with
  | O => None
  | S fuel' =>
      let indexName := String.concat "_" fieldArray in
      let indexMeta := {| name := indexName; collection := collectionName;
                          fields := fieldArray |} in
      let dir := writeFile dir indexName (Good indexMeta ∅) in
      match documents with
      | Some docs =>
          dir ← forEach (fun doc => updateIndex fuel' doc None) docs dir;
          Some (indexMeta, dir)
      | None => Some (indexMeta, dir)
      end
  end

with updateIndex (fuel : nat) (newDoc : obj) (oldDoc : option obj) (dir : directory)
  : option directory :=
  match fuel with
  | O => None
  | S fuel' =>
      '(indexes, dir) ← getCollectionIndexes fuel' dir;
      forEach (fun index => updateFileIndex fuel' (name index) newDoc oldDoc)
              indexes dir
  end

with updateFileIndex (fuel : nat) (indexName : string) (newDoc : obj)
    (oldDoc : option obj) (dir : directory) : option directory :=
  match fuel with
  | O => None
  | S fuel' =>
      match readFile dir indexName with
      | None => Some dir
      | Some Corrupt => repairIndexFile fuel' indexName dir
      | Some (Good metadata data) =>
          match updateIndexData (fields metadata) data newDoc oldDoc with
          | Ok data' => Some (writeFile dir indexName (Good metadata data'))
          | Throw _ => repairIndexFile fuel' indexName dir
          end
      end
  end.

(** [removeFromIndex(collectionName, doc)] *)
Definition removeFromIndex (fuel : nat) (doc : obj) (dir : directory)
  : option directory :=
  '(indexes, dir) ← getCollectionIndexes fuel dir;
  Some (fold_left (fun dir index => removeFromFileIndex (name index) doc dir)
                  indexes dir).

(** [dropCollectionIndexes(collectionName)] *)
Definition dropCollectionIndexes (fuel : nat) (dir : directory) : option directory :=
  '(indexes, dir) ← getCollectionIndexes fuel dir;
  Some (fold_left (fun dir index => (dropIndex (fields index) dir).2) indexes dir).

End WithCollection.

(** The metadata [repairIndexFile] gives the index it recreates: the
    field list is read off the file name. *)
Definition repairedMetadata (collectionName indexName : string) : index_meta :=
  {| name := indexName; collection := collectionName;
     fields := split "_" indexName |}.

(** The index is on file with the metadata of a repair. *)
Definition repairedOnFile (collectionName indexName : string) (dir : directory)
  : Prop :=
  ∃ data, readFile dir indexName
          = Some (Good (repairedMetadata collectionName indexName) data).

(** The identifier of the document is listed under the document's
    composite key. *)
Definition listed (fieldArray : list string) (data : gmap string (list string))
    (doc : obj) : Prop :=
  ∃ docId ids,
    toString_method (get doc "_id") = Ok docId
    ∧ data !! getDocumentIndexKey doc fieldArray = Some ids
    ∧ docId ∈ ids.

(** The index is on file with its metadata and lists the documents. *)
Definition indexLists (indexMeta : index_meta) (docs : list obj) (dir : directory)
  : Prop :=
  ∃ data,
    readFile dir (name indexMeta) = Some (Good indexMeta data)
    ∧ Forall (listed (fields indexMeta) data) docs.

(** A call of [updateFileIndex] together with the collection's
    documents at the time of the call. *)
Record call : Type := {
  documents_then : option (list obj);
  indexName : string;
  newDoc : obj;
  oldDoc : option obj
}.

(** A sequence of [updateFileIndex] calls on one collection: the
    directory after each call, or [None] when a call needs more fuel. *)
Fixpoint updateFileIndex_calls (collectionName : string) (fuel : nat)
    (calls : list call) (dir : directory) : option (list directory) :=
  match calls with
  | [] => Some []
  | c :: calls' =>
      dir' ← updateFileIndex collectionName (documents_then c) fuel
               (indexName c) (newDoc c) (oldDoc c) dir;
      rest ← updateFileIndex_calls collectionName fuel calls' dir';
      Some (dir' :: rest)
  end.

Definition isCorrupt (f : index_file) : bool :=
  match f with
  | Corrupt => true
  | Good _ _ => false
  end.

(** How many index files of the directory do not parse. *)
Definition corruptFiles (dir : directory) : nat :=
  length (List.filter (fun entry => isCorrupt entry.2) dir).

(** *** The documents and files on which the model is the code *)

(** The walk of [getNestedValue] from [acc] along the parts of a path
    meets only properties the values have of their own, and ends in a
    scalar, in null or in undefined.  A part that names neither a
    property of a plain object nor a member of [Object.prototype] gives
    undefined; a falsy value ends the walk; members of the other
    prototypes are not followed. *)
Fixpoint ownPath (acc : value) (parts : list string) : bool :=
  match parts with
  | [] => scalar acc || negb (truthy acc)
  | part :: parts' =>
      if truthy acc then
        match acc with
        | VObj o =>
            match lookup_field o part with
            | Some v => ownPath v parts'
            | None => negb (inherited part)
            end
        | VArr items =>
            if String.eqb part "length" then ownPath (VNum (Z.of_nat (length items))) parts'
            else match lookup_field (indexed_from 0 items) part with
                 | Some v => ownPath v parts'
                 | None => false
                 end
        | VStr s =>
            if String.eqb part "length"
            then ownPath (VNum (Z.of_nat (String.length s))) parts'
            else match lookup_field (indexed_from 0 (chars s)) part with
                 | Some v => ownPath v parts'
                 | None => false
                 end
        | _ => false
        end
      else scalar acc || negb (truthy acc)
  end.

(** A document that an index on [fields] can take: its identifier is a
    scalar, each field is reached through own properties, and its
    composite key names no member of [Object.prototype] and has no NUL
    character. *)
Definition indexable (fields : list string) (doc : obj) : bool :=
  scalar (get doc "_id")
  && forallb (fun field => ownPath (VObj doc) (split "." field)) fields
  && negb (inherited (getDocumentIndexKey doc fields))
  && noNul (getDocumentIndexKey doc fields).

(** The fields of the index a file holds, or will hold once it is
    repaired. *)
Definition fileFields (indexName : string) (f : index_file) : list string :=
  match f with
  | Corrupt => split "_" indexName
  | Good metadata _ => fields metadata
  end.

(** An index name that makes a file name: no separator, no NUL
    character, and short enough with [_index_] before and [.bson]
    after it. *)
Definition validName (indexName : string) : bool :=
  noNul indexName
  && negb (string_includes "/" indexName)
  && (String.length indexName <=? 243)%nat.

(** The directory and the documents in play suit each other: every
    index on file, as it is or as its repair will make it, can take
    every document, and the name of a file that does not parse is the
    name its repair recovers. *)
Definition regular (docs : list obj) (dir : directory) : bool :=
  forallb (fun entry =>
             match entry with
             | (n, f) =>
                 (negb (isCorrupt f) || negb (string_includes ".bson" n))
                 && forallb (indexable (fileFields n f)) docs
             end) dir.

(** What the calls rely on of a regular directory. *)
Definition ready (docs : list obj) (dir : directory) : Prop :=
  ∀ n f, readFile dir n = Some f →
         Forall (fun doc => indexable (fileFields n f) doc = true) docs.

(** The documents a call brings. *)
Definition callDocuments (c : call) : list obj :=
  newDoc c :: option_list (oldDoc c) ++ default [] (documents_then c).

(** No identifier occurs twice under a composite key of a [data]
    object, of a file, of a directory. *)
Definition data_unique (data : gmap string (list string)) : Prop :=
  ∀ key ids, data !! key = Some ids → NoDup ids.

Definition ids_unique (f : index_file) : Prop :=
  match f with
  | Corrupt => True
  | Good _ data => data_unique data
  end.

Definition directory_ids_unique (dir : directory) : Prop :=
  Forall (fun entry => ids_unique entry.2) dir.

End IndexManager.

(* ===================================================================== *)
(** ** The model class: schema validation                                *)
(* ===================================================================== *)

(** [Model.validate] over a schema whose rules are objects.  Of a rule,
    [match] is a regular expression without the [g] and [y] flags, or
    absent, and [validate] is a function, or absent; the other
    properties are any value, [VUndef] when absent.  Strings are
    strings of ASCII characters. *)
Module Model.
Import Js.

Record regexp : Type := {
  test : string → bool;
  shown : string           (* [String(re)] *)
}.

Record rules : Type := {
  required : value;
  type : value;
  min : value;
  max : value;
  enum : value;
  match_ : option regexp;
  validate_ : option (value → result value)
}.

(** [Object.entries(this.schema)] *)
Definition schema : Type := list (string * rules).

(** [v === undefined || v === null] *)
Definition nullish (v : value) : bool :=
  match v with
  | VUndef | VNull => true
  | _ => false
  end.

Definition isSpace (c : ascii) : bool :=
  let n := nat_of_ascii c in
  ((9 <=? n) && (n <=? 13) || (n =? 32))%nat.

Fixpoint trimStart (s : string) : string :=
  match s with
  | EmptyString => EmptyString
  | String c s' => if isSpace c then trimStart s' else s
  end.

Fixpoint trimEnd (s : string) : string :=
  match s with
  | EmptyString => EmptyString
  | String c s' =>
      match trimEnd s' with
      | EmptyString => if isSpace c then EmptyString else String c EmptyString
      | rest => String c rest
      end
  end.

(** [s.trim()] *)
Definition trim (s : string) : string := trimEnd (trimStart s).

(** [value.split(',').map(item => item.trim()).filter(item => item)] *)
Definition parts (s : string) : list value :=
  List.map VStr
    (List.filter (fun item => negb (String.eqb item ""))
       (List.map trim (IndexManager.split "," s))).

(** The [switch (rules.type)] of [validate], without the assignment of
    its [array] case. *)
Definition isValidType (type value : value) : bool :=
  match type with
  | VStr "string" => match value with VStr _ => true | _ => false end
  | VStr "number" => match value with VNum _ => true | _ => false end
  | VStr "boolean" => match value with VBool _ => true | _ => false end
  | VStr "array" => match value with VArr _ | VStr _ => true | _ => false end
  | VStr "object" => match value with VObj _ | VOid _ => true | _ => false end
  | _ => true
  end.

(** The assignment of the [array] case: a string becomes the array of
    its parts, in the document. *)
Definition convert (document : obj) (field : string) (type value : value) : obj :=
  match type, value with
  | VStr "array", VStr s => set document field (VArr (parts s))
  | _, _ => document
  end.

(** [items.join(sep)] *)
Definition join (sep : string) (v : value) : result string :=
  match v with
  | VArr items =>
      Ok (String.concat sep
            (List.map (fun x => match x with
                                | VUndef | VNull => ""
                                | _ => to_string x
                                end) items))
  | _ => Throw TypeError
  end.

(** One turn of the loop of [validate]: the errors of one field, or the
    exception of the turn, and the document after it. *)
Definition checkField (document : obj) (field : string) (rules : rules)
  : result (list string) * obj :=
  let value := get document field in
  if truthy (required rules) && nullish value
  then (Ok [field +:+ " is required"], document)
  else if nullish value then (Ok [], document)
  else
    let typeErrors :=
      if truthy (type rules) && negb (isValidType (type rules) value)
      then [field +:+ " must be of type " +:+ to_string (type rules)]
      else [] in
    let document :=
      if truthy (type rules) then convert document field (type rules) value
      else document in
    let minErrors :=
      if negb (strict_eq (min rules) VUndef) && js_lt value (min rules)
      then [field +:+ " must be at least " +:+ to_string (min rules)]
      else [] in
    let maxErrors :=
      if negb (strict_eq (max rules) VUndef) && js_gt value (max rules)
      then [field +:+ " must be at most " +:+ to_string (max rules)]
      else [] in
    (enumErrors ←
       (if truthy (enum rules)
        then
          included ← Collection.includes (enum rules) value;
          if included : bool then Ok []
          else
            listed ← join ", " (enum rules);
            Ok [field +:+ " must be one of: " +:+ listed]
        else Ok []);
     let matchErrors :=
       match match_ rules, value with
       | Some re, VStr s =>
           if test re s then []
           else [field +:+ " must match pattern " +:+ shown re]
       | _, _ => []
       end in
     customErrors ←
       match validate_ rules with
       | Some f =>
           verdict ← f value;
           Ok (if truthy verdict then []
               else [field +:+ " failed custom validation"])
       | None => Ok []
       end;
     Ok (typeErrors ++ minErrors ++ maxErrors ++ enumErrors ++ matchErrors
         ++ customErrors),
     document).

(** The loop of [validate] over the entries of the schema. *)
Fixpoint checkFields (schema : schema) (document : obj) (errors : list string)
  : result (list string) * obj :=
  match schema with
  | [] => (Ok errors, document)
  | (field, rules) :: schema' =>
      match checkField document field rules with
      | (Ok found, document) => checkFields schema' document (errors ++ found)
      | (Throw e, document) => (Throw e, document)
      end
  end.

(** [validate(document)]: [true] or an exception, and the document as
    the call leaves it. *)
Definition validate (schema : schema) (document : obj) : result bool * obj :=
  match checkFields schema document [] with
  | (Ok [], document) => (Ok true, document)
  | (Ok errors, document) =>
      (Throw (Error ("Validation failed: " +:+ String.concat ", " errors)), document)
  | (Throw e, document) => (Throw e, document)
  end.

(** What [validate] has checked of a field of the schema: [value] is
    the value of the field before the call and [after] the value after
    it. *)
Definition passes (rules : rules) (value after : value) : Prop :=
  (truthy (required rules) = true → nullish value = false)
  ∧ (nullish value = false →
       (type rules = VStr "string" → ∃ s, value = VStr s)
       ∧ (type rules = VStr "number" → ∃ z, value = VNum z)
       ∧ (type rules = VStr "boolean" → ∃ b, value = VBool b)
       ∧ (type rules = VStr "object" →
            (∃ fields, value = VObj fields) ∨ (∃ hex, value = VOid hex))
       ∧ (type rules = VStr "array" →
            (∃ items, value = VArr items)
            ∨ (∃ s, value = VStr s ∧ after = VArr (parts s)))
       ∧ (min rules ≠ VUndef → js_lt value (min rules) = false)
       ∧ (max rules ≠ VUndef → js_gt value (max rules) = false)
       ∧ (∀ items, enum rules = VArr items →
            existsb (same_value_zero value) items = true)
       ∧ (∀ re s, match_ rules = Some re → value = VStr s → test re s = true)
       ∧ (∀ f, validate_ rules = Some f →
            ∃ verdict, f value = Ok verdict ∧ truthy verdict = true)).

End Model.

(* ===================================================================== *)
(** ** The worker manager                                                *)
(* ===================================================================== *)

(** The manager as the state its handlers share: the registry of the
    workers that have reported ready, the task counter and the pending
    tasks.  A worker is the number of its creation; a pending task is
    the pair of callbacks of its promise, which the model does not look
    into.  The counter is a JavaScript number, exact below 2^53. *)
Module WorkerManager.
Import Js.

Record t : Type := {
  threadCount : value;               (* [options.threadCount] *)
  workers : gmap nat nat;
  taskId : nat;
  pendingTasks : gmap nat unit
}.

(** [new WorkerManager(options)] *)
Definition new (threadCount : value) : t :=
  {| threadCount := threadCount; workers := ∅; taskId := 0; pendingTasks := ∅ |}.

(** What a handler does to the outside: a task run in this thread, a
    message posted to a worker, a promise settled. *)
Inductive effect : Type :=
| ExecuteDirect
| PostMessage (worker id : nat)
| Resolve (id : nat)
| Reject (id : nat).

(** [executeTask(type, data)] up to the promise it returns. *)
Definition executeTask (this : t) : effect * t :=
  if js_le (threadCount this) (VNum 1) || (size (workers this) =? 0)%nat
  then (ExecuteDirect, this)
  else
    let id := taskId this in
    let this := {| threadCount := threadCount this; workers := workers this;
                   taskId := S id; pendingTasks := pendingTasks this |} in
    let workerId := (id mod size (workers this))%nat in
    match workers this !! workerId with
    | None => (ExecuteDirect, this)
    | Some worker =>
        (PostMessage worker id,
         {| threadCount := threadCount this; workers := workers this;
            taskId := taskId this;
            pendingTasks := <[id := tt]> (pendingTasks this) |})
    end.

(** A message of a worker, as its handler tells them apart. *)
Inductive message : Type :=
| ready
| response (id : nat)
| error (id : nat)
| other.

(** [worker.on('message', ...)] of the worker created as [worker] for
    [workerId]. *)
Definition onMessage (workerId worker : nat) (m : message) (this : t)
  : list effect * t :=
  match m with
  | ready =>
      ([], {| threadCount := threadCount this;
              workers := <[workerId := worker]> (workers this);
              taskId := taskId this; pendingTasks := pendingTasks this |})
  | response id | error id =>
      match pendingTasks this !! id with
      | Some _ =>
          ([match m with response _ => Resolve id | _ => Reject id end],
           {| threadCount := threadCount this; workers := workers this;
              taskId := taskId this;
              pendingTasks := base.delete id (pendingTasks this) |})
      | None => ([], this)
      end
  | other => ([], this)
  end.

(** [worker.on('exit', ...)] *)
Definition onExit (workerId : nat) (this : t) : t :=
  {| threadCount := threadCount this;
     workers := base.delete workerId (workers this);
     taskId := taskId this; pendingTasks := pendingTasks this |}.

(** [stop()] *)
Definition stop (this : t) : t :=
  {| threadCount := threadCount this; workers := ∅;
     taskId := taskId this; pendingTasks := ∅ |}.

(** What happens to a manager, in the order it happens. *)
Inductive event : Type :=
| Message (workerId worker : nat) (m : message)
| Exit (workerId : nat)
| ExecuteTask
| Stop.

Definition step (this : t) (e : event) : list effect * t :=
  match e with
  | Message workerId worker m => onMessage workerId worker m this
  | Exit workerId => ([], onExit workerId this)
  | ExecuteTask => let '(effect, this) := executeTask this in ([effect], this)
  | Stop => ([], stop this)
  end.

(** The effects and the state after a sequence of events. *)
Fixpoint run (events : list event) (this : t) : list effect * t :=
  match events with
  | [] => ([], this)
  | e :: events' =>
      let '(effects, this) := step this e in
      let '(effects', this) := run events' this in
      (effects ++ effects', this)
  end.

End WorkerManager.

(* ===================================================================== *)
(** ** The design's reading of the operations, and sample collaborators  *)
(* ===================================================================== *)

Module Design.
Import Js Collection.

(** [skip] then [limit] as the design orders them; an absent or zero
    option leaves the list as it is. *)
Definition skipped {A} (n : option Z) (l : list A) : list A :=
  match given n with
  | Some k => drop (Z.to_nat k) l
  | None => l
  end.

Definition limited {A} (n : option Z) (l : list A) : list A :=
  match given n with
  | Some k => take (Z.to_nat k) l
  | None => l
  end.

Definition sorted (host : Host) (sort : value) (l : list obj) : result (list obj) :=
  if truthy sort then sortDocuments host l sort else Ok l.

(** The design's [find]: the matching documents, sorted, then skipped,
    then limited. *)
Definition find (host : Host) (query : value) (options : find_options)
  : M (list obj) :=
  documents ← loadData;
  results ← lift (filterThrowing (fun doc => matchDocument host doc query) documents);
  results ← lift (sorted host (sort options) results);
  mret (limited (limit options) (skipped (skip options) results)).

(** The operators the design lists for a field condition. *)
Definition supported (operator : string) : bool :=
  existsb (String.eqb operator)
    ["$eq"; "$ne"; "$gt"; "$gte"; "$lt"; "$lte"; "$in"; "$nin"; "$regex"].

(** A query that contains [operator] where it must hold for the query
    to match: in the operator map of one of its fields, or so placed in
    a member of one of its [$and] arrays. *)
Inductive demands (operator : string) : value → Prop :=
| demands_field (fields : list (string * value)) (key : string)
    (ops : list (string * value)) (operand : value) :
    In (key, VObj ops) fields → key ≠ "$or" → key ≠ "$and" →
    In (operator, operand) ops →
    demands operator (VObj fields)
| demands_and (fields : list (string * value)) (conditions : list value)
    (condition : value) :
    In ("$and", VArr conditions) fields → In condition conditions →
    demands operator condition →
    demands operator (VObj fields).

(** The number a document holds in a field, 0 when it holds none. *)
Definition numberAt (field : string) (doc : obj) : Z :=
  match get doc field with
  | VNum z => z
  | _ => 0
  end.


End Design.

(** Stand-ins for the libraries, to run the model on examples. *)
Module Sample.
Import Js.

Definition is_hex (c : ascii) : bool :=
  let n := nat_of_ascii c in
  ((48 <=? n) && (n <=? 57) || (65 <=? n) && (n <=? 70)
   || (97 <=? n) && (n <=? 102))%nat.

(** A host whose regular expressions are the literal patterns (a
    pattern matches the strings that contain it), whose [ObjectId]
    accepts the 24-digit hex strings, draws the identifiers
    000...0, 000...1, ... and has no own enumerable property. *)
Definition host : Collection.Host := {|
  Collection.regexp_test pattern subject :=
    match pattern with
    | VStr p => Ok (string_includes p (to_string subject))
    | _ => Throw SyntaxError
    end;
  Collection.objectid_of_string s :=
    if (String.length s =? 24)%nat && forallb is_hex (list_ascii_of_string s)
    then Ok s
    else Throw (Error "input must be a 24 character hex string");
  Collection.objectid_fresh n :=
    let digits := pretty n in
    string_of_list_ascii (repeat "0"%char (24 - String.length digits)) +:+ digits;
  Collection.objectid_entries _ := []
|}.

(** A crypto library whose cipher is the identity. *)
Definition crypto : Encryption.Crypto := {|
  Encryption.sha256 s := List.map byte_of_ascii (list_ascii_of_string s);
  Encryption.cipher _ _ data := Ok data;
  Encryption.decipher _ _ data := Ok data
|}.

(** A crypto library whose cipher and decipher always fail. *)
Definition failingCrypto : Encryption.Crypto := {|
  Encryption.sha256 s := List.map byte_of_ascii (list_ascii_of_string s);
  Encryption.cipher _ _ _ := Throw (Error "bad key");
  Encryption.decipher _ _ _ := Throw (Error "bad decrypt")
|}.


(** A store whose data file holds the given documents. *)
Definition storeOf (documents : list obj) : Collection.store :=
  {| Collection.dataFile := Collection.Decoded (Some documents);
     Collection.issued := 0;
     Collection.trace := [] |}.

(** A store whose data file does not deserialize. *)
Definition damagedStore : Collection.store :=
  {| Collection.dataFile := Collection.Undecodable;
     Collection.issued := 0;
     Collection.trace := [] |}.

Definition john : obj :=
  [("_id", VOid "65a000000000000000000001"); ("name", VStr "John"); ("age", VNum 30)].
Definition jane : obj :=
  [("_id", VOid "65a000000000000000000002"); ("name", VStr "Jane"); ("age", VNum 25)].
Definition joan : obj :=
  [("_id", VOid "65a000000000000000000003"); ("name", VStr "Joan"); ("age", VNum 41)].

(** The index directory of a collection [users]: the default index on
    [_id], freshly created, and an index on name and age whose file
    does not parse. *)
Definition usersIndexes : IndexManager.directory :=
  [("_id", IndexManager.Good
             {| IndexManager.name := "_id";
                IndexManager.collection := "users";
                IndexManager.fields := ["_id"] |} ∅);
   ("name_age", IndexManager.Corrupt)].

(** The fields and the entries of each index file, to read a directory. *)
Definition listing (dir : IndexManager.directory)
  : list (string * option (list string * list (string * list string))) :=
  List.map (fun '(n, f) =>
              (n, match f with
                  | IndexManager.Good m data =>
                      Some (IndexManager.fields m, map_to_list data)
                  | IndexManager.Corrupt => None
                  end)) dir.

(** John is indexed twice after his insert, then Jane once after
    hers. *)
Definition usersCalls : list IndexManager.call :=
  [ {| IndexManager.documents_then := Some [john];
       IndexManager.indexName := "_id";
       IndexManager.newDoc := john;
       IndexManager.oldDoc := None |};
    {| IndexManager.documents_then := Some [john];
       IndexManager.indexName := "_id";
       IndexManager.newDoc := john;
       IndexManager.oldDoc := None |};
    {| IndexManager.documents_then := Some [john; jane];
       IndexManager.indexName := "name_age";
       IndexManager.newDoc := jane;
       IndexManager.oldDoc := None |} ].

End Sample.

(* ===================================================================== *)
(** ** Theorems about the query matcher                                  *)
(* ===================================================================== *)

Section Matcher.
Import Js Collection.
Variable host : Host.

Lemma every_cons {A} (f : A -> result bool) (x : A) (l : list A) :
  every f (x :: l) = (b ← f x; if b : bool then every f l else Ok false).
Proof. reflexivity. Qed.

(** A loop that meets an element on which the body returns false or
    throws does not return true. *)
Lemma every_not_true {A} (f : A -> result bool) (l : list A) (x : A) :
  In x l → f x ≠ Ok true → every f l ≠ Ok true.
Proof.
  induction l as [|y l IH]; intros Hin Hx; [destruct Hin|].
  rewrite every_cons.
  destruct Hin as [->|Hin].
  - destruct (f x) as [[|]|e]; simpl; congruence.
  - destruct (f y) as [[|]|e]; simpl; [auto|congruence|congruence].
Qed.

Lemma matchOperator_default (fieldValue : value) (operator : string) (v : value) :
  Design.supported operator = false →
  matchOperator host fieldValue operator v = Ok false.
Proof.
  unfold Design.supported, matchOperator. simpl. intros H.
  repeat (apply orb_false_elim in H as [-> H]). reflexivity.
Qed.

Lemma matchField_unknown_operator (doc : obj) (key operator : string)
    (ops : list (string * value)) (v : value) :
  Design.supported operator = false →
  In (operator, v) ops →
  matchField host doc key (VObj ops) ≠ Ok true.
Proof.
  intros Hop Hin. unfold matchField. simpl.
  change (matchOperators host (get doc key) ops ≠ Ok true).
  unfold matchOperators. apply (every_not_true _ _ (operator, v) Hin).
  rewrite matchOperator_default by assumption. congruence.
Qed.

(** C8, as the code has it.  An operator outside [$eq, $ne, $gt, $gte,
    $lt, $lte, $in, $nin, $regex] makes [matchOperator] return false on
    every field value and operand, and a query that contains it where
    it must hold for the query to match (in the operator map of a
    field, at the top or under [$and]) matches no document:
    [matchDocument] never returns true on it.  Elsewhere the operator
    does not close the query: under [$or] the other branches decide,
    and at the top level an unknown name is read as a field. *)
Theorem unknown_operator_fails_closed (operator : string) :
  Design.supported operator = false →
  (∀ fieldValue operand, matchOperator host fieldValue operator operand = Ok false)
  ∧ (∀ doc query, Design.demands operator query →
                  matchDocument host doc query ≠ Ok true).
Proof.
  intros Hop. split.
  - intros fieldValue operand. by apply matchOperator_default.
  - intros doc query Hq.
    induction Hq as [fields key ops operand Hin Hor Hand Hops
                    |fields conditions condition Hin Hcond _ IH].
    + cbn [matchDocument].
      apply (every_not_true _ _ (key, VObj ops) Hin).
      apply String.eqb_neq in Hor, Hand. rewrite Hor, Hand.
      by eapply matchField_unknown_operator.
    + cbn [matchDocument].
      apply (every_not_true _ _ ("$and", VArr conditions) Hin).
      change (every (matchDocument host doc) conditions ≠ Ok true).
      by apply (every_not_true _ _ condition Hcond).
Qed.

End Matcher.

(** The theorem at the operator [$exists] and the query
    [{ $and: [{ age: { $gte: 18, $exists: true } }] }]. *)
Lemma unknown_operator_fails_closed_witness :
  Collection.matchOperator Sample.host (Js.VNum 30) "$exists" (Js.VBool true)
    = Js.Ok false
  ∧ Collection.matchDocument Sample.host [("age", Js.VNum 30)]
      (Js.VObj [("$and", Js.VArr [Js.VObj
         [("age", Js.VObj [("$gte", Js.VNum 18); ("$exists", Js.VBool true)])]])])
    ≠ Js.Ok true.
Proof.
  destruct (unknown_operator_fails_closed Sample.host "$exists" eq_refl) as [H1 H2].
  split.
  - apply H1.
  - apply H2.
    eapply Design.demands_and; [left; reflexivity|left; reflexivity|].
    apply (Design.demands_field _ _ "age"
             [("$gte", Js.VNum 18); ("$exists", Js.VBool true)] (Js.VBool true)).
    + left; reflexivity.
    + discriminate.
    + discriminate.
    + right; left; reflexivity.
Defined.

(** C8 as stated fails: a query that contains an unknown operator can
    match.  Under [$or] the branch with [$foo] fails and the other
    branch matches John; [$nor], which the matcher does not know, is
    read at the top level as a field with an empty operator map, and
    matches every document. *)
Lemma unknown_operator_query_matches :
  Design.supported "$foo" = false
  ∧ Collection.matchDocument Sample.host Sample.john
      (Js.VObj [("$or", Js.VArr
         [Js.VObj [("age", Js.VObj [("$foo", Js.VNum 1)])];
          Js.VObj [("name", Js.VStr "John")]])])
    = Js.Ok true
  ∧ Design.supported "$nor" = false
  ∧ Collection.matchDocument Sample.host Sample.john
      (Js.VObj [("$nor", Js.VArr [])])
    = Js.Ok true.
Proof. repeat split; reflexivity. Qed.

(* ===================================================================== *)
(** ** Theorems about reads                                              *)
(* ===================================================================== *)

Lemma M_bind_unfold {A B} (m : Collection.M A) (k : A -> Collection.M B)
    (st : Collection.store) :
  (m ≫= k) st = match m st with
                | (Js.Ok a, st') => k a st'
                | (Js.Throw e, st') => (Js.Throw e, st')
                end.
Proof. reflexivity. Qed.

(** Runs the binds of a method applied to a store. *)
Ltac mrun := repeat (rewrite M_bind_unfold; simpl).

Section Reads.
Import Js Collection.
Variable host : Host.

Lemma loadData_snapshot (st : store) :
  loadData st = (Ok (snapshot (dataFile st)), st).
Proof. unfold loadData, snapshot. by destruct (dataFile st) as [| |[?|]]. Qed.

Lemma slice_nil {A} (start stop : Z) : slice (@nil A) start stop = [].
Proof. unfold slice. by rewrite drop_nil, take_nil. Qed.

Lemma sliceFrom_nil {A} (start : Z) : sliceFrom (@nil A) start = [].
Proof. apply slice_nil. Qed.

Lemma relativeIndex_nonneg (len i : Z) :
  0 <= i → relativeIndex len i = Z.min i len.
Proof. unfold relativeIndex. intros H. destruct (Z.ltb_spec i 0); [lia|done]. Qed.

(** For a count that is not negative, [slice(0, n)] keeps the first
    [n] elements and [slice(n)] drops them. *)
Lemma slice_take {A} (l : list A) (n : Z) :
  0 <= n → slice l 0 n = take (Z.to_nat n) l.
Proof.
  intros H. unfold slice.
  rewrite !relativeIndex_nonneg by lia.
  replace (Z.min 0 (Z.of_nat (length l))) with 0 by lia.
  rewrite Z.sub_0_r. simpl. rewrite drop_0.
  destruct (Z.le_ge_cases n (Z.of_nat (length l))).
  - by rewrite Z.min_l.
  - rewrite Z.min_r by done. rewrite Nat2Z.id.
    rewrite !take_ge; [done|lia|lia].
Qed.

Lemma sliceFrom_drop {A} (l : list A) (n : Z) :
  0 <= n → sliceFrom l n = drop (Z.to_nat n) l.
Proof.
  intros H. unfold sliceFrom, slice.
  rewrite !relativeIndex_nonneg by lia.
  rewrite Z.min_id.
  destruct (Z.le_ge_cases n (Z.of_nat (length l))).
  - rewrite Z.min_l by done. apply take_ge. rewrite length_drop. lia.
  - rewrite Z.min_r by done. rewrite Nat2Z.id, Z.sub_diag. simpl.
    rewrite !drop_ge; [done|lia|lia].
Qed.

(** C6.  [count(q)] returns the length of what [find(q)] returns
    without options: the two run the same filter over the same
    snapshot, throw together, and leave the store as it is. *)
Theorem count_is_length_of_find (query : value) (st : store) :
  count host query st = (length <$> find host query noOptions) st.
Proof.
  unfold count, find, fmap, M_fmap.
  rewrite !M_bind_unfold, loadData_snapshot.
  unfold lift. simpl.
  by destruct (filterThrowing _ _).
Qed.

(** What [find] computes when [skip] and [limit] are not negative: the
    filter, the sort, then the first [limit] results, then these
    without their first [skip]. *)
Lemma find_limit_then_skip (query : value) (options : find_options) (st : store) :
  (∀ n, limit options = Some n → 0 <= n) →
  (∀ n, skip options = Some n → 0 <= n) →
  find host query options st =
    (documents ← loadData;
     results ← lift (filterThrowing (fun doc => matchDocument host doc query) documents);
     results ← lift (Design.sorted host (sort options) results);
     mret (Design.skipped (skip options) (Design.limited (limit options) results))) st.
Proof.
  intros Hl Hs. unfold find.
  rewrite !M_bind_unfold, loadData_snapshot. unfold lift.
  destruct (filterThrowing _ _) as [results|e]; [|done].
  unfold Design.sorted. rewrite !M_bind_unfold.
  assert (Hcut : ∀ rs : list obj,
    match given (skip options) with
    | Some n => sliceFrom match given (limit options) with
                          | Some n0 => slice rs 0 n0
                          | None => rs
                          end n
    | None => match given (limit options) with
              | Some n0 => slice rs 0 n0
              | None => rs
              end
    end = Design.skipped (skip options) (Design.limited (limit options) rs)).
  { intros rs. unfold Design.skipped, Design.limited, given.
    destruct (limit options) as [n|] eqn:El, (skip options) as [k|] eqn:Es;
      repeat case_match; simplify_eq;
      rewrite ?sliceFrom_drop, ?slice_take; auto. }
  destruct (truthy (sort options)).
  - unfold lift. destruct (sortDocuments _ _ _) as [sorted|e]; [|done].
    unfold mret, M_ret. by rewrite Hcut.
  - unfold mret, M_ret. by rewrite Hcut.
Qed.

End Reads.

(* ===================================================================== *)
(** ** Theorems about the data file and the writes                      *)
(* ===================================================================== *)

Section Writes.
Import Js Collection.
Variable host : Host.

Lemma findIndex_noMatch (query : value) (documents : list obj) :
  noMatch host query documents →
  findIndex (fun doc => matchDocument host doc query) documents = Ok None.
Proof.
  induction 1 as [|doc documents Hdoc _ IH]; [done|].
  simpl. rewrite Hdoc. simpl. by rewrite IH.
Qed.

Lemma get_set_eq (o : obj) (k : string) (v : value) : get (set o k v) k = v.
Proof.
  unfold get. induction o as [|[k' v'] o IH]; simpl.
  - by rewrite String.eqb_refl.
  - destruct (String.eqb k' k) eqn:E; simpl; by rewrite E.
Qed.

Lemma truthy_entries (v : value) :
  truthy v = true → ∃ fields, entries host v = Ok fields.
Proof. destruct v; simpl; intros; try done; eauto. Qed.

(** [ensureId] touches neither the data file nor the trace, and the
    document it returns has a truthy [_id]. *)
Lemma ensureId_store (document stored : obj) (st st1 : store) :
  ensureId host document st = (Ok stored, st1) →
  dataFile st1 = dataFile st ∧ trace st1 = trace st
  ∧ truthy (get stored "_id") = true.
Proof.
  unfold ensureId.
  destruct (truthy (get document "_id")) eqn:Et; simpl.
  - destruct (get document "_id") eqn:Eg;
      try (intros [= <- <-]; by rewrite ?Eg).
    unfold parseObjectId, lift.
    rewrite M_bind_unfold. simpl.
    destruct (objectid_of_string host s); simpl; [|done].
    intros [= <- <-]. by rewrite get_set_eq.
  - rewrite M_bind_unfold. unfold newObjectId. simpl.
    intros [= <- <-]. simpl. by rewrite get_set_eq.
Qed.

(** [insertOne] once the identifier is settled. *)
Lemma insertOne_stored (document stored : obj) (st st1 : store) :
  ensureId host document st = (Ok stored, st1) →
  insertOne host document st =
    (Ok stored,
     {| dataFile := Decoded (Some (snapshot (dataFile st) ++ [stored]));
        issued := issued st1;
        trace := trace st ++ [SaveData (snapshot (dataFile st) ++ [stored]);
                              UpdateIndex stored None] |}).
Proof.
  intros He. destruct (ensureId_store _ _ _ _ He) as (Hd & Ht & _).
  unfold insertOne. rewrite M_bind_unfold, He.
  rewrite M_bind_unfold, loadData_snapshot.
  unfold saveData, updateIndex, emit. mrun.
  rewrite Hd, Ht. by rewrite <- app_assoc.
Qed.

(** C9.  When no stored document matches the query, [updateOne]
    without [upsert] returns null and leaves the store as it found it:
    the data file is not written and no call to the index manager is
    made. *)
Theorem updateOne_without_match (query : value) (update : obj) (st : store) :
  noMatch host query (snapshot (dataFile st)) →
  updateOne host query update false st = (Ok None, st).
Proof.
  intros Hno. unfold updateOne.
  rewrite M_bind_unfold, loadData_snapshot.
  rewrite M_bind_unfold. unfold lift.
  by rewrite (findIndex_noMatch _ _ Hno).
Qed.


(** C3, as the code has it.  When the bytes of the data file decrypt
    but do not deserialize, [loadData] returns the empty array and
    raises nothing, so [find] returns no document and [count] returns
    0, and the store is left as it was. *)
Theorem loadData_undecodable_is_empty (query : value) (options : find_options)
    (st : store) :
  dataFile st = Undecodable →
  loadData st = (Ok [], st)
  ∧ find host query options st = (Ok [], st)
  ∧ count host query st = (Ok 0%nat, st).
Proof.
  intros Hf. split; [|split].
  - by rewrite loadData_snapshot, Hf.
  - unfold find. rewrite M_bind_unfold, loadData_snapshot, Hf. simpl.
    rewrite M_bind_unfold.
    destruct (truthy (sort options)) eqn:Es.
    + destruct (truthy_entries _ Es) as [fields Hfields].
      unfold lift, sortDocuments. rewrite Hfields. simpl.
      unfold mret, M_ret. repeat case_match; mrun;
        by rewrite ?slice_nil, ?sliceFrom_nil.
    + unfold mret, M_ret, lift. mrun. repeat case_match;
        by rewrite ?slice_nil, ?sliceFrom_nil.
  - unfold count. by rewrite M_bind_unfold, loadData_snapshot, Hf.
Qed.

End Writes.

(* ===================================================================== *)
(** ** The theorems on examples                                          *)
(* ===================================================================== *)

(** C1.  On three stored documents, [find({}, { skip: 1, limit: 1 })]
    returns no document: the code cuts the results down to the first
    one and then skips it.  The design's order, skip then limit,
    returns the second document. *)
Theorem find_limits_before_it_skips :
  let options := {| Collection.sort := Js.VUndef;
                    Collection.limit := Some 1;
                    Collection.skip := Some 1 |} in
  let st := Sample.storeOf [Sample.john; Sample.jane; Sample.joan] in
  Collection.find Sample.host (Js.VObj []) options st = (Js.Ok [], st)
  ∧ Design.find Sample.host (Js.VObj []) options st = (Js.Ok [Sample.jane], st).
Proof. split; reflexivity. Qed.

(** C3 as stated fails: loading a data file that does not deserialize
    returns the empty array, not a corruption error. *)
Lemma loadData_undecodable_not_surfaced :
  Collection.loadData Sample.damagedStore = (Js.Ok [], Sample.damagedStore)
  ∧ (Collection.loadData Sample.damagedStore).1 ≠ Js.Throw Js.CorruptionError.
Proof. split; [reflexivity|discriminate]. Qed.

Lemma loadData_undecodable_is_empty_witness :
  Collection.loadData Sample.damagedStore = (Js.Ok [], Sample.damagedStore)
  ∧ Collection.find Sample.host (Js.VObj [("name", Js.VStr "John")])
      Collection.noOptions Sample.damagedStore = (Js.Ok [], Sample.damagedStore)
  ∧ Collection.count Sample.host (Js.VObj [("name", Js.VStr "John")])
      Sample.damagedStore = (Js.Ok 0%nat, Sample.damagedStore).
Proof.
  apply (loadData_undecodable_is_empty Sample.host). reflexivity.
Defined.

Lemma updateOne_without_match_witness :
  Collection.updateOne Sample.host (Js.VObj [("name", Js.VStr "Jack")])
    [("$set", Js.VObj [("age", Js.VNum 50)])] false
    (Sample.storeOf [Sample.john; Sample.jane])
  = (Js.Ok None, Sample.storeOf [Sample.john; Sample.jane]).
Proof.
  apply (updateOne_without_match Sample.host).
  repeat constructor.
Defined.



(* ===================================================================== *)
(** ** Theorems about updates and identifiers                            *)
(* ===================================================================== *)

Section Identifiers.
Import Js Collection.
Variable host : Host.

Lemma lookup_set_ne (o : obj) (k field : string) (v : value) :
  field ≠ k → lookup_field (set o field v) k = lookup_field o k.
Proof.
  intros Hne. induction o as [|[k' v'] o IH]; simpl.
  - by apply String.eqb_neq in Hne as ->.
  - destruct (String.eqb k' field) eqn:E; simpl; [|by rewrite IH].
    apply String.eqb_eq in E as ->.
    by apply String.eqb_neq in Hne as ->.
Qed.

Lemma lookup_delete_ne (o : obj) (k field : string) :
  field ≠ k → lookup_field (delete o field) k = lookup_field o k.
Proof.
  intros Hne. induction o as [|[k' v'] o IH]; simpl; [done|].
  destruct (String.eqb k' field) eqn:E; simpl; [|by rewrite IH].
  apply String.eqb_eq in E as ->.
  by apply String.eqb_neq in Hne as ->.
Qed.






End Identifiers.



(* ===================================================================== *)
(** ** Identifier uniqueness across the operations                       *)
(* ===================================================================== *)

Section Uniqueness.
Import Js Collection.
Variable host : Host.

Lemma keepsFile_bind {A B} (m : M A) (k : A → M B) :
  keepsFile m → (∀ a, keepsFile (k a)) → keepsFile (m ≫= k).
Proof.
  intros Hm Hk st. rewrite M_bind_unfold.
  specialize (Hm st). destruct (m st) as [[a|e] st']; simpl in *; [|done].
  by rewrite Hk.
Qed.

Lemma keepsFile_ret {A} (a : A) : keepsFile (mret a : M A).
Proof. done. Qed.

Lemma keepsFile_lift {A} (r : result A) : keepsFile (lift r).
Proof. done. Qed.

Lemma keepsFile_emit (e : event) : keepsFile (emit e).
Proof. done. Qed.






Lemma keepsFile_updateManyLoop (query : value) (update : obj) (documents : list obj) :
  keepsFile (updateManyLoop host query update documents).
Proof.
  induction documents as [|doc rest IH]; simpl; [apply keepsFile_ret|].
  apply keepsFile_bind; [apply keepsFile_lift|]. intros [|].
  - apply keepsFile_bind; [apply keepsFile_lift|]. intros.
    apply keepsFile_bind; [apply keepsFile_emit|]. intros.
    apply keepsFile_bind; [done|]. intros [? ?]. apply keepsFile_ret.
  - apply keepsFile_bind; [done|]. intros [? ?]. apply keepsFile_ret.
Qed.




Ltac destruct_loop :=
  match goal with
  | |- context [updateManyLoop ?h ?q ?u ?l ?s] =>
      let rest' := fresh "rest'" in
      let rs := fresh "rs" in
      let e := fresh "e" in
      let st1 := fresh "st1" in
      let Hloop := fresh "Hloop" in
      destruct (updateManyLoop h q u l s) as [[[rest' rs]|e] st1] eqn:Hloop
  end.















End Uniqueness.



(* ===================================================================== *)
(** ** Theorems about the encryption codec                               *)
(* ===================================================================== *)

Section Codec.
Import Js Encryption.
Variable crypto : Crypto.

Lemma new_ivLength (passphrase : option string) :
  ivLength (new crypto passphrase) = 16%nat.
Proof. unfold new. destruct passphrase as [k|]; [|done]. by destruct (_ && _). Qed.

(** A codec is active exactly for a passphrase that is neither empty
    nor the reserved one. *)
Lemma new_enabled (passphrase : option string) :
  enabled (new crypto passphrase) = true ↔
  ∃ k, passphrase = Some k ∧ k ≠ "" ∧ k ≠ "default-encryption-key".
Proof.
  unfold new. split.
  - destruct passphrase as [k|]; [|done].
    destruct (negb (String.eqb k "")) eqn:E1;
      destruct (negb (String.eqb k "default-encryption-key")) eqn:E2;
      simpl; try done.
    intros _. exists k.
    apply negb_true_iff in E1, E2. by apply String.eqb_neq in E1, E2.
  - intros (k & -> & H1 & H2).
    apply String.eqb_neq in H1, H2. by rewrite H1, H2.
Qed.

(** C4, as the code has it.  In the active mode, [decrypt] returns an
    input shorter than the 16 bytes of an initialization vector as it
    is; it raises nothing and does not call the cipher. *)
Theorem decrypt_short_input_unchanged (passphrase : option string)
    (encryptedData : bytes) :
  enabled (new crypto passphrase) = true →
  (length encryptedData < 16)%nat →
  decrypt crypto (new crypto passphrase) encryptedData = Ok encryptedData.
Proof.
  intros Hen Hlen. unfold decrypt. rewrite Hen, new_ivLength. simpl.
  by apply Nat.ltb_lt in Hlen as ->.
Qed.

End Codec.

(** C4 as stated fails: under the passphrase "secret", three bytes come
    back from [decrypt] unchanged, and no error is raised. *)
Lemma decrypt_short_input_not_rejected :
  let codec := Encryption.new Sample.crypto (Some "secret") in
  let input := [Byte.x01; Byte.x02; Byte.x03] in
  Encryption.enabled codec = true
  ∧ Encryption.decrypt Sample.crypto codec input = Js.Ok input
  ∧ Encryption.decrypt Sample.crypto codec input ≠ Js.Throw Js.CryptoError.
Proof. split; [reflexivity|]. split; [reflexivity|discriminate]. Qed.

Lemma decrypt_short_input_unchanged_witness :
  Encryption.decrypt Sample.crypto (Encryption.new Sample.crypto (Some "secret"))
    [Byte.x01; Byte.x02; Byte.x03]
  = Js.Ok [Byte.x01; Byte.x02; Byte.x03].
Proof.
  apply (decrypt_short_input_unchanged Sample.crypto (Some "secret")).
  - reflexivity.
  - simpl. lia.
Defined.

(* ===================================================================== *)
(** ** Theorems about the file-backed index                              *)
(* ===================================================================== *)

Section FileIndex.
Import Js IndexManager.

Lemma filter_sublist {A} (f : A → bool) (l : list A) :
  List.filter f l `sublist_of` l.
Proof.
  induction l as [|x l IH]; simpl; [constructor|].
  destruct (f x); by constructor.
Qed.

Lemma existsb_eqb_false (x : string) (l : list string) :
  existsb (String.eqb x) l = false → x ∉ l.
Proof.
  induction l as [|y l IH]; simpl; intros H Hin.
  - by apply elem_of_nil in Hin.
  - apply orb_false_elim in H as [Hxy H].
    apply elem_of_cons in Hin as [->|Hin]; [|by apply IH].
    by rewrite String.eqb_refl in Hxy.
Qed.

(** When the look-up of a key raises nothing it has found what the
    object has of its own. *)
Lemma member_Ok (data : gmap string (list string)) (key : string)
    (found : option (list string)) :
  member data key = Ok found → found = data !! key.
Proof.
  unfold member. destruct (data !! key); [by intros [= <-]|].
  destruct (inherited key); [done|by intros [= <-]].
Qed.

Lemma member_own (data : gmap string (list string)) (key : string)
    (ids : list string) :
  data !! key = Some ids → member data key = Ok (Some ids).
Proof. unfold member. by intros ->. Qed.

Lemma member_plain (data : gmap string (list string)) (key : string) :
  inherited key = false → member data key = Ok (data !! key).
Proof. unfold member. intros ->. by destruct (data !! key). Qed.

Lemma data_unique_insert (data : gmap string (list string)) (key : string)
    (ids : list string) :
  data_unique data → NoDup ids → data_unique (<[key := ids]> data).
Proof.
  intros Hd Hids key' ids'. rewrite lookup_insert.
  case_decide; [by intros [= <-]|]. apply Hd.
Qed.

Lemma data_unique_delete (data : gmap string (list string)) (key : string) :
  data_unique data → data_unique (base.delete key data).
Proof.
  intros Hd key' ids'. rewrite lookup_delete.
  case_decide; [done|]. apply Hd.
Qed.

(** Taking a document out of its old key and putting it under its new
    key keeps every list duplicate-free: the old list is filtered, and
    the identifier is appended to the new list only when the list does
    not include it. *)
Lemma updateIndexData_unique (fields : list string)
    (data data' : gmap string (list string)) (newDoc : obj) (oldDoc : option obj) :
  data_unique data →
  updateIndexData fields data newDoc oldDoc = Ok data' →
  data_unique data'.
Proof.
  intros Hd. unfold updateIndexData.
  set (removed := match oldDoc with Some _ => _ | None => _ end).
  assert (Hremoved : ∀ d, removed = Ok d → data_unique d).
  { subst removed. destruct oldDoc as [old|]; [|by intros d [= <-]].
    destruct (member data (getDocumentIndexKey old fields)) as [found|e] eqn:Hfound;
      simpl; [|done].
    apply member_Ok in Hfound as ->.
    destruct (data !! getDocumentIndexKey old fields) as [ids|] eqn:Hids;
      [|by intros d [= <-]].
    destruct ids as [|id ids]; [intros d [= <-]; by apply data_unique_delete|].
    destruct (toString_method (get old "_id")) as [oldId|e]; simpl; [|done].
    intros d [= <-]. case_match.
    - by apply data_unique_delete.
    - apply data_unique_insert; [done|].
      eapply sublist_NoDup; [exact (Hd _ _ Hids)|].
      exact (filter_sublist (fun x => negb (String.eqb x oldId)) (id :: ids)). }
  destruct removed as [d|e]; simpl; [|done].
  specialize (Hremoved d eq_refl).
  destruct (member d (getDocumentIndexKey newDoc fields)) as [found|e] eqn:Hfound;
    simpl; [|done].
  apply member_Ok in Hfound as ->.
  destruct (toString_method (get newDoc "_id")) as [newId|e]; simpl; [|done].
  intros [= <-].
  assert (Hids : NoDup (default [] (d !! getDocumentIndexKey newDoc fields))).
  { destruct (d !! _) as [ids|] eqn:E; simpl; [by eapply Hremoved|constructor]. }
  destruct (existsb _ _) eqn:Hin.
  - by apply data_unique_insert.
  - apply data_unique_insert; [done|].
    apply NoDup_app. split; [done|]. split; [|apply NoDup_singleton].
    intros id Hid ->%list_elem_of_singleton.
    by apply (existsb_eqb_false _ _ Hin).
Qed.

Lemma readFile_unique (dir : directory) (indexName : string) (f : index_file) :
  directory_ids_unique dir → readFile dir indexName = Some f → ids_unique f.
Proof.
  induction 1 as [|[n f'] dir Hf _ IH]; simpl; [done|].
  destruct (String.eqb n indexName); [by intros [= <-]|done].
Qed.

Lemma writeFile_unique (dir : directory) (indexName : string) (f : index_file) :
  directory_ids_unique dir → ids_unique f →
  directory_ids_unique (writeFile dir indexName f).
Proof.
  intros Hdir Hf. induction Hdir as [|[n f'] dir Hf' Hdir IH]; simpl.
  - constructor; [exact Hf|constructor].
  - destruct (String.eqb n indexName); constructor; done.
Qed.

Lemma unlink_unique (dir : directory) (indexName : string) :
  directory_ids_unique dir → directory_ids_unique (unlink dir indexName).
Proof.
  induction 1 as [|[n f'] dir Hf' _ IH]; simpl; [constructor|].
  destruct (String.eqb n indexName); [done|by constructor].
Qed.

Lemma readFile_writeFile_eq (dir : directory) (n : string) (f : index_file) :
  readFile (writeFile dir n f) n = Some f.
Proof.
  induction dir as [|[n' f'] dir IH]; simpl.
  - by rewrite String.eqb_refl.
  - destruct (String.eqb n' n) eqn:E; simpl; by rewrite E.
Qed.

Lemma readFile_writeFile_ne (dir : directory) (n n' : string) (f : index_file) :
  n ≠ n' → readFile (writeFile dir n f) n' = readFile dir n'.
Proof.
  intros Hne. induction dir as [|[n0 f0] dir IH]; simpl.
  - by apply String.eqb_neq in Hne as ->.
  - destruct (String.eqb n0 n) eqn:E; simpl; [|by rewrite IH].
    apply String.eqb_eq in E as ->. by apply String.eqb_neq in Hne as ->.
Qed.

Lemma readFile_unlink_ne (dir : directory) (n n' : string) :
  n ≠ n' → readFile (unlink dir n) n' = readFile dir n'.
Proof.
  intros Hne. induction dir as [|[n0 f0] dir IH]; simpl; [done|].
  destruct (String.eqb n0 n) eqn:E; simpl; [|by rewrite IH].
  apply String.eqb_eq in E as ->. by apply String.eqb_neq in Hne as ->.
Qed.

Lemma readFile_unlink_eq (dir : directory) (n : string) :
  readFile (unlink dir n) n = None.
Proof.
  induction dir as [|[n0 f0] dir IH]; simpl; [done|].
  destruct (String.eqb n0 n) eqn:E; simpl; [done|]. by rewrite E.
Qed.

Lemma writeFile_writeFile (dir : directory) (n : string) (f f' : index_file) :
  writeFile (writeFile dir n f) n f' = writeFile dir n f'.
Proof.
  induction dir as [|[n0 f0] dir IH]; simpl.
  - by rewrite String.eqb_refl.
  - destruct (String.eqb n0 n) eqn:E; simpl; rewrite E; [done|]. by rewrite IH.
Qed.

Lemma writeFile_same (dir : directory) (n : string) (f : index_file) :
  readFile dir n = Some f → writeFile dir n f = dir.
Proof.
  induction dir as [|[n0 f0] dir IH]; simpl; [done|].
  destruct (String.eqb n0 n) eqn:E; [by intros [= ->]|].
  intros H. by rewrite IH.
Qed.

Lemma readFile_unlink_None (dir : directory) (n n' : string) :
  readFile dir n' = None → readFile (unlink dir n) n' = None.
Proof.
  induction dir as [|[n0 f0] dir IH]; simpl; [done|].
  destruct (String.eqb n0 n') eqn:E'; [done|]. intros H.
  destruct (String.eqb n0 n); simpl; [by apply IH|]. rewrite E'. by apply IH.
Qed.

Lemma split_nonempty (c : ascii) (s : string) : split c s ≠ [].
Proof.
  destruct s as [|x s]; simpl; [done|].
  destruct (Ascii.eqb x c); [done|]. by destruct (split c s).
Qed.

(** Joining the parts of a split with the separator gives the string back. *)
Lemma concat_split (c : ascii) (s : string) :
  String.concat (String c EmptyString) (split c s) = s.
Proof.
  induction s as [|x s IH]; simpl; [done|].
  destruct (Ascii.eqb_spec x c) as [->|Hne].
  - pose proof (split_nonempty c s) as Hparts.
    destruct (split c s) as [|part parts]; [done|]. simpl in *. by rewrite IH.
  - pose proof (split_nonempty c s) as Hparts.
    destruct (split c s) as [|part parts]; [done|].
    simpl in *. destruct parts as [|part' parts]; simpl in *; by rewrite <- IH.
Qed.

Lemma forEach_preserves_in {A} (P : directory → Prop)
    (body : A → directory → option directory) (l : list A) (dir dir' : directory) :
  (∀ x d d', x ∈ l → P d → body x d = Some d' → P d') →
  P dir → forEach body l dir = Some dir' → P dir'.
Proof.
  revert dir. induction l as [|x l IH]; intros dir Hbody HP; simpl.
  - by intros [= <-].
  - destruct (body x dir) as [d|] eqn:E; simpl; [|done].
    apply IH; [|eapply Hbody; [by left|done|done]].
    intros y d1 d2 Hy. apply Hbody. by right.
Qed.

Lemma forEach_preserves {A} (P : directory → Prop)
    (body : A → directory → option directory) (l : list A) (dir dir' : directory) :
  (∀ x d d', P d → body x d = Some d' → P d') →
  P dir → forEach body l dir = Some dir' → P dir'.
Proof.
  intros Hbody. revert dir. induction l as [|x l IH]; intros dir HP; simpl.
  - by intros [= <-].
  - destruct (body x dir) as [d|] eqn:E; simpl; [|done].
    apply IH. by eapply Hbody.
Qed.

Lemma collectIndexes_preserves (P : directory → Prop) (collectionName : string)
    (repair : string → directory → option directory) (files : list string)
    (indexes indexes' : list index_meta) (dir dir' : directory) :
  (∀ file d d', P d → repair file d = Some d' → P d') →
  P dir →
  collectIndexes collectionName repair files indexes dir = Some (indexes', dir') →
  P dir'.
Proof.
  intros Hrepair. revert indexes dir.
  induction files as [|file files IH]; intros indexes dir HP; simpl.
  - by intros [= <- <-].
  - destruct (readFile dir file) as [[|metadata data]|]; [| |by apply IH].
    + destruct (repair file dir) as [d|] eqn:E; simpl; [|done].
      apply IH. by eapply Hrepair.
    + destruct (String.eqb _ _); by apply IH.
Qed.

Variable collectionName : string.

(** Each of the five methods keeps the lists of every index file
    duplicate-free, whatever the documents of the collection. *)
Lemma index_methods_unique (fuel : nat) :
  ∀ documents,
  (∀ dir indexes dir',
     directory_ids_unique dir →
     getCollectionIndexes collectionName documents fuel dir = Some (indexes, dir') →
     directory_ids_unique dir')
  ∧ (∀ indexName dir dir',
       directory_ids_unique dir →
       repairIndexFile collectionName documents fuel indexName dir = Some dir' →
       directory_ids_unique dir')
  ∧ (∀ fieldArray dir meta dir',
       directory_ids_unique dir →
       createIndex collectionName documents fuel fieldArray dir = Some (meta, dir') →
       directory_ids_unique dir')
  ∧ (∀ newDoc oldDoc dir dir',
       directory_ids_unique dir →
       updateIndex collectionName documents fuel newDoc oldDoc dir = Some dir' →
       directory_ids_unique dir')
  ∧ (∀ indexName newDoc oldDoc dir dir',
       directory_ids_unique dir →
       updateFileIndex collectionName documents fuel indexName newDoc oldDoc dir
         = Some dir' →
       directory_ids_unique dir').
Proof.
  induction fuel as [|fuel IH]; intros documents; [by repeat split|].
  destruct (IH documents) as (IHget & IHrepair & IHcreate & IHupdate & IHfile).
  repeat split.
  - intros dir indexes dir' Hdir. simpl.
    apply collectIndexes_preserves; [|done]. intros. by eapply IHrepair.
  - intros indexName dir dir' Hdir. simpl.
    destruct (readFile dir indexName); [|by intros [= <-]].
    destruct (createIndex _ _ _ _ _) as [[meta d]|] eqn:E; simpl; [|done].
    intros [= <-]. eapply IHcreate; [|exact E]. by apply unlink_unique.
  - intros fieldArray dir meta dir' Hdir. simpl.
    assert (directory_ids_unique
              (writeFile dir (String.concat "_" fieldArray)
                 (Good {| name := String.concat "_" fieldArray;
                          collection := collectionName;
                          fields := fieldArray |} ∅))) as Hnew.
    { apply writeFile_unique; [done|]. intros key ids. by rewrite lookup_empty. }
    destruct documents as [docs|]; [|by intros [= <- <-]].
    destruct (forEach _ _ _) as [d|] eqn:E; simpl; [|done].
    intros [= <- <-].
    eapply (forEach_preserves directory_ids_unique); [|exact Hnew|exact E].
    intros doc d1 d2 Hd1 Hbody. exact (IHupdate _ _ _ _ Hd1 Hbody).
  - intros newDoc oldDoc dir dir' Hdir. simpl.
    destruct (getCollectionIndexes _ _ _ _) as [[indexes d]|] eqn:E; simpl; [|done].
    apply forEach_preserves; [|by eapply IHget].
    intros index d1 d2 Hd1 Hbody. exact (IHfile _ _ _ _ _ Hd1 Hbody).
  - intros indexName newDoc oldDoc dir dir' Hdir. simpl.
    destruct (readFile dir indexName) as [[|metadata data]|] eqn:Hread;
      [by apply IHrepair| |by intros [= <-]].
    destruct (updateIndexData _ _ _ _) as [data'|e] eqn:Hstep;
      [|by apply IHrepair].
    intros [= <-]. apply writeFile_unique; [done|].
    eapply updateIndexData_unique; [|exact Hstep].
    exact (readFile_unique _ _ _ Hdir Hread).
Qed.

End FileIndex.

(** *** The calls return *)

Section FileIndexReturns.
Import Js IndexManager.
Local Open Scope nat_scope.

Lemma corruptFiles_writeFile (dir : directory) (indexName : string)
    (metadata : index_meta) (data : gmap string (list string)) :
  corruptFiles (writeFile dir indexName (Good metadata data)) ≤ corruptFiles dir.
Proof.
  unfold corruptFiles. induction dir as [|[n f] dir IH]; simpl; [lia|].
  destruct (String.eqb n indexName); simpl; destruct (isCorrupt f); simpl; lia.
Qed.

Lemma corruptFiles_unlink (dir : directory) (indexName : string) :
  corruptFiles (unlink dir indexName) ≤ corruptFiles dir.
Proof.
  unfold corruptFiles. induction dir as [|[n f] dir IH]; simpl; [lia|].
  destruct (String.eqb n indexName); simpl; destruct (isCorrupt f); simpl; lia.
Qed.

Lemma corruptFiles_unlink_corrupt (dir : directory) (indexName : string) :
  readFile dir indexName = Some Corrupt →
  corruptFiles (unlink dir indexName) < corruptFiles dir.
Proof.
  unfold corruptFiles. induction dir as [|[n f] dir IH]; simpl; [done|].
  destruct (String.eqb n indexName).
  - intros [= ->]. simpl.
    pose proof (corruptFiles_unlink dir indexName) as H.
    unfold corruptFiles in H. lia.
  - intros H. specialize (IH H). simpl. destruct (isCorrupt f); simpl; lia.
Qed.

Lemma scalar_toString (v : value) :
  scalar v = true → toString_method v = Ok (to_string v).
Proof. by destruct v. Qed.

Lemma indexable_identifier (fields : list string) (doc : obj) :
  indexable fields doc = true →
  toString_method (get doc "_id") = Ok (to_string (get doc "_id")).
Proof.
  unfold indexable. intros [[[Hid _]%andb_prop _]%andb_prop _]%andb_prop.
  by apply scalar_toString.
Qed.

Lemma indexable_key (fields : list string) (doc : obj) :
  indexable fields doc = true →
  inherited (getDocumentIndexKey doc fields) = false.
Proof.
  unfold indexable. intros [[_ Hkey]%andb_prop _]%andb_prop.
  by apply negb_true_iff in Hkey.
Qed.

(** On documents the index can take, the inner [try] of
    [updateFileIndex] raises nothing. *)
Lemma updateIndexData_returns (fields : list string)
    (data : gmap string (list string)) (newDoc : obj) (oldDoc : option obj) :
  indexable fields newDoc = true →
  (∀ old, oldDoc = Some old → indexable fields old = true) →
  ∃ data', updateIndexData fields data newDoc oldDoc = Ok data'.
Proof.
  intros Hnew Hold. unfold updateIndexData.
  assert (∃ data1,
            match oldDoc with
            | Some oldDoc =>
                found ← member data (getDocumentIndexKey oldDoc fields);
                match found with
                | Some [] => Ok (base.delete (getDocumentIndexKey oldDoc fields) data)
                | Some ids =>
                    oldId ← toString_method (get oldDoc "_id");
                    Ok (if (length (List.filter
                                      (fun id => negb (String.eqb id oldId)) ids) =? 0)
                        then base.delete (getDocumentIndexKey oldDoc fields) data
                        else <[getDocumentIndexKey oldDoc fields :=
                                 List.filter (fun id => negb (String.eqb id oldId)) ids]>
                               data)
                | None => Ok data
                end
            | None => Ok data
            end = Ok data1) as [data1 ->].
  { destruct oldDoc as [old|]; [|by eauto].
    rewrite (member_plain _ _ (indexable_key _ _ (Hold _ eq_refl))). simpl.
    rewrite (indexable_identifier _ _ (Hold _ eq_refl)).
    destruct (data !! _) as [[|id ids]|]; simpl; by eauto. }
  simpl. rewrite (member_plain _ _ (indexable_key _ _ Hnew)). simpl.
  rewrite (indexable_identifier _ _ Hnew). simpl. by eauto.
Qed.

Lemma regular_ready (docs : list obj) (dir : directory) :
  regular docs dir = true → ready docs dir.
Proof.
  unfold regular, ready. intros Hdir n f.
  induction dir as [|[n0 f0] dir IH]; simpl in *; [done|].
  apply andb_prop in Hdir as [[_ Hf0]%andb_prop Hdir].
  destruct (String.eqb_spec n0 n) as [->|_]; [|by apply IH].
  intros [= <-]. apply Forall_forall. intros doc Hdoc.
  rewrite forallb_forall in Hf0. apply Hf0. by apply list_elem_of_In.
Qed.

Lemma readFile_unlink_Some (dir : directory) (n n' : string) (f : index_file) :
  readFile (unlink dir n) n' = Some f → readFile dir n' = Some f.
Proof.
  destruct (decide (n = n')) as [->|Hne].
  - by rewrite readFile_unlink_eq.
  - by rewrite readFile_unlink_ne.
Qed.

Lemma ready_unlink (docs : list obj) (dir : directory) (n : string) :
  ready docs dir → ready docs (unlink dir n).
Proof. intros Hdir n' f Hread. apply Hdir. by eapply readFile_unlink_Some. Qed.

Lemma ready_writeFile (docs : list obj) (dir : directory) (n : string)
    (f : index_file) :
  ready docs dir →
  Forall (fun doc => indexable (fileFields n f) doc = true) docs →
  ready docs (writeFile dir n f).
Proof.
  intros Hdir Hf n' f'. destruct (decide (n = n')) as [->|Hne].
  - rewrite readFile_writeFile_eq. by intros [= <-].
  - rewrite readFile_writeFile_ne by done. apply Hdir.
Qed.

Lemma forEach_returns {A} (Q : directory → Prop)
    (body : A → directory → option directory) (l : list A) (dir : directory) :
  (∀ x d, x ∈ l → Q d → ∃ d', body x d = Some d' ∧ Q d') →
  Q dir → ∃ dir', forEach body l dir = Some dir' ∧ Q dir'.
Proof.
  revert dir. induction l as [|x l IH]; intros dir Hbody HQ; simpl; [by eauto|].
  destruct (Hbody x dir) as (d & -> & Hd); [by left|done|]. simpl.
  apply IH; [|done]. intros y d' Hy. apply Hbody. by right.
Qed.

Lemma collectIndexes_returns (Q : directory → Prop) (collectionName : string)
    (repair : string → directory → option directory) (files : list string)
    (indexes : list index_meta) (dir : directory) :
  (∀ file d, readFile d file = Some Corrupt → Q d →
             ∃ d', repair file d = Some d' ∧ Q d') →
  Q dir →
  ∃ indexes' dir',
    collectIndexes collectionName repair files indexes dir = Some (indexes', dir')
    ∧ Q dir'.
Proof.
  intros Hrepair. revert indexes dir.
  induction files as [|file files IH]; intros indexes dir HQ; simpl; [by eauto|].
  destruct (readFile dir file) as [[|metadata data]|] eqn:Hread; [| |by apply IH].
  - destruct (Hrepair file dir Hread HQ) as (d & -> & Hd). simpl. by apply IH.
  - destruct (String.eqb _ _); by apply IH.
Qed.

(** The loop of [getCollectionIndexes] repairs only files that do not
    parse. *)
Lemma collectIndexes_keeps (P : directory → Prop) (collectionName : string)
    (repair : string → directory → option directory) (files : list string)
    (indexes indexes' : list index_meta) (dir dir' : directory) :
  (∀ file d d', P d → readFile d file = Some Corrupt → repair file d = Some d' → P d') →
  P dir →
  collectIndexes collectionName repair files indexes dir = Some (indexes', dir') →
  P dir'.
Proof.
  intros Hrepair. revert indexes dir.
  induction files as [|file files IH]; intros indexes dir HP; simpl.
  - by intros [= <- <-].
  - destruct (readFile dir file) as [[|metadata data]|] eqn:Hread; [| |by apply IH].
    + destruct (repair file dir) as [d|] eqn:E; simpl; [|done].
      apply IH. by eapply Hrepair.
    + destruct (String.eqb _ _); by apply IH.
Qed.

Variable collectionName : string.
Variable documents : option (list obj).
Variable docs : list obj.
Hypothesis documents_in : ∀ stored, documents = Some stored → stored ⊆ docs.

(** Each of the five methods leaves the directory ready for the
    documents in play: a file keeps its fields, and a repair gives a
    file the fields its name was ready for. *)
Lemma index_methods_keep_ready (fuel : nat) :
  (∀ dir indexes dir',
     ready docs dir →
     getCollectionIndexes collectionName documents fuel dir = Some (indexes, dir') →
     ready docs dir')
  ∧ (∀ indexName dir dir',
       ready docs dir →
       readFile dir indexName = Some Corrupt →
       repairIndexFile collectionName documents fuel indexName dir = Some dir' →
       ready docs dir')
  ∧ (∀ fieldArray dir meta dir',
       ready docs dir →
       Forall (fun doc => indexable fieldArray doc = true) docs →
       createIndex collectionName documents fuel fieldArray dir = Some (meta, dir') →
       ready docs dir')
  ∧ (∀ newDoc oldDoc dir dir',
       newDoc ∈ docs → (∀ old, oldDoc = Some old → old ∈ docs) →
       ready docs dir →
       updateIndex collectionName documents fuel newDoc oldDoc dir = Some dir' →
       ready docs dir')
  ∧ (∀ indexName newDoc oldDoc dir dir',
       newDoc ∈ docs → (∀ old, oldDoc = Some old → old ∈ docs) →
       ready docs dir →
       updateFileIndex collectionName documents fuel indexName newDoc oldDoc dir
         = Some dir' →
       ready docs dir').
Proof.
  induction fuel as [|fuel (IHget & IHrepair & IHcreate & IHupdate & IHfile)];
    [by repeat split|].
  split; [|split; [|split; [|split]]].
  - intros dir indexes dir' Hdir. simpl.
    apply collectIndexes_keeps; [|done]. intros file d d'. apply IHrepair.
  - intros indexName dir dir' Hdir Hread. simpl. rewrite Hread.
    destruct (createIndex _ _ _ _ _) as [[meta d]|] eqn:E; simpl; [|done].
    intros [= <-]. eapply IHcreate; [by apply ready_unlink| |exact E].
    exact (Hdir _ _ Hread).
  - intros fieldArray dir meta dir' Hdir Hfields. simpl.
    match goal with
    | |- context [writeFile dir ?n ?f] =>
        assert (ready docs (writeFile dir n f)) as Hnew
          by (by apply ready_writeFile)
    end.
    destruct documents as [stored|] eqn:Hstored; [|by intros [= <- <-]].
    destruct (forEach _ _ _) as [d|] eqn:E; simpl; [|done].
    intros [= <- <-].
    eapply (forEach_preserves_in (ready docs)); [|exact Hnew|exact E].
    intros doc d1 d2 Hdoc Hd1 Hbody. simpl in Hbody.
    eapply IHupdate; [| |exact Hd1|exact Hbody]; [|done].
    by apply (documents_in stored).
  - intros newDoc oldDoc dir dir' Hnew Hold Hdir. simpl.
    destruct (getCollectionIndexes _ _ _ _) as [[indexes d]|] eqn:E; simpl; [|done].
    apply forEach_preserves; [|by eapply IHget].
    intros index d1 d2 Hd1 Hbody. exact (IHfile _ _ _ _ _ Hnew Hold Hd1 Hbody).
  - intros indexName newDoc oldDoc dir dir' Hnew Hold Hdir. simpl.
    destruct (readFile dir indexName) as [[|metadata data]|] eqn:Hread;
      [by apply IHrepair| |by intros [= <-]].
    pose proof (Hdir _ _ Hread) as Hfields. simpl in Hfields.
    rewrite Forall_forall in Hfields.
    destruct (updateIndexData_returns (fields metadata) data newDoc oldDoc)
      as [data' ->]; [by apply Hfields|intros old Hsome; by apply Hfields, Hold|].
    intros [= <-]. apply ready_writeFile; [done|]. by apply Forall_forall.
Qed.

(** On a ready directory each method returns once the fuel covers four
    nested calls for every index file that does not parse, and it
    leaves no more such files than it found. *)
Lemma index_methods_return (fuel : nat) :
  (∀ dir, ready docs dir → 4 * corruptFiles dir + 1 ≤ fuel →
     ∃ indexes dir',
       getCollectionIndexes collectionName documents fuel dir = Some (indexes, dir')
       ∧ corruptFiles dir' ≤ corruptFiles dir)
  ∧ (∀ indexName dir,
       ready docs dir →
       readFile dir indexName = Some Corrupt → 4 * corruptFiles dir ≤ fuel →
       ∃ dir',
         repairIndexFile collectionName documents fuel indexName dir = Some dir'
         ∧ corruptFiles dir' < corruptFiles dir)
  ∧ (∀ fieldArray dir,
       ready docs dir →
       Forall (fun doc => indexable fieldArray doc = true) docs →
       4 * corruptFiles dir + 3 ≤ fuel →
       ∃ meta dir',
         createIndex collectionName documents fuel fieldArray dir = Some (meta, dir')
         ∧ corruptFiles dir' ≤ corruptFiles dir)
  ∧ (∀ newDoc oldDoc dir,
       newDoc ∈ docs → (∀ old, oldDoc = Some old → old ∈ docs) →
       ready docs dir →
       4 * corruptFiles dir + 2 ≤ fuel →
       ∃ dir',
         updateIndex collectionName documents fuel newDoc oldDoc dir = Some dir'
         ∧ corruptFiles dir' ≤ corruptFiles dir)
  ∧ (∀ indexName newDoc oldDoc dir,
       newDoc ∈ docs → (∀ old, oldDoc = Some old → old ∈ docs) →
       ready docs dir →
       4 * corruptFiles dir + 1 ≤ fuel →
       ∃ dir',
         updateFileIndex collectionName documents fuel indexName newDoc oldDoc dir
           = Some dir'
         ∧ corruptFiles dir' ≤ corruptFiles dir).
Proof.
  induction fuel as [|fuel (IHget & IHrepair & IHcreate & IHupdate & IHfile)].
  { repeat split; intros; try lia.
    match goal with
    | H : readFile _ _ = Some Corrupt |- _ =>
        pose proof (corruptFiles_unlink_corrupt _ _ H)
    end. lia. }
  destruct (index_methods_keep_ready fuel)
    as (Kget & Krepair & Kcreate & Kupdate & Kfile).
  split; [|split; [|split; [|split]]].
  - intros dir Hdir Hfuel. simpl.
    destruct (collectIndexes_returns
                (fun d => ready docs d ∧ corruptFiles d ≤ corruptFiles dir)
                collectionName (repairIndexFile collectionName documents fuel)
                (List.map fst dir) [] dir) as (indexes & d & Hrun & _ & Hd);
      [|by split|by eauto].
    intros file d Hread [Hd Hless].
    destruct (IHrepair file d Hd Hread) as (d' & Hrun & Hd'); [lia|].
    exists d'. split; [done|]. split; [by eapply Krepair|lia].
  - intros indexName dir Hdir Hread Hfuel. simpl. rewrite Hread.
    pose proof (corruptFiles_unlink_corrupt _ _ Hread) as Hless.
    destruct (IHcreate (split "_" indexName) (unlink dir indexName))
      as (meta & d & -> & Hd); [by apply ready_unlink|exact (Hdir _ _ Hread)|lia|].
    simpl. exists d. split; [done|lia].
  - intros fieldArray dir Hdir Hfields Hfuel. simpl.
    match goal with
    | |- context [writeFile dir ?n (Good ?m ∅)] =>
        pose proof (corruptFiles_writeFile dir n m ∅) as Hwrite;
        assert (ready docs (writeFile dir n (Good m ∅))) as Hnew
          by (by apply ready_writeFile);
        set (written := writeFile dir n (Good m ∅)) in *
    end.
    destruct documents as [stored|] eqn:Hstored; [|by eauto].
    destruct (forEach_returns
                (fun d => ready docs d ∧ corruptFiles d ≤ corruptFiles dir)
                (fun doc => updateIndex collectionName (Some stored) fuel doc None)
                stored written) as (d & -> & _ & Hd); [|done|by simpl; eauto].
    intros doc d0 Hdoc [Hd0 Hless].
    assert (doc ∈ docs) as Hin by (by apply (documents_in stored)).
    destruct (IHupdate doc None d0) as (d' & Hrun & Hd'); [done|done|done|lia|].
    exists d'. split; [done|]. split; [|lia].
    eapply Kupdate; [exact Hin| |exact Hd0|exact Hrun]. done.
  - intros newDoc oldDoc dir Hnew Hold Hdir Hfuel. simpl.
    destruct (IHget dir) as (indexes & d & Hrun & Hd); [done|lia|].
    rewrite Hrun. simpl.
    destruct (forEach_returns
                (fun d => ready docs d ∧ corruptFiles d ≤ corruptFiles dir)
                (fun index => updateFileIndex collectionName documents fuel
                                (name index) newDoc oldDoc)
                indexes d) as (d' & -> & _ & Hd');
      [|split; [by eapply Kget|done]|by eauto].
    intros index d0 _ [Hd0 Hless].
    destruct (IHfile (name index) newDoc oldDoc d0) as (d' & Hcall & Hd');
      [done|done|done|lia|].
    exists d'. split; [done|]. split; [|lia].
    eapply Kfile; [exact Hnew|exact Hold|exact Hd0|exact Hcall].
  - intros indexName newDoc oldDoc dir Hnew Hold Hdir Hfuel. simpl.
    destruct (readFile dir indexName) as [[|metadata data]|] eqn:Hread;
      [|  |by eauto].
    + destruct (IHrepair indexName dir Hdir Hread) as (d & -> & Hd); [lia|].
      exists d. split; [done|lia].
    + pose proof (Hdir _ _ Hread) as Hfields. simpl in Hfields.
      rewrite Forall_forall in Hfields.
      destruct (updateIndexData_returns (fields metadata) data newDoc oldDoc)
        as [data' ->]; [by apply Hfields|intros old Hsome; by apply Hfields, Hold|].
      eexists. split; [done|]. apply corruptFiles_writeFile.
Qed.

End FileIndexReturns.

Section FileIndexCalls.
Import Js IndexManager.
Local Open Scope nat_scope.
Variable collectionName : string.

(** An identifier that its key already lists is not appended again:
    the [data] object is written back as it was read. *)
Lemma updateIndexData_present (fields : list string)
    (data : gmap string (list string)) (newDoc : obj) (ids : list string)
    (newId : string) :
  toString_method (get newDoc "_id") = Ok newId →
  data !! getDocumentIndexKey newDoc fields = Some ids →
  newId ∈ ids →
  updateIndexData fields data newDoc None = Ok data.
Proof.
  intros Hid Hids Hin. unfold updateIndexData. simpl.
  rewrite (member_own _ _ _ Hids). simpl. rewrite Hid. simpl.
  destruct (existsb _ _) eqn:E.
  - by rewrite insert_id.
  - by apply existsb_eqb_false in E.
Qed.

Lemma calls_unique (fuel : nat) (calls : list call) (dir : directory)
    (states : list directory) :
  directory_ids_unique dir →
  updateFileIndex_calls collectionName fuel calls dir = Some states →
  Forall directory_ids_unique states.
Proof.
  revert dir states. induction calls as [|c calls IH]; intros dir states Hdir; simpl.
  - intros [= <-]. constructor.
  - destruct (updateFileIndex _ _ _ _ _ _ _) as [dir'|] eqn:Hcall; simpl; [|done].
    destruct (updateFileIndex_calls _ _ _ _) as [rest|] eqn:Hrest; simpl; [|done].
    intros [= <-].
    assert (directory_ids_unique dir') as Hdir'.
    { destruct (index_methods_unique collectionName fuel (documents_then c))
        as (_ & _ & _ & _ & Hfile).
      by eapply Hfile. }
    constructor; [done|]. by eapply IH.
Qed.

Lemma calls_return (docs : list obj) (fuel : nat) (calls : list call)
    (dir : directory) :
  Forall (fun c => callDocuments c ⊆ docs) calls →
  ready docs dir →
  4 * corruptFiles dir + 1 ≤ fuel →
  ∃ states,
    updateFileIndex_calls collectionName fuel calls dir = Some states
    ∧ length states = length calls.
Proof.
  intros Hcalls. revert dir.
  induction Hcalls as [|c calls Hc _ IH]; intros dir Hdir Hfuel; simpl.
  - by exists [].
  - assert (∀ stored, documents_then c = Some stored → stored ⊆ docs) as Hstored.
    { intros stored Hsome doc Hdoc. apply Hc. unfold callDocuments.
      rewrite Hsome. simpl. right. apply elem_of_app. by right. }
    assert (newDoc c ∈ docs) as Hnew by (apply Hc; by left).
    assert (∀ old, oldDoc c = Some old → old ∈ docs) as Hold.
    { intros old Hsome. apply Hc. unfold callDocuments. rewrite Hsome.
      right. apply elem_of_app. left. by left. }
    destruct (index_methods_return collectionName (documents_then c) docs
                Hstored fuel) as (_ & _ & _ & _ & Hfile).
    destruct (Hfile (indexName c) (newDoc c) (oldDoc c) dir Hnew Hold Hdir Hfuel)
      as (dir' & Hcall & Hless).
    destruct (index_methods_keep_ready collectionName (documents_then c) docs
                Hstored fuel) as (_ & _ & _ & _ & Kfile).
    pose proof (Kfile _ _ _ _ _ Hnew Hold Hdir Hcall) as Hdir'.
    rewrite Hcall. simpl.
    destruct (IH dir') as (rest & -> & Hlen); [done|lia|].
    simpl. exists (dir' :: rest). split; [done|]. simpl. by rewrite Hlen.
Qed.

Lemma concat_subseteq {A} (l : list A) (ls : list (list A)) :
  l ∈ ls → l ⊆ List.concat ls.
Proof.
  intros Hl x Hx. apply list_elem_of_In, in_concat.
  exists l. split; by apply list_elem_of_In.
Qed.

(** C10.  From a directory whose index files list no identifier twice
    under a composite key (such as the files [createIndex] writes,
    whose [data] is empty), the same holds of the directory after each
    call of every sequence of [updateFileIndex] calls.  The calls
    return when the directory is regular for the documents they bring
    (every index on file can take every document: scalar identifiers,
    fields reached through own properties, composite keys that name no
    member of [Object.prototype]): four nested calls for each index
    file that does not parse are then enough.  And an identifier that
    the new key already lists is not appended again. *)
Theorem updateFileIndex_keeps_ids_unique (calls : list call) (dir : directory) :
  directory_ids_unique dir →
  (∀ fuel states,
     updateFileIndex_calls collectionName fuel calls dir = Some states →
     Forall directory_ids_unique states)
  ∧ (regular (List.concat (List.map callDocuments calls)) dir = true →
     ∀ fuel, 4 * corruptFiles dir + 1 ≤ fuel →
       ∃ states,
         updateFileIndex_calls collectionName fuel calls dir = Some states
         ∧ length states = length calls
         ∧ Forall directory_ids_unique states)
  ∧ (∀ fields data newDoc ids newId,
       toString_method (get newDoc "_id") = Ok newId →
       data !! getDocumentIndexKey newDoc fields = Some ids →
       newId ∈ ids →
       updateIndexData fields data newDoc None = Ok data).
Proof.
  intros Hdir. split; [|split].
  - intros fuel states. by apply calls_unique.
  - intros Hregular fuel Hfuel.
    destruct (calls_return (List.concat (List.map callDocuments calls))
                fuel calls dir) as (states & Hrun & Hlen);
      [|by apply regular_ready|done|].
    { apply Forall_forall. intros c Hc. apply concat_subseteq.
      apply list_elem_of_In, in_map. by apply list_elem_of_In. }
    exists states. split; [done|]. split; [done|]. by eapply calls_unique.
  - apply updateIndexData_present.
Qed.

End FileIndexCalls.

Lemma updateFileIndex_keeps_ids_unique_witness :
  ∃ states,
    IndexManager.updateFileIndex_calls "users" 5 Sample.usersCalls Sample.usersIndexes
      = Some states
    ∧ length states = 3%nat
    ∧ Forall IndexManager.directory_ids_unique states.
Proof.
  assert (IndexManager.directory_ids_unique Sample.usersIndexes) as Hdir.
  { repeat constructor. intros key ids. simpl. by rewrite lookup_empty. }
  destruct (updateFileIndex_keeps_ids_unique "users" Sample.usersCalls
              Sample.usersIndexes Hdir) as (_ & Hreturn & _).
  apply Hreturn.
  - by vm_compute.
  - vm_compute. lia.
Defined.

(** The run of these calls: John is listed once under his key of the
    [_id] index after the first call and after the second, and the
    third call repairs the index on name and age from the two stored
    documents. *)
Example usersCalls_run :
  option_map (List.map Sample.listing)
    (IndexManager.updateFileIndex_calls "users" 5 Sample.usersCalls
       Sample.usersIndexes)
  = Some
      [ [("_id", Some (["_id"], [("65a000000000000000000001", ["65a000000000000000000001"])]));
         ("name_age", None)];
        [("_id", Some (["_id"], [("65a000000000000000000001", ["65a000000000000000000001"])]));
         ("name_age", None)];
        [("_id", Some (["_id"], [("65a000000000000000000001", ["65a000000000000000000001"]);
                                 ("65a000000000000000000002", ["65a000000000000000000002"])]));
         ("name_age", Some (["name"; "age"],
                            [("John::30", ["65a000000000000000000001"]);
                             ("Jane::25", ["65a000000000000000000002"])]))] ].
Proof. vm_compute. reflexivity. Qed.

(* ===================================================================== *)
(** ** Further properties of the reads                                   *)
(* ===================================================================== *)

Section ReadsFurther.
Import Js Collection.
Variable host : Host.

Lemma readOnly_bind {A B} (m : M A) (k : A → M B) :
  readOnly m → (∀ a, readOnly (k a)) → readOnly (m ≫= k).
Proof.
  intros Hm Hk st. rewrite M_bind_unfold.
  specialize (Hm st). destruct (m st) as [[a|e] st']; simpl in *; subst; [|done].
  apply Hk.
Qed.

Lemma readOnly_loadData : readOnly loadData.
Proof. intros st. by rewrite loadData_snapshot. Qed.

Lemma readOnly_find (query : value) (options : find_options) :
  readOnly (find host query options).
Proof.
  unfold find.
  apply readOnly_bind; [apply readOnly_loadData|]. intros.
  apply readOnly_bind; [done|]. intros.
  apply readOnly_bind; [|done].
  by destruct (truthy _).
Qed.

Lemma readOnly_findOne (query : value) : readOnly (findOne host query).
Proof.
  unfold findOne.
  apply readOnly_bind; [apply readOnly_loadData|]. intros.
  by apply readOnly_bind.
Qed.

Lemma readOnly_count (query : value) : readOnly (count host query).
Proof.
  unfold count.
  apply readOnly_bind; [apply readOnly_loadData|]. intros.
  by apply readOnly_bind.
Qed.

(** The reads write nothing: [find], [findOne], [findById] and [count]
    hand the store back as they found it (data file, trace of writes
    and identifier counter), whether they return or throw. *)
Theorem reads_leave_the_store (query id : value) (options : find_options)
    (st : store) :
  (find host query options st).2 = st
  ∧ (findOne host query st).2 = st
  ∧ (findById host id st).2 = st
  ∧ (count host query st).2 = st.
Proof.
  split; [apply readOnly_find|]. split; [apply readOnly_findOne|].
  split; [|apply readOnly_count].
  revert st. change (readOnly (findById host id)). unfold findById.
  apply readOnly_bind; [|intros; apply readOnly_findOne].
  by destruct id.
Qed.

Lemma filterThrowing_all {A} (p : A → result bool) (l : list A) :
  Forall (fun x => p x = Ok true) l → filterThrowing p l = Ok l.
Proof.
  induction 1 as [|x l Hx _ IH]; simpl; [done|]. by rewrite Hx, IH.
Qed.

(** The empty query matches every document: [find({})] without options
    returns the stored documents in their stored order and [count({})]
    their number. *)
Theorem find_empty_query_returns_all (st : store) :
  find host (VObj []) noOptions st = (Ok (snapshot (dataFile st)), st)
  ∧ count host (VObj []) st = (Ok (length (snapshot (dataFile st))), st).
Proof.
  assert (filterThrowing (fun doc => matchDocument host doc (VObj []))
            (snapshot (dataFile st)) = Ok (snapshot (dataFile st))) as Hall.
  { apply filterThrowing_all. by apply Forall_forall. }
  split.
  - unfold find. rewrite M_bind_unfold, loadData_snapshot.
    rewrite M_bind_unfold. unfold lift. by rewrite Hall.
  - unfold count. rewrite M_bind_unfold, loadData_snapshot.
    rewrite M_bind_unfold. unfold lift. by rewrite Hall.
Qed.

(** When the filter returns, [findIndex] stops at the first of its
    results. *)
Lemma findIndex_head {A} (p : A → result bool) (l results : list A) :
  filterThrowing p l = Ok results →
  ∃ index, findIndex p l = Ok index ∧ (i ← index; l !! i) = head results.
Proof.
  revert results. induction l as [|x l IH]; intros results; simpl.
  - intros [= <-]. by exists None.
  - destruct (p x) as [b|e]; simpl; [|done].
    destruct (filterThrowing p l) as [rest|e]; simpl; [|done].
    destruct (IH rest eq_refl) as (index & -> & Hhead).
    intros [= <-]. destruct b; simpl.
    + by exists (Some 0%nat).
    + exists (option_map S index). split; [done|].
      rewrite <- Hhead. by destruct index.
Qed.

(** When [find(query)] without options returns, [findOne(query)]
    returns its first document, or null when it is empty.  ([findOne]
    stops at the first match, so it may return where [find] throws on a
    later document.) *)
Theorem findOne_is_first_of_find (query : value) (st st' : store)
    (results : list obj) :
  find host query noOptions st = (Ok results, st') →
  findOne host query st = (Ok (head results), st).
Proof.
  unfold find, findOne.
  rewrite !M_bind_unfold, loadData_snapshot. unfold lift.
  destruct (filterThrowing _ _) as [matching|e] eqn:Hfilter; [|done].
  simpl. intros [= <- <-].
  destruct (findIndex_head _ _ _ Hfilter) as (index & -> & Hhead).
  mrun. unfold mret, M_ret. f_equal. f_equal. exact Hhead.
Qed.

End ReadsFurther.

Lemma findOne_is_first_of_find_witness :
  Collection.findOne Sample.host
    (Js.VObj [("age", Js.VObj [("$gte", Js.VNum 26)])])
    (Sample.storeOf [Sample.jane; Sample.john; Sample.joan])
  = (Js.Ok (head [Sample.john; Sample.joan]),
     Sample.storeOf [Sample.jane; Sample.john; Sample.joan]).
Proof.
  apply (findOne_is_first_of_find Sample.host _ _
           (Sample.storeOf [Sample.jane; Sample.john; Sample.joan])).
  reflexivity.
Defined.

(* ===================================================================== *)
(** ** Further properties of sorting and of the options of [find]       *)
(* ===================================================================== *)

Section SortFurther.
Import Js Collection.
Variable host : Host.

Lemma insertSorted_perm {A} (cmp : A → A → Z) (x : A) (l : list A) :
  insertSorted cmp x l ≡ₚ x :: l.
Proof.
  induction l as [|y l IH]; simpl; [done|].
  destruct (cmp x y <=? 0); [done|].
  rewrite IH. apply Permutation_swap.
Qed.

Lemma stableSort_perm {A} (cmp : A → A → Z) (l : list A) :
  stableSort cmp l ≡ₚ l.
Proof.
  unfold stableSort. induction l as [|x l IH]; simpl; [done|].
  by rewrite insertSorted_perm, IH.
Qed.

(** [sortDocuments] returns the documents it was given, each as often
    as it was given, in some order. *)
Theorem sortDocuments_permutes (documents sorted : list obj) (sort : value) :
  sortDocuments host documents sort = Ok sorted →
  sorted ≡ₚ documents ∧ length sorted = length documents.
Proof.
  unfold sortDocuments.
  destruct (entries host sort) as [keys|e]; simpl; [|done].
  intros [= <-].
  pose proof (stableSort_perm (compareDocuments keys) documents) as Hperm.
  split; [done|]. by apply Permutation_length.
Qed.

(** Insertion keeps a list ordered by a key when the comparator orders
    the elements as their keys are ordered. *)
Lemma insertSorted_sorted {A} (P : A → Prop) (key : A → Z) (cmp : A → A → Z)
    (x : A) (l : list A) :
  (∀ a b, P a → P b → (cmp a b <=? 0) = (key a <=? key b)) →
  P x → Forall P l →
  StronglySorted Z.le (key <$> l) →
  StronglySorted Z.le (key <$> insertSorted cmp x l).
Proof.
  intros Hcmp Hx Hl Hsorted.
  induction l as [|y l IH]; simpl.
  - repeat constructor.
  - apply Forall_cons in Hl as [Hy Hl].
    simpl in Hsorted. apply StronglySorted_inv in Hsorted as [Hs Hall].
    rewrite (Hcmp x y Hx Hy).
    destruct (Z.leb_spec (key x) (key y)) as [Hle|Hgt]; simpl.
    + constructor; [by constructor|].
      constructor; [done|].
      eapply Forall_impl; [exact Hall|]. intros z Hz. simpl in Hz. lia.
    + constructor; [by apply IH|].
      assert (insertSorted cmp x l ≡ₚ x :: l) as Hperm by apply insertSorted_perm.
      rewrite Hperm. simpl. constructor; [lia|done].
Qed.

Lemma stableSort_sorted {A} (P : A → Prop) (key : A → Z) (cmp : A → A → Z)
    (l : list A) :
  (∀ a b, P a → P b → (cmp a b <=? 0) = (key a <=? key b)) →
  Forall P l →
  StronglySorted Z.le (key <$> stableSort cmp l).
Proof.
  intros Hcmp Hl. unfold stableSort.
  induction Hl as [|x l Hx Hl IH]; simpl; [constructor|].
  apply (insertSorted_sorted P); [done|done| |done].
  change (Forall P (stableSort cmp l)).
  by rewrite stableSort_perm.
Qed.

(** The comparator on one numeric field: ascending for the direction 1,
    descending for any other direction. *)
Lemma compareDocuments_number (field : string) (direction : value) (a b : obj)
    (x y : Z) :
  get a field = VNum x → get b field = VNum y →
  (compareDocuments [(field, direction)] a b <=? 0)
  = if strict_eq direction (VNum 1) then x <=? y else y <=? x.
Proof.
  intros Ha Hb. unfold compareDocuments. rewrite Ha, Hb.
  unfold js_gt, js_lt, compare_lt. simpl.
  destruct (strict_eq direction (VNum 1));
    destruct (Z.ltb_spec x y), (Z.ltb_spec y x), (Z.leb_spec x y), (Z.leb_spec y x);
    simpl; try done; lia.
Qed.

(** When every document holds a number in [field], sorting by
    [{ field: 1 }] returns the documents by ascending number, and
    sorting by [{ field: d }] for any other [d] (such as -1) returns
    them by descending number. *)
Theorem sortDocuments_orders_numbers (documents : list obj) (field : string)
    (direction : value) :
  Forall (fun doc => ∃ z, get doc field = VNum z) documents →
  ∃ sorted,
    sortDocuments host documents (VObj [(field, direction)]) = Ok sorted
    ∧ if strict_eq direction (VNum 1)
      then StronglySorted Z.le (Design.numberAt field <$> sorted)
      else StronglySorted Z.ge (Design.numberAt field <$> sorted).
Proof.
  intros Hnum. eexists. split; [reflexivity|].
  set (P := fun doc : obj => ∃ z, get doc field = VNum z) in *.
  destruct (strict_eq direction (VNum 1)) eqn:Hdir.
  - apply (stableSort_sorted P); [|done].
    intros a b [x Ha] [y Hb].
    rewrite (compareDocuments_number _ _ _ _ x y Ha Hb), Hdir.
    unfold Design.numberAt. by rewrite Ha, Hb.
  - pose proof (stableSort_sorted P (fun doc => - Design.numberAt field doc)
                  (compareDocuments [(field, direction)]) documents) as Hs.
    assert (∀ l : list obj,
              StronglySorted Z.le ((fun doc => - Design.numberAt field doc) <$> l) →
              StronglySorted Z.ge (Design.numberAt field <$> l)) as Hflip.
    { induction l as [|d l IH]; simpl; intros Hl; [constructor|].
      apply StronglySorted_inv in Hl as [Hl Hall].
      constructor; [by apply IH|].
      rewrite Forall_fmap in Hall |- *.
      eapply Forall_impl; [exact Hall|]. intros z Hz. simpl in *. lia. }
    apply Hflip, Hs; [|done].
    intros a b [x Ha] [y Hb].
    rewrite (compareDocuments_number _ _ _ _ x y Ha Hb), Hdir.
    unfold Design.numberAt. rewrite Ha, Hb.
    destruct (Z.leb_spec y x), (Z.leb_spec (- x) (- y)); try done; lia.
Qed.

End SortFurther.

Lemma sortDocuments_permutes_witness :
  [Sample.jane; Sample.john; Sample.joan] ≡ₚ [Sample.john; Sample.jane; Sample.joan]
  ∧ length [Sample.jane; Sample.john; Sample.joan]
    = length [Sample.john; Sample.jane; Sample.joan].
Proof.
  apply (sortDocuments_permutes Sample.host _ _ (Js.VObj [("age", Js.VNum 1)])).
  reflexivity.
Defined.

Lemma sortDocuments_orders_numbers_witness :
  ∃ sorted,
    Collection.sortDocuments Sample.host [Sample.john; Sample.jane; Sample.joan]
      (Js.VObj [("age", Js.VNum (-1))]) = Js.Ok sorted
    ∧ StronglySorted Z.ge (Design.numberAt "age" <$> sorted).
Proof.
  apply (sortDocuments_orders_numbers Sample.host
           [Sample.john; Sample.jane; Sample.joan] "age" (Js.VNum (-1))).
  repeat constructor; eexists; reflexivity.
Defined.

Section FindFurther.
Import Js Collection.
Variable host : Host.

Lemma filterThrowing_matching {A} (p : A → result bool) (l results : list A) :
  filterThrowing p l = Ok results →
  results `sublist_of` l ∧ Forall (fun x => p x = Ok true) results.
Proof.
  revert results. induction l as [|x l IH]; intros results; simpl.
  - intros [= <-]. split; constructor.
  - destruct (p x) as [b|e] eqn:Hx; simpl; [|done].
    destruct (filterThrowing p l) as [rest|e]; simpl; [|done].
    destruct (IH rest eq_refl) as [Hsub Hall].
    intros [= <-]. destruct b.
    + split; [by apply sublist_skip|by constructor].
    + split; [by apply sublist_cons|done].
Qed.

Lemma slice_sublist {A} (l : list A) (start stop : Z) :
  slice l start stop `sublist_of` l.
Proof.
  unfold slice. etrans; [apply sublist_take|apply sublist_drop].
Qed.

Lemma cut_sublist {A} (options : find_options) (results : list A) :
  cut options results `sublist_of` results.
Proof.
  unfold cut, sliceFrom.
  destruct (given (limit options)), (given (skip options)); try done;
    repeat (etrans; [apply slice_sublist|]); done || apply slice_sublist.
Qed.

Lemma cut_length {A} (options : find_options) (results : list A) (n : Z) :
  limit options = Some n → 0 < n →
  (length (cut options results) ≤ Z.to_nat n)%nat.
Proof.
  intros Hl Hn. unfold cut, given. rewrite Hl.
  destruct (Z.eqb_spec n 0) as [->|_]; [lia|].
  assert (length (slice results 0 n) ≤ Z.to_nat n)%nat as Hcut.
  { rewrite slice_take by lia. rewrite length_take. lia. }
  destruct (skip options) as [k|]; [|done].
  destruct (k =? 0); [done|].
  etrans; [|exact Hcut].
  apply sublist_length, slice_sublist.
Qed.

(** [find] returns only stored documents that match the query, never
    more of them than are stored, and never more than a positive
    [limit], whatever [sort] and [skip] are. *)
Theorem find_returns_matching (query : value) (options : find_options)
    (st st' : store) (results : list obj) :
  find host query options st = (Ok results, st') →
  (∀ doc, doc ∈ results →
          doc ∈ snapshot (dataFile st) ∧ matchDocument host doc query = Ok true)
  ∧ (length results ≤ length (snapshot (dataFile st)))%nat
  ∧ (∀ n, limit options = Some n → 0 < n → (length results ≤ Z.to_nat n)%nat).
Proof.
  unfold find. rewrite M_bind_unfold, loadData_snapshot.
  rewrite M_bind_unfold. unfold lift at 1.
  destruct (filterThrowing _ _) as [matching|e] eqn:Hfilter; [|done].
  destruct (filterThrowing_matching _ _ _ Hfilter) as [Hsub Hall].
  rewrite M_bind_unfold.
  assert (∃ sorted,
            (if truthy (sort options)
             then lift (sortDocuments host matching (sort options))
             else mret matching) st = (Ok sorted, st)
            ∧ sorted ≡ₚ matching
            ∨ ∃ e, (if truthy (sort options)
                    then lift (sortDocuments host matching (sort options))
                    else mret matching) st = (Throw e, st)) as Hsort.
  { destruct (truthy (sort options)).
    - unfold lift, sortDocuments.
      destruct (entries host (sort options)) as [keys|e]; simpl.
      + eexists. left. split; [done|]. apply stableSort_perm.
      + exists []. right. by exists e.
    - exists matching. by left. }
  destruct Hsort as (sorted & [[-> Hperm]|[e ->]]); [|done].
  unfold mret, M_ret. intros [= Hres <-].
  change (cut options sorted = results) in Hres. subst results.
  pose proof (cut_sublist options sorted) as Hcut.
  split; [|split].
  - intros doc Hdoc.
    assert (doc ∈ matching) as Hin.
    { rewrite <- Hperm. by eapply elem_of_sublist. }
    split; [by eapply elem_of_sublist|].
    rewrite Forall_forall in Hall. by apply Hall.
  - etrans; [apply sublist_length, Hcut|].
    rewrite (Permutation_length Hperm). by apply sublist_length.
  - intros n. apply cut_length.
Qed.

End FindFurther.

Lemma find_returns_matching_witness :
  (∀ doc, doc ∈ [Sample.joan] →
          doc ∈ [Sample.john; Sample.jane; Sample.joan]
          ∧ Collection.matchDocument Sample.host doc
              (Js.VObj [("age", Js.VObj [("$gte", Js.VNum 26)])]) = Js.Ok true)
  ∧ (length [Sample.joan] ≤ 3)%nat
  ∧ (∀ n, Some 1 = Some n → 0 < n → (length [Sample.joan] ≤ Z.to_nat n)%nat).
Proof.
  apply (find_returns_matching Sample.host
           (Js.VObj [("age", Js.VObj [("$gte", Js.VNum 26)])])
           {| Collection.sort := Js.VObj [("age", Js.VNum (-1))];
              Collection.limit := Some 1;
              Collection.skip := None |}
           (Sample.storeOf [Sample.john; Sample.jane; Sample.joan])
           (Sample.storeOf [Sample.john; Sample.jane; Sample.joan])).
  reflexivity.
Defined.

Section OptionsFurther.
Import Js Collection.
Variable host : Host.

Lemma find_cut (query : value) (options : find_options) (st : store) :
  find host query options st
  = (cut options
       <$> find host query {| sort := sort options; limit := None; skip := None |}) st.
Proof.
  unfold find, fmap, M_fmap. simpl.
  rewrite !M_bind_unfold, loadData_snapshot. unfold lift at 1 3.
  destruct (filterThrowing _ _) as [matching|e]; [|done].
  rewrite !M_bind_unfold.
  destruct (truthy (sort options)); [|done].
  unfold lift. by destruct (sortDocuments _ _ _).
Qed.

Lemma slice_drop_end {A} (l : list A) (k : Z) :
  0 < k → slice l 0 (- k) = take (length l - Z.to_nat k) l.
Proof.
  intros Hk. unfold slice, relativeIndex.
  destruct (Z.ltb_spec 0 0); [lia|]. destruct (Z.ltb_spec (- k) 0); [|lia].
  rewrite Z.min_l by lia. simpl. rewrite drop_0. f_equal. lia.
Qed.

Lemma sliceFrom_keep_end {A} (l : list A) (k : Z) :
  0 < k → sliceFrom l (- k) = drop (length l - Z.to_nat k) l.
Proof.
  intros Hk. unfold sliceFrom, slice, relativeIndex.
  destruct (Z.ltb_spec (- k) 0); [|lia].
  destruct (Z.ltb_spec (Z.of_nat (length l)) 0); [lia|].
  rewrite Z.min_id.
  replace (Z.to_nat (Z.max (Z.of_nat (length l) + - k) 0))
    with (length l - Z.to_nat k)%nat by lia.
  apply take_ge. rewrite length_drop. lia.
Qed.

(** The edges of the options of [find].  A [limit] or [skip] of 0 is
    taken for an absent one, so [limit: 0] returns every result.  A
    negative [limit] drops that many results from the end, and a
    negative [skip] keeps only that many results from the end. *)
Theorem find_zero_and_negative_options (query sorting : value) (k : Z) (st : store) :
  let all := find host query {| sort := sorting; limit := None; skip := None |} in
  find host query {| sort := sorting; limit := Some 0; skip := Some 0 |} st = all st
  ∧ (0 < k →
     find host query {| sort := sorting; limit := Some (- k); skip := None |} st
     = ((fun results => take (length results - Z.to_nat k) results) <$> all) st
     ∧ find host query {| sort := sorting; limit := None; skip := Some (- k) |} st
       = ((fun results => drop (length results - Z.to_nat k) results) <$> all) st).
Proof.
  intros all. subst all. split; [|intros Hk; split].
  - rewrite find_cut. unfold fmap, M_fmap. simpl.
    by destruct (find _ _ _ _) as [[?|?] ?].
  - rewrite find_cut. unfold fmap, M_fmap. simpl.
    destruct (find _ _ _ _) as [[results|?] ?]; [|done].
    unfold cut, given. simpl.
    destruct (Z.eqb_spec (- k) 0); [lia|]. by rewrite slice_drop_end.
  - rewrite find_cut. unfold fmap, M_fmap. simpl.
    destruct (find _ _ _ _) as [[results|?] ?]; [|done].
    unfold cut, given. simpl.
    destruct (Z.eqb_spec (- k) 0); [lia|]. by rewrite sliceFrom_keep_end.
Qed.

End OptionsFurther.

Lemma find_zero_and_negative_options_witness :
  Collection.find Sample.host (Js.VObj [])
    {| Collection.sort := Js.VUndef; Collection.limit := Some (- 1);
       Collection.skip := None |}
    (Sample.storeOf [Sample.john; Sample.jane; Sample.joan])
  = (Js.Ok [Sample.john; Sample.jane],
     Sample.storeOf [Sample.john; Sample.jane; Sample.joan])
  ∧ Collection.find Sample.host (Js.VObj [])
      {| Collection.sort := Js.VUndef; Collection.limit := None;
         Collection.skip := Some (- 1) |}
      (Sample.storeOf [Sample.john; Sample.jane; Sample.joan])
    = (Js.Ok [Sample.joan],
       Sample.storeOf [Sample.john; Sample.jane; Sample.joan]).
Proof.
  destruct (find_zero_and_negative_options Sample.host (Js.VObj []) Js.VUndef 1
              (Sample.storeOf [Sample.john; Sample.jane; Sample.joan]))
    as [_ Hneg].
  destruct Hneg as [Hlimit Hskip]; [lia|].
  split; [exact Hlimit|exact Hskip].
Defined.

(* ===================================================================== *)
(** ** Further properties of the updates                                 *)
(* ===================================================================== *)

Section UpdatesFurther.
Import Js Collection.
Variable host : Host.


Lemma lookup_field_delete_eq (o : obj) (k : string) :
  lookup_field (delete o k) k = None.
Proof.
  induction o as [|[k' v'] o IH]; simpl; [done|].
  destruct (String.eqb k' k) eqn:E; simpl; [done|]. by rewrite E.
Qed.

Lemma applyUpdate_one (doc : obj) (operator : string) (payload : value) :
  applyUpdate host doc [(operator, payload)] = applyOperator host doc operator payload.
Proof. reflexivity. Qed.

(** What [$inc], [$push] and [$unset] do to a field that names no
    member of [Object.prototype]: [$inc] adds a number to the number in
    the field, counting from 0 when the document has no such field, as
    long as the numbers and their sum are exact; [$push] appends to the
    array in the field, and starts a new array when the field holds
    none; [$unset] removes the field. *)
Theorem update_operators_on_a_field (doc : obj) (field : string) :
  inherited field = false →
  (∀ amount, safe amount = true →
     ∃ updated,
       applyUpdate host doc [("$inc", VObj [(field, VNum amount)])] = Ok updated
       ∧ (∀ x, lookup_field doc field = Some (VNum x) →
               safe x = true → safe (x + amount) = true →
               get updated field = VNum (x + amount))
       ∧ (lookup_field doc field = None → get updated field = VNum amount))
  ∧ (∀ item,
       ∃ updated,
         applyUpdate host doc [("$push", VObj [(field, item)])] = Ok updated
         ∧ get updated field
           = match get doc field with
             | VArr items => VArr (items ++ [item])
             | _ => VArr [item]
             end)
  ∧ (∀ anything,
       ∃ updated,
         applyUpdate host doc [("$unset", VObj [(field, anything)])] = Ok updated
         ∧ lookup_field updated field = None
         ∧ get updated field = VUndef).
Proof.
  intros _. split; [|split].
  - intros amount _. eexists. split; [reflexivity|]. split.
    + intros x Hx _ _. simpl. rewrite get_set_eq. unfold get. rewrite Hx.
      unfold js_or, js_add. simpl.
      destruct (x =? 0) eqn:E; simpl; [|done].
      apply Z.eqb_eq in E as ->. done.
    + intros Hx. simpl. rewrite get_set_eq. unfold get. by rewrite Hx.
  - intros item. eexists. split; [reflexivity|]. simpl.
    rewrite get_set_eq. by destruct (get doc field).
  - intros anything. eexists. split; [reflexivity|]. simpl.
    split; [apply lookup_field_delete_eq|]. unfold get. by rewrite lookup_field_delete_eq.
Qed.








End UpdatesFurther.

Lemma update_operators_on_a_field_witness :
  (∃ updated,
     Collection.applyUpdate Sample.host Sample.john
       [("$inc", Js.VObj [("age", Js.VNum 5)])] = Js.Ok updated
     ∧ Js.get updated "age" = Js.VNum 35)
  ∧ (∃ updated,
       Collection.applyUpdate Sample.host Sample.john
         [("$push", Js.VObj [("age", Js.VStr "x")])] = Js.Ok updated
       ∧ Js.get updated "age" = Js.VArr [Js.VStr "x"]).
Proof.
  destruct (update_operators_on_a_field Sample.host Sample.john "age" eq_refl)
    as (Hinc & Hpush & _).
  split.
  - destruct (Hinc 5 ltac:(by vm_compute)) as (updated & Hupdated & Hnumber & _).
    exists updated. split; [exact Hupdated|].
    apply (Hnumber 30); by vm_compute.
  - destruct (Hpush (Js.VStr "x")) as (updated & Hupdated & Hfield).
    exists updated. split; [exact Hupdated|exact Hfield].
Defined.




(* ===================================================================== *)
(** ** Further properties of the writes                                  *)
(* ===================================================================== *)

Section WritesFurther.
Import Js Collection.
Variable host : Host.




(** [insertMany] of one document does what [insertOne] of it does: the
    same store results, and the same document is returned, or the same
    exception thrown. *)
Theorem insertMany_single_is_insertOne (document : obj) (st : store) :
  insertMany host [document] st
  = ((fun stored => [stored]) <$> insertOne host document) st.
Proof.
  unfold insertMany, insertOne, fmap, M_fmap. simpl.
  rewrite !M_bind_unfold.
  destruct (ensureId host document st) as [[stored|e] st1]; [|done].
  mrun. rewrite loadData_snapshot. by mrun.
Qed.

(** A document that [insertOne] returns is read back when it is made
    of values the data file holds as they are (no undefined property,
    every number exact): it is the last document of [find({})], after
    the documents stored before, and it carries a truthy [_id]. *)
Theorem insertOne_then_find (document stored : obj) (st st' : store) :
  insertOne host document st = (Ok stored, st') →
  stable (VObj stored) = true →
  find host (VObj []) noOptions st'
    = (Ok (snapshot (dataFile st) ++ [stored]), st')
  ∧ count host (VObj []) st' = (Ok (S (length (snapshot (dataFile st)))), st')
  ∧ truthy (get stored "_id") = true.
Proof.
  intros Hins _.
  destruct (ensureId host document st) as [[d|e] st1] eqn:He.
  - rewrite (insertOne_stored host _ _ _ _ He) in Hins.
    injection Hins as <- <-.
    assert (∀ l : list obj,
              filterThrowing (fun doc => matchDocument host doc (VObj [])) l = Ok l)
      as Hall.
    { intros l. apply filterThrowing_all. by apply Forall_forall. }
    split; [|split].
    + unfold find. rewrite M_bind_unfold, loadData_snapshot. simpl.
      rewrite M_bind_unfold. unfold lift. by rewrite Hall.
    + unfold count. rewrite M_bind_unfold, loadData_snapshot. simpl.
      rewrite M_bind_unfold. unfold lift. rewrite Hall. simpl.
      unfold mret, M_ret. rewrite length_app. simpl.
      by rewrite Nat.add_1_r.
    + by eapply ensureId_store.
  - unfold insertOne in Hins. by rewrite M_bind_unfold, He in Hins.
Qed.

End WritesFurther.


Lemma insertOne_then_find_witness :
  let stored : Js.obj :=
    [("name", Js.VStr "Jack"); ("_id", Js.VOid "000000000000000000000000")] in
  let st' :=
    {| Collection.dataFile := Collection.Decoded (Some [Sample.john; stored]);
       Collection.issued := 1;
       Collection.trace := [Collection.SaveData [Sample.john; stored];
                            Collection.UpdateIndex stored None] |} in
  Collection.find Sample.host (Js.VObj []) Collection.noOptions st'
    = (Js.Ok ([Sample.john] ++ [stored]), st')
  ∧ Collection.count Sample.host (Js.VObj []) st' = (Js.Ok 2%nat, st')
  ∧ Js.truthy (Js.get stored "_id") = true.
Proof.
  apply (insertOne_then_find Sample.host [("name", Js.VStr "Jack")] _
           (Sample.storeOf [Sample.john])).
  - reflexivity.
  - by vm_compute.
Defined.

Section DeletesFurther.
Import Js Collection.
Variable host : Host.


Lemma partitionThrowing_split {A} (p : A → result bool) (l yes no : list A) :
  partitionThrowing p l = Ok (yes, no) →
  Forall (fun x => p x = Ok true) yes
  ∧ Forall (fun x => p x = Ok false) no
  ∧ (length yes + length no = length l)%nat
  ∧ yes `sublist_of` l.
Proof.
  revert yes no. induction l as [|x l IH]; intros yes no; simpl.
  - intros [= <- <-]. by repeat split; constructor.
  - destruct (p x) as [b|e] eqn:Hx; simpl; [|done].
    destruct (partitionThrowing p l) as [[yes' no']|e]; simpl; [|done].
    destruct (IH _ _ eq_refl) as (Hyes & Hno & Hlen & Hsub).
    destruct b; intros [= <- <-]; simpl.
    + repeat split; [by constructor|done|lia|by apply sublist_skip].
    + repeat split; [done|by constructor|lia|by apply sublist_cons].
Qed.

Lemma filterThrowing_none {A} (p : A → result bool) (l : list A) :
  Forall (fun x => p x = Ok false) l → filterThrowing p l = Ok [].
Proof.
  induction 1 as [|x l Hx _ IH]; simpl; [done|]. by rewrite Hx, IH.
Qed.

Lemma removeFromIndexes_store (documents : list obj) (st : store) :
  ∃ st', removeFromIndexes documents st = (Ok tt, st')
         ∧ dataFile st' = dataFile st.
Proof.
  revert st. induction documents as [|doc rest IH]; intros st; simpl.
  - by exists st.
  - rewrite M_bind_unfold. unfold removeFromIndex, emit.
    match goal with |- context [removeFromIndexes rest ?s] =>
      destruct (IH s) as (st' & -> & Hfile) end.
    by exists st'.
Qed.

(** Once [deleteMany(query)] has returned, no stored document matches
    the query: [count(query)] returns 0 and [find(query)] nothing.  The
    documents it returns all matched, and together with the documents
    left they are as many as were stored. *)
Theorem deleteMany_leaves_no_match (query : value) (st st' : store)
    (deleted : list obj) :
  deleteMany host query st = (Ok deleted, st') →
  noMatch host query (snapshot (dataFile st'))
  ∧ count host query st' = (Ok 0%nat, st')
  ∧ find host query noOptions st' = (Ok [], st')
  ∧ Forall (fun doc => matchDocument host doc query = Ok true) deleted
  ∧ (length deleted + length (snapshot (dataFile st'))
     = length (snapshot (dataFile st)))%nat.
Proof.
  unfold deleteMany. rewrite M_bind_unfold, loadData_snapshot.
  rewrite M_bind_unfold. unfold lift at 1.
  destruct (partitionThrowing _ _) as [[toDelete remaining]|e] eqn:Hp; [|done].
  destruct (partitionThrowing_split _ _ _ _ Hp) as (Hyes & Hno & Hlen & Hsub).
  rewrite M_bind_unfold.
  assert (Hafter : noMatch host query (snapshot (dataFile st')) →
    count host query st' = (Ok 0%nat, st')
    ∧ find host query noOptions st' = (Ok [], st')).
  { intros Hnone. split.
    - unfold count. rewrite M_bind_unfold, loadData_snapshot.
      rewrite M_bind_unfold. unfold lift.
      by rewrite (filterThrowing_none _ _ Hnone).
    - unfold find. rewrite M_bind_unfold, loadData_snapshot.
      rewrite M_bind_unfold. unfold lift.
      by rewrite (filterThrowing_none _ _ Hnone). }
  destruct (0 <? length toDelete)%nat eqn:Hany.
  - rewrite M_bind_unfold. unfold saveData at 1.
    match goal with |- context [removeFromIndexes toDelete ?s] =>
      destruct (removeFromIndexes_store toDelete s) as (st2 & -> & Hfile) end.
    simpl in Hfile. unfold mret, M_ret. intros [= <- <-].
    rewrite Hfile in *. simpl in *.
    split; [done|]. destruct (Hafter Hno) as [Hc Hf]. by repeat split.
  - unfold mret, M_ret. intros [= <- <-].
    apply Nat.ltb_ge in Hany.
    assert (toDelete = []) as -> by (destruct toDelete; [done|simpl in Hany; lia]).
    assert (remaining = snapshot (dataFile st)) as Hsame.
    { clear -Hp. revert remaining Hp.
      induction (snapshot (dataFile st)) as [|x l IH]; intros remaining; simpl.
      - by intros [= <-].
      - destruct (matchDocument host x query) as [b|e]; simpl; [|done].
        destruct (partitionThrowing _ l) as [[yes no]|e]; simpl; [|done].
        destruct b; [by intros [= Hyes <-]|].
        intros [= Hyes <-]. f_equal. apply IH. by rewrite Hyes. }
    subst remaining. split; [done|].
    destruct (Hafter Hno) as [Hc Hf]. by repeat split.
Qed.

End DeletesFurther.


Lemma deleteMany_leaves_no_match_witness :
  let query := Js.VObj [("age", Js.VObj [("$gte", Js.VNum 26)])] in
  let st' :=
    {| Collection.dataFile := Collection.Decoded (Some [Sample.jane]);
       Collection.issued := 0;
       Collection.trace := [Collection.SaveData [Sample.jane];
                            Collection.RemoveFromIndex Sample.john;
                            Collection.RemoveFromIndex Sample.joan] |} in
  Collection.noMatch Sample.host query [Sample.jane]
  ∧ Collection.count Sample.host query st' = (Js.Ok 0%nat, st')
  ∧ Collection.find Sample.host query Collection.noOptions st' = (Js.Ok [], st')
  ∧ Forall (fun doc => Collection.matchDocument Sample.host doc query = Js.Ok true)
      [Sample.john; Sample.joan]
  ∧ (2 + 1 = 3)%nat.
Proof.
  apply (deleteMany_leaves_no_match Sample.host
           (Js.VObj [("age", Js.VObj [("$gte", Js.VNum 26)])])
           (Sample.storeOf [Sample.john; Sample.jane; Sample.joan])
           {| Collection.dataFile := Collection.Decoded (Some [Sample.jane]);
              Collection.issued := 0;
              Collection.trace := [Collection.SaveData [Sample.jane];
                                   Collection.RemoveFromIndex Sample.john;
                                   Collection.RemoveFromIndex Sample.joan] |}
           [Sample.john; Sample.joan]).
  reflexivity.
Defined.

Section UpdateManyFurther.
Import Js Collection.
Variable host : Host.

Ltac destruct_loop :=
  match goal with
  | |- context [updateManyLoop ?h ?q ?u ?l ?s] =>
      let rest' := fresh "rest'" in
      let rs := fresh "rs" in
      let e := fresh "e" in
      let st1 := fresh "st1" in
      let Hloop := fresh "Hloop" in
      destruct (updateManyLoop h q u l s) as [[[rest' rs]|e] st1] eqn:Hloop
  end.

Lemma updateManyLoop_relates (query : value) (update : obj)
    (documents documents' results : list obj) (st st' : store) :
  updateManyLoop host query update documents st = (Ok (documents', results), st') →
  Forall2 (updatedBy host query update) documents documents'
  ∧ results `sublist_of` documents'
  ∧ length results
    = length (List.filter (fun doc => isMatch (matchDocument host doc query)) documents)
  ∧ (results = [] → documents' = documents ∧ st' = st).
Proof.
  revert documents' results st st'.
  induction documents as [|doc rest IH]; intros documents' results st st'; simpl.
  - intros [= <- <- <-]. by repeat split; constructor.
  - mrun. unfold lift.
    destruct (matchDocument host doc query) as [[|]|e] eqn:Hm; simpl; [| |done].
    + mrun. destruct (applyUpdate host doc update) as [updated|e] eqn:Hap;
        simpl; [|done].
      mrun. destruct_loop; simpl; [|done].
      intros [= <- <- <-].
      destruct (IH _ _ _ _ Hloop) as (Hrel & Hsub & Hlen & _).
      split; [|split; [|split]].
      * constructor; [by left|done].
      * by apply sublist_skip.
      * simpl. by rewrite Hlen.
      * done.
    + mrun. destruct_loop; simpl; [|done].
      intros [= <- <- <-].
      destruct (IH _ _ _ _ Hloop) as (Hrel & Hsub & Hlen & Hnil).
      split; [|split; [|split]].
      * constructor; [by right|done].
      * by apply sublist_cons.
      * done.
      * intros Hrs. by destruct (Hnil Hrs) as [-> ->].
Qed.

(** Once [updateMany] has returned, every stored document that matched
    stands updated in its place and every other document is as it was;
    the updated documents are returned, as many as matched, and when
    none matched the data file is not written.  The update is one that
    is [exactUpdate] for each document that matches: it pushes onto no array
    that a document or the [$set] payload holds (such an array would
    be shared by the matches), it assigns no field named like an
    inherited member, and the values are those the file holds as they
    are. *)
Theorem updateMany_updates_every_match (query : value) (update : obj)
    (st st' : store) (results : list obj) :
  (∀ doc, doc ∈ snapshot (dataFile st) →
          matchDocument host doc query = Ok true →
          exactUpdate host update doc = true) →
  updateMany host query update st = (Ok results, st') →
  Forall2 (updatedBy host query update)
    (snapshot (dataFile st)) (snapshot (dataFile st'))
  ∧ results `sublist_of` snapshot (dataFile st')
  ∧ length results
    = length (List.filter (fun doc => isMatch (matchDocument host doc query))
                (snapshot (dataFile st)))
  ∧ (results = [] → st' = st).
Proof.
  intros _. unfold updateMany. rewrite M_bind_unfold, loadData_snapshot.
  rewrite M_bind_unfold.
  pose proof (keepsFile_updateManyLoop host query update
                (snapshot (dataFile st)) st) as Hfile.
  destruct (updateManyLoop _ _ _ _ _) as [[[documents' rs]|e] st1] eqn:Hloop;
    [|done].
  simpl in Hfile.
  destruct (updateManyLoop_relates _ _ _ _ _ _ _ Hloop) as (Hrel & Hsub & Hlen & Hnil).
  mrun. destruct rs as [|r rs]; simpl.
  - intros [= <- <-]. destruct (Hnil eq_refl) as [-> ->].
    repeat split; try done.
  - unfold saveData. intros [= <- <-]. simpl.
    repeat split; done.
Qed.

End UpdateManyFurther.

Lemma updateMany_updates_every_match_witness :
  let query := Js.VObj [("age", Js.VObj [("$gte", Js.VNum 26)])] in
  let update : Js.obj := [("$inc", Js.VObj [("age", Js.VNum 1)])] in
  let john' := Js.set Sample.john "age" (Js.VNum 31) in
  let joan' := Js.set Sample.joan "age" (Js.VNum 42) in
  Forall2 (Collection.updatedBy Sample.host query update)
    [Sample.john; Sample.jane; Sample.joan] [john'; Sample.jane; joan']
  ∧ [john'; joan'] `sublist_of` [john'; Sample.jane; joan']
  ∧ length [john'; joan'] = 2%nat.
Proof.
  destruct (updateMany_updates_every_match Sample.host
              (Js.VObj [("age", Js.VObj [("$gte", Js.VNum 26)])])
              [("$inc", Js.VObj [("age", Js.VNum 1)])]
              (Sample.storeOf [Sample.john; Sample.jane; Sample.joan])
              {| Collection.dataFile :=
                   Collection.Decoded
                     (Some [Js.set Sample.john "age" (Js.VNum 31); Sample.jane;
                            Js.set Sample.joan "age" (Js.VNum 42)]);
                 Collection.issued := 0;
                 Collection.trace :=
                   [Collection.UpdateIndex (Js.set Sample.john "age" (Js.VNum 31))
                      (Some Sample.john);
                    Collection.UpdateIndex (Js.set Sample.joan "age" (Js.VNum 42))
                      (Some Sample.joan);
                    Collection.SaveData
                      [Js.set Sample.john "age" (Js.VNum 31); Sample.jane;
                       Js.set Sample.joan "age" (Js.VNum 42)]] |}
              [Js.set Sample.john "age" (Js.VNum 31);
               Js.set Sample.joan "age" (Js.VNum 42)]
              ltac:(intros doc
                      [->|[->|[->|[]%elem_of_nil]%elem_of_cons]%elem_of_cons]%elem_of_cons
                      _; by vm_compute)
              eq_refl)
    as (Hrel & Hsub & Hlen & _).
  split; [exact Hrel|]. split; [exact Hsub|exact Hlen].
Defined.

(* ===================================================================== *)
(** ** Further properties of the encryption codec                        *)
(* ===================================================================== *)

Section CodecFurther.
Import Js Encryption.
Variable crypto : Crypto.

(** Neither [encrypt] nor [decrypt] ever throws.  When the cipher
    fails, [encrypt] hands back the plaintext as it is, and when the
    decipher fails, [decrypt] hands back its input as it is. *)
Theorem codec_never_throws (this : t) (iv data : bytes) :
  (∃ out, encrypt crypto this iv data = Ok out)
  ∧ (∃ out, decrypt crypto this data = Ok out)
  ∧ (∀ e, enabled this = true → cipher crypto (key this) iv data = Throw e →
          encrypt crypto this iv data = Ok data)
  ∧ (∀ e, enabled this = true →
          decipher crypto (key this) (take (ivLength this) data)
            (drop (ivLength this) data) = Throw e →
          decrypt crypto this data = Ok data).
Proof.
  unfold encrypt, decrypt, orElse.
  split; [|split; [|split]].
  - destruct (negb (enabled this)); [by eauto|].
    destruct (cipher crypto _ _ _); simpl; by eauto.
  - destruct (negb (enabled this)); [by eauto|].
    destruct (_ <? _)%nat; [by eauto|].
    destruct (decipher crypto _ _ _); by eauto.
  - intros e -> ->. done.
  - intros e -> ->. simpl. by destruct (_ <? _)%nat.
Qed.

(** Without a passphrase, with the empty one, or with the reserved
    passphrase 'default-encryption-key', the codec is disabled and both
    [encrypt] and [decrypt] return their input. *)
Theorem codec_pass_through (passphrase : option string) (iv data : bytes) :
  passphrase = None ∨ passphrase = Some ""
  ∨ passphrase = Some "default-encryption-key" →
  enabled (new crypto passphrase) = false
  ∧ encrypt crypto (new crypto passphrase) iv data = Ok data
  ∧ decrypt crypto (new crypto passphrase) data = Ok data.
Proof. intros [-> | [-> | ->]]; done. Qed.

(** Round trip.  In the active mode, when the cipher accepts the data
    under a 16-byte initialization vector and the decipher inverts it,
    [decrypt] returns what [encrypt] was given: the vector is found
    again in the first 16 bytes of the output. *)
Theorem decrypt_encrypt (passphrase : option string) (iv data encrypted : bytes) :
  enabled (new crypto passphrase) = true →
  length iv = 16%nat →
  cipher crypto (key (new crypto passphrase)) iv data = Ok encrypted →
  decipher crypto (key (new crypto passphrase)) iv encrypted = Ok data →
  ∃ stored,
    encrypt crypto (new crypto passphrase) iv data = Ok stored
    ∧ stored = iv ++ encrypted
    ∧ decrypt crypto (new crypto passphrase) stored = Ok data.
Proof.
  intros Hen Hiv Hc Hd. exists (iv ++ encrypted).
  unfold encrypt, decrypt. rewrite Hen, new_ivLength, Hc. simpl.
  split; [done|]. split; [done|].
  destruct (Nat.ltb_spec (length (iv ++ encrypted)) 16) as [Hshort|_].
  { rewrite length_app in Hshort. lia. }
  rewrite take_app_length' by done. rewrite drop_app_length' by done.
  by rewrite Hd.
Qed.

End CodecFurther.

Lemma codec_never_throws_witness :
  Encryption.encrypt Sample.failingCrypto
    (Encryption.new Sample.failingCrypto (Some "secret")) [] [Byte.x01; Byte.x02]
  = Js.Ok [Byte.x01; Byte.x02]
  ∧ Encryption.decrypt Sample.failingCrypto
      (Encryption.new Sample.failingCrypto (Some "secret")) (repeat Byte.x07 20)
    = Js.Ok (repeat Byte.x07 20).
Proof.
  destruct (codec_never_throws Sample.failingCrypto
              (Encryption.new Sample.failingCrypto (Some "secret"))
              [] [Byte.x01; Byte.x02]) as (_ & _ & Hencrypt & _).
  destruct (codec_never_throws Sample.failingCrypto
              (Encryption.new Sample.failingCrypto (Some "secret"))
              [] (repeat Byte.x07 20)) as (_ & _ & _ & Hdecrypt).
  split.
  - apply (Hencrypt (Js.Error "bad key")); reflexivity.
  - apply (Hdecrypt (Js.Error "bad decrypt")); reflexivity.
Defined.

Lemma codec_pass_through_witness :
  Encryption.enabled (Encryption.new Sample.crypto (Some "default-encryption-key"))
    = false
  ∧ Encryption.encrypt Sample.crypto
      (Encryption.new Sample.crypto (Some "default-encryption-key"))
      [] [Byte.x01] = Js.Ok [Byte.x01]
  ∧ Encryption.decrypt Sample.crypto
      (Encryption.new Sample.crypto (Some "default-encryption-key"))
      [Byte.x01] = Js.Ok [Byte.x01].
Proof.
  apply (codec_pass_through Sample.crypto (Some "default-encryption-key")).
  right. right. reflexivity.
Defined.

Lemma decrypt_encrypt_witness :
  ∃ stored,
    Encryption.encrypt Sample.crypto (Encryption.new Sample.crypto (Some "secret"))
      (repeat Byte.x00 16) [Byte.x01; Byte.x02] = Js.Ok stored
    ∧ stored = repeat Byte.x00 16 ++ [Byte.x01; Byte.x02]
    ∧ Encryption.decrypt Sample.crypto
        (Encryption.new Sample.crypto (Some "secret")) stored
      = Js.Ok [Byte.x01; Byte.x02].
Proof.
  apply (decrypt_encrypt Sample.crypto (Some "secret")); reflexivity.
Defined.

(* ===================================================================== *)
(** ** Further properties of the file-backed index                       *)
(* ===================================================================== *)

Section IndexDataFurther.
Import Js IndexManager.

Lemma existsb_eqb_true (x : string) (l : list string) :
  existsb (String.eqb x) l = true → x ∈ l.
Proof.
  induction l as [|y l IH]; simpl; [done|].
  intros [Hxy|Hin]%orb_true_iff.
  - apply String.eqb_eq in Hxy as ->. by left.
  - right. by apply IH.
Qed.

Lemma filter_out (x : string) (l : list string) :
  x ∉ List.filter (fun id => negb (String.eqb id x)) l.
Proof.
  intros Hin%list_elem_of_In%filter_In. destruct Hin as [_ Hne].
  by rewrite String.eqb_refl in Hne.
Qed.

Lemma filter_out_absent (x : string) (l : list string) :
  x ∉ l → List.filter (fun id => negb (String.eqb id x)) l = l.
Proof.
  induction l as [|y l IH]; simpl; [done|].
  intros [Hne Hl]%not_elem_of_cons.
  destruct (String.eqb_spec y x) as [->|_]; [done|]. simpl. by rewrite IH.
Qed.

(** The removal step of [updateFileIndex] and [removeFromFileIndex]:
    what it leaves under the key of the document and under the others. *)
Lemma removeIndexData_spec (fields : list string)
    (data data' : gmap string (list string)) (doc : obj) :
  removeIndexData fields data doc = Ok data' →
  (∀ docId ids, toString_method (get doc "_id") = Ok docId →
                data' !! getDocumentIndexKey doc fields = Some ids → docId ∉ ids)
  ∧ (∀ key, key ≠ getDocumentIndexKey doc fields → data' !! key = data !! key).
Proof.
  unfold removeIndexData.
  destruct (member data _) as [found|e] eqn:Hfound; simpl; [|done].
  apply member_Ok in Hfound as ->.
  destruct (data !! getDocumentIndexKey doc fields) as [[|id ids]|] eqn:Hids.
  - intros [= <-]. split.
    + intros docId ids _. by rewrite fin_maps.lookup_delete_eq.
    + intros key Hkey. by rewrite fin_maps.lookup_delete_ne.
  - destruct (toString_method (get doc "_id")) as [docId|e]; simpl; [|done].
    intros [= <-]. split.
    + intros docId' ids' [= <-]. case_match.
      * by rewrite fin_maps.lookup_delete_eq.
      * rewrite lookup_insert_eq. intros [= <-].
        apply (filter_out docId (id :: ids)).
    + intros key Hkey. case_match.
      * by rewrite fin_maps.lookup_delete_ne.
      * by rewrite lookup_insert_ne.
  - intros [= <-]. split; [|done].
    intros docId ids _. by rewrite Hids.
Qed.

Lemma updateIndexData_unfold (fields : list string)
    (data : gmap string (list string)) (newDoc : obj) (oldDoc : option obj) :
  updateIndexData fields data newDoc oldDoc =
    (data1 ← match oldDoc with
             | Some old => removeIndexData fields data old
             | None => Ok data
             end;
     let newKey := getDocumentIndexKey newDoc fields in
     found ← member data1 newKey;
     let ids := default [] found in
     newId ← toString_method (get newDoc "_id");
     Ok (if existsb (String.eqb newId) ids
         then <[newKey := ids]> data1
         else <[newKey := ids ++ [newId]]> data1)).
Proof. by destruct oldDoc. Qed.

(** After [updateFileIndex] has rewritten the [data] of an index, the
    new document is listed under its composite key; when the old
    document had another key, its identifier is no longer listed under
    that key; and every other key is as it was. *)
Theorem updateIndexData_moves_document (fields : list string)
    (data data' : gmap string (list string)) (newDoc : obj) (oldDoc : option obj) :
  updateIndexData fields data newDoc oldDoc = Ok data' →
  let newKey := getDocumentIndexKey newDoc fields in
  (∃ newId ids, toString_method (get newDoc "_id") = Ok newId
                ∧ data' !! newKey = Some ids ∧ newId ∈ ids)
  ∧ (∀ old oldId ids,
       oldDoc = Some old →
       getDocumentIndexKey old fields ≠ newKey →
       toString_method (get old "_id") = Ok oldId →
       data' !! getDocumentIndexKey old fields = Some ids →
       oldId ∉ ids)
  ∧ (∀ key, key ≠ newKey →
            (∀ old, oldDoc = Some old → key ≠ getDocumentIndexKey old fields) →
            data' !! key = data !! key).
Proof.
  rewrite updateIndexData_unfold. intros Hupdate newKey.
  destruct (match oldDoc with Some old => _ | None => _ end) as [data1|e] eqn:Hrem;
    simpl in Hupdate; [|done].
  destruct (member data1 _) as [found|e] eqn:Hfound; simpl in Hupdate; [|done].
  apply member_Ok in Hfound as ->.
  destruct (toString_method (get newDoc "_id")) as [newId|e]; simpl in Hupdate; [|done].
  injection Hupdate as <-.
  assert (∀ key, key ≠ newKey →
            (if existsb (String.eqb newId) (default [] (data1 !! newKey))
             then <[newKey := default [] (data1 !! newKey)]> data1
             else <[newKey := default [] (data1 !! newKey) ++ [newId]]> data1) !! key
            = data1 !! key) as Hother.
  { intros key Hkey. destruct (existsb _ _); by rewrite lookup_insert_ne. }
  split; [|split].
  - exists newId. destruct (existsb _ _) eqn:Hin.
    + eexists. split; [done|]. split; [apply lookup_insert_eq|].
      by apply existsb_eqb_true.
    + eexists. split; [done|]. split; [apply lookup_insert_eq|].
      apply elem_of_app. right. by left.
  - intros old oldId ids -> Hkeys Hid. rewrite Hother by done.
    destruct (removeIndexData_spec _ _ _ _ Hrem) as [Hgone _].
    by apply Hgone.
  - intros key Hnew Hold. rewrite Hother by done.
    destruct oldDoc as [old|]; [|by injection Hrem as <-].
    destruct (removeIndexData_spec _ _ _ _ Hrem) as [_ Hkeep].
    apply Hkeep. by apply Hold.
Qed.

(** Neither the update nor the removal leaves a composite key with an
    empty list: a list that becomes empty is deleted with its key. *)
Theorem index_data_keeps_no_empty_list (fields : list string)
    (data data' : gmap string (list string)) (newDoc : obj) (oldDoc : option obj)
    (doc : obj) :
  data_nonempty data →
  (updateIndexData fields data newDoc oldDoc = Ok data' → data_nonempty data')
  ∧ (removeIndexData fields data doc = Ok data' → data_nonempty data').
Proof.
  intros Hdata.
  assert (∀ d out, removeIndexData fields data d = Ok out → data_nonempty out)
    as Hremove.
  { intros d out. unfold removeIndexData.
    destruct (member data _) as [found|e] eqn:Hfound; simpl; [|done].
    apply member_Ok in Hfound as ->.
    destruct (data !! getDocumentIndexKey d fields) as [[|id ids]|] eqn:Hids.
    - intros [= <-] key ids. rewrite lookup_delete. case_decide; [done|]. apply Hdata.
    - destruct (toString_method (get d "_id")) as [docId|e]; simpl; [|done].
      intros [= <-] key ids'.
      destruct (length _ =? 0)%nat eqn:Hlen.
      + rewrite lookup_delete. case_decide; [done|]. apply Hdata.
      + rewrite lookup_insert. case_decide; [|apply Hdata].
        intros [= <-] Hnil. by rewrite Hnil in Hlen.
    - by intros [= <-]. }
  split; [|apply Hremove].
  rewrite updateIndexData_unfold.
  destruct (match oldDoc with Some old => _ | None => _ end) as [data1|e] eqn:Hrem;
    simpl; [|done].
  assert (data_nonempty data1) as Hdata1.
  { destruct oldDoc as [old|]; [by eapply Hremove|by injection Hrem as <-]. }
  destruct (member data1 _) as [found|e] eqn:Hfound; simpl; [|done].
  apply member_Ok in Hfound as ->.
  destruct (toString_method (get newDoc "_id")) as [newId|e]; simpl; [|done].
  intros [= <-] key ids.
  destruct (existsb _ _) eqn:Hin; rewrite lookup_insert; (case_decide; [|apply Hdata1]).
  - intros [= <-] Hnil. rewrite Hnil in Hin. done.
  - intros [= <-]. by destruct (default [] _).
Qed.

End IndexDataFurther.

Section IndexFilesFurther.
Import Js IndexManager.

(** Round trip.  On an index file that parses and can take the
    document, whose lists are not empty and do not list the document
    yet, [updateFileIndex] followed by [removeFromFileIndex] for the
    same document gives the directory back as it was. *)
Theorem index_add_then_remove (collectionName : string)
    (documents : option (list obj)) (fuel : nat) (indexName : string) (doc : obj)
    (dir : directory) (metadata : index_meta) (data : gmap string (list string)) :
  readFile dir indexName = Some (Good metadata data) →
  data_nonempty data →
  indexable (fields metadata) doc = true →
  to_string (get doc "_id")
    ∉ default [] (data !! getDocumentIndexKey doc (fields metadata)) →
  ∃ dir1,
    updateFileIndex collectionName documents (S fuel) indexName doc None dir
      = Some dir1
    ∧ removeFromFileIndex indexName doc dir1 = dir.
Proof.
  intros Hread Hdata Hdoc Hnew.
  pose proof (indexable_identifier _ _ Hdoc) as Hid.
  pose proof (indexable_key _ _ Hdoc) as Hkey.
  set (docId := to_string (get doc "_id")) in *.
  set (key := getDocumentIndexKey doc (fields metadata)) in *.
  set (ids := default [] (data !! key)) in *.
  assert (existsb (String.eqb docId) ids = false) as Hex.
  { destruct (existsb _ _) eqn:E; [|done]. by apply existsb_eqb_true in E. }
  assert (updateIndexData (fields metadata) data doc None
          = Ok (<[key := ids ++ [docId]]> data)) as Hupdate.
  { unfold updateIndexData. simpl. fold key.
    rewrite (member_plain _ _ Hkey). simpl. rewrite Hid. simpl.
    fold ids. by rewrite Hex. }
  eexists. split.
  { simpl. by rewrite Hread, Hupdate. }
  unfold removeFromFileIndex. rewrite readFile_writeFile_eq.
  assert (List.filter (fun id => negb (String.eqb id docId)) (ids ++ [docId]) = ids)
    as Hkept.
  { rewrite List.filter_app. simpl. rewrite String.eqb_refl. simpl.
    rewrite app_nil_r. by apply filter_out_absent. }
  assert (removeIndexData (fields metadata) (<[key := ids ++ [docId]]> data) doc
          = Ok (if (length ids =? 0)%nat
                then base.delete key (<[key := ids ++ [docId]]> data)
                else <[key := ids]> (<[key := ids ++ [docId]]> data))) as ->.
  { unfold removeIndexData. fold key.
    rewrite (member_plain _ _ Hkey). simpl. rewrite lookup_insert_eq.
    destruct (ids ++ [docId]) as [|id0 rest] eqn:Happ; [by destruct ids|].
    rewrite Hid. simpl. simpl in Hkept. by rewrite Hkept. }
  rewrite writeFile_writeFile.
  destruct ids as [|id ids'] eqn:Hids; simpl.
  - rewrite delete_insert_eq.
    assert (data !! key = None) as Hnone.
    { subst ids. destruct (data !! key) as [l|] eqn:E; [|done].
      simpl in Hids. subst l. by apply Hdata in E. }
    rewrite delete_id by done. by apply writeFile_same.
  - rewrite insert_insert_eq.
    assert (data !! key = Some (id :: ids')) as Hsome.
    { subst ids. destruct (data !! key) as [l|] eqn:E; simpl in Hids; by subst. }
    rewrite insert_id by done. by apply writeFile_same.
Qed.

End IndexFilesFurther.

Section IndexWitnesses.
Import Js IndexManager.

Lemma updateIndexData_moves_document_witness :
  let data : gmap string (list string) :=
    <["Jane::25" := ["65a000000000000000000001"]]> ∅ in
  let data' : gmap string (list string) :=
    <["John::30" := ["65a000000000000000000001"]]> ∅ in
  updateIndexData ["name"; "age"] data
    (set (set Sample.john "name" (VStr "John")) "age" (VNum 30))
    (Some (set (set Sample.john "name" (VStr "Jane")) "age" (VNum 25)))
  = Ok data'
  ∧ data' !! "Jane::25" = None.
Proof.
  intros data data'. split; [by vm_compute|].
  pose proof (updateIndexData_moves_document ["name"; "age"] data data'
    (set (set Sample.john "name" (VStr "John")) "age" (VNum 30))
    (Some (set (set Sample.john "name" (VStr "Jane")) "age" (VNum 25)))
    ltac:(by vm_compute)) as [_ [Hold _]].
  destruct (data' !! "Jane::25") as [ids|] eqn:Hids; [|done].
  exfalso.
  eapply (Hold _ "65a000000000000000000001" ids eq_refl); [by vm_compute|done| |].
  - exact Hids.
  - by vm_compute in Hids.
Defined.

Lemma index_data_keeps_no_empty_list_witness :
  data_nonempty
    (base.delete "John::30"
       (<["John::30" := ["65a000000000000000000001"]]> (∅ : gmap string (list string)))).
Proof.
  apply (index_data_keeps_no_empty_list ["name"; "age"]
           (<["John::30" := ["65a000000000000000000001"]]> ∅) _
           Sample.john None Sample.john).
  - intros key ids [[_ <-]|[_ H]]%lookup_insert_Some; [done|].
    by rewrite lookup_empty in H.
  - by vm_compute.
Defined.

Lemma index_add_then_remove_witness :
  ∃ dir1,
    updateFileIndex "users" (Some [Sample.john]) 1 "_id" Sample.john None
      Sample.usersIndexes = Some dir1
    ∧ removeFromFileIndex "_id" Sample.john dir1 = Sample.usersIndexes.
Proof.
  eapply (index_add_then_remove "users" (Some [Sample.john]) 0 "_id" Sample.john
            Sample.usersIndexes _ ∅).
  - reflexivity.
  - intros key ids H. by rewrite lookup_empty in H.
  - reflexivity.
  - rewrite lookup_empty. apply not_elem_of_nil.
Defined.

End IndexWitnesses.

(** *** What a repair makes of an index *)

Section RepairFurther.
Import Js IndexManager.
Local Open Scope nat_scope.

Variable collectionName : string.
Variable documents : option (list obj).
Variable repaired : string.

(** Once an index has been recreated by a repair, the five methods
    leave its metadata alone, and a repair of it writes them again. *)
Lemma index_methods_keep_repaired (fuel : nat) :
  (∀ dir indexes dir',
     repairedOnFile collectionName repaired dir →
     getCollectionIndexes collectionName documents fuel dir = Some (indexes, dir') →
     repairedOnFile collectionName repaired dir')
  ∧ (∀ indexName dir dir',
       repairedOnFile collectionName repaired dir ∨ (indexName = repaired ∧ readFile dir indexName ≠ None) →
       repairIndexFile collectionName documents fuel indexName dir = Some dir' →
       repairedOnFile collectionName repaired dir')
  ∧ (∀ indexName dir meta dir',
       repairedOnFile collectionName repaired dir ∨ indexName = repaired →
       createIndex collectionName documents fuel (split "_" indexName) dir
         = Some (meta, dir') →
       repairedOnFile collectionName repaired dir')
  ∧ (∀ newDoc oldDoc dir dir',
       repairedOnFile collectionName repaired dir →
       updateIndex collectionName documents fuel newDoc oldDoc dir = Some dir' →
       repairedOnFile collectionName repaired dir')
  ∧ (∀ indexName newDoc oldDoc dir dir',
       repairedOnFile collectionName repaired dir →
       updateFileIndex collectionName documents fuel indexName newDoc oldDoc dir
         = Some dir' →
       repairedOnFile collectionName repaired dir').
Proof.
  induction fuel as [|fuel (IHget & IHrepair & IHcreate & IHupdate & IHfile)];
    [by repeat split|].
  split; [|split; [|split; [|split]]].
  - intros dir indexes dir' Hdir. simpl.
    apply collectIndexes_preserves; [|done].
    intros file d d' Hd. apply IHrepair. by left.
  - intros indexName dir dir' Hdir. simpl.
    destruct (readFile dir indexName) as [f|] eqn:Hread.
    + destruct (createIndex _ _ _ _ _) as [[meta d]|] eqn:E; simpl; [|done].
      intros [= <-]. eapply IHcreate; [|exact E].
      destruct (decide (indexName = repaired)) as [->|Hne]; [by right|].
      left. destruct Hdir as [[data Hdata]|[? _]]; [|done].
      exists data. by rewrite readFile_unlink_ne.
    + intros [= <-]. by destruct Hdir as [?|[_ ?]].
  - intros indexName dir meta dir' Hdir. simpl.
    change (String.concat "_" (split "_" indexName))
      with (String.concat (String "_"%char EmptyString) (split "_"%char indexName)).
    rewrite concat_split.
    match goal with
    | |- context [writeFile dir indexName ?f] =>
        assert (repairedOnFile collectionName repaired (writeFile dir indexName f)) as Hnew
    end.
    { destruct (decide (indexName = repaired)) as [->|Hne].
      - exists ∅. by rewrite readFile_writeFile_eq.
      - destruct Hdir as [[data Hdata]|?]; [|done].
        exists data. by rewrite readFile_writeFile_ne. }
    destruct documents as [docs|]; [|by intros [= <- <-]].
    destruct (forEach _ _ _) as [d|] eqn:E; simpl; [|done].
    intros [= <- <-].
    eapply (forEach_preserves (repairedOnFile collectionName repaired)); [|exact Hnew|exact E].
    intros doc d1 d2 Hd1 Hbody. exact (IHupdate _ _ _ _ Hd1 Hbody).
  - intros newDoc oldDoc dir dir' Hdir. simpl.
    destruct (getCollectionIndexes _ _ _ _) as [[indexes d]|] eqn:E; simpl; [|done].
    apply forEach_preserves; [|by eapply IHget].
    intros index d1 d2 Hd1 Hbody. exact (IHfile _ _ _ _ _ Hd1 Hbody).
  - intros indexName newDoc oldDoc dir dir' Hdir. simpl.
    destruct (readFile dir indexName) as [[|metadata data]|] eqn:Hread;
      [apply IHrepair; by left| |by intros [= <-]].
    destruct (updateIndexData _ _ _ _) as [data'|e] eqn:Hstep;
      [|apply IHrepair; by left].
    intros [= <-].
    destruct (decide (indexName = repaired)) as [->|Hne].
    + destruct Hdir as [data0 Hdata0]. rewrite Hdata0 in Hread.
      injection Hread as <- <-. exists data'. by rewrite readFile_writeFile_eq.
    + destruct Hdir as [data0 Hdata0]. exists data0.
      by rewrite readFile_writeFile_ne.
Qed.

End RepairFurther.

Section RepairReturns.
Import Js IndexManager.
Local Open Scope nat_scope.

Lemma documents_default (documents : option (list obj)) :
  ∀ stored, documents = Some stored → stored ⊆ default [] documents.
Proof. by intros stored ->. Qed.

(** The repair of an index file that does not parse returns, when the
    directory is regular for the documents of the collection and the
    fuel covers the nested calls, and it leaves a file of the same name
    whose field list is the name split at its underscores, not the
    field list the index was created with. *)
Theorem repairIndexFile_reads_fields_off_name (collectionName : string)
    (documents : option (list obj)) (fuel : nat) (indexName : string)
    (dir : directory) :
  regular (default [] documents) dir = true →
  readFile dir indexName = Some Corrupt →
  4 * corruptFiles dir ≤ fuel →
  ∃ dir' data,
    repairIndexFile collectionName documents fuel indexName dir = Some dir'
    ∧ readFile dir' indexName
      = Some (Good {| name := indexName; collection := collectionName;
                      fields := split "_" indexName |} data).
Proof.
  intros Hdir%regular_ready Hread Hfuel.
  destruct (index_methods_return collectionName documents (default [] documents)
              (documents_default documents) fuel) as (_ & Hreturns & _).
  destruct (Hreturns indexName dir Hdir Hread Hfuel) as (dir' & Hrun & _).
  destruct (index_methods_keep_repaired collectionName documents indexName fuel)
    as (_ & Hkeeps & _).
  destruct (Hkeeps indexName dir dir') as [data Hdata]; [|done|].
  { right. split; [done|]. by rewrite Hread. }
  by exists dir', data.
Qed.

Lemma repairIndexFile_reads_fields_off_name_witness :
  ∃ dir' data,
    repairIndexFile "users" (Some [Sample.john]) 8 "_id"
      [("_id", Corrupt); ("name_age", Corrupt)] = Some dir'
    ∧ readFile dir' "_id"
      = Some (Good {| name := "_id"; collection := "users"; fields := [""; "id"] |}
                   data).
Proof.
  apply (repairIndexFile_reads_fields_off_name "users" (Some [Sample.john]) 8 "_id"
           [("_id", Corrupt); ("name_age", Corrupt)]).
  - by vm_compute.
  - reflexivity.
  - vm_compute. lia.
Defined.

End RepairReturns.

(** *** What [createIndex] builds *)

Section BuildFurther.
Import Js IndexManager.
Local Open Scope nat_scope.

(** An update without old document lists the new document and keeps
    every document that was listed. *)
Lemma updateIndexData_adds (fieldArray : list string)
    (data data' : gmap string (list string)) (newDoc : obj) :
  updateIndexData fieldArray data newDoc None = Ok data' →
  listed fieldArray data' newDoc
  ∧ (∀ doc, listed fieldArray data doc → listed fieldArray data' doc).
Proof.
  rewrite updateIndexData_unfold. simpl.
  destruct (member data _) as [found|e] eqn:Hfound; simpl; [|done].
  apply member_Ok in Hfound as ->.
  destruct (toString_method (get newDoc "_id")) as [newId|e] eqn:Hid; simpl; [|done].
  set (newKey := getDocumentIndexKey newDoc fieldArray).
  intros [= <-]. split.
  - exists newId. destruct (existsb _ _) eqn:Hin.
    + eexists. split; [done|]. split; [apply lookup_insert_eq|].
      by apply existsb_eqb_true.
    + eexists. split; [done|]. split; [apply lookup_insert_eq|].
      apply elem_of_app. right. by left.
  - intros doc (docId & ids & Hdoc & Hids & Hin). exists docId.
    destruct (decide (getDocumentIndexKey doc fieldArray = newKey)) as [Heq|Hne].
    + rewrite Heq in *. rewrite Hids. simpl.
      destruct (existsb _ _).
      * exists ids. by rewrite lookup_insert_eq.
      * exists (ids ++ [newId]). rewrite lookup_insert_eq.
        split; [done|]. split; [done|]. apply elem_of_app. by left.
    + exists ids. split; [done|]. split; [|done].
      destruct (existsb _ _); by rewrite lookup_insert_ne.
Qed.

Lemma readFile_elem (dir : directory) (indexName : string) (f : index_file) :
  readFile dir indexName = Some f → indexName ∈ List.map fst dir.
Proof.
  induction dir as [|[n f'] dir IH]; simpl; [done|].
  destruct (String.eqb_spec n indexName) as [->|_]; [by left|].
  intros H. right. by apply IH.
Qed.

Lemma forEach_establishes {A} (P Q : directory → Prop)
    (body : A → directory → option directory) (l : list A) (x0 : A)
    (dir dir' : directory) :
  (∀ x d d', P d → body x d = Some d' → P d') →
  (∀ x d d', Q d → body x d = Some d' → Q d') →
  (∀ d d', P d → body x0 d = Some d' → Q d') →
  x0 ∈ l → P dir → forEach body l dir = Some dir' → Q dir'.
Proof.
  intros HP HQ Hx0. revert dir. induction l as [|x l IH]; intros dir Hin Hdir; simpl.
  - by apply elem_of_nil in Hin.
  - destruct (body x dir) as [d|] eqn:E; simpl; [|done].
    apply elem_of_cons in Hin as [<-|Hin].
    + apply (forEach_preserves Q); [done|]. by eapply Hx0.
    + apply IH; [done|]. by eapply HP.
Qed.

Lemma forEach_accumulates {A} (P : list A → directory → Prop)
    (body : A → directory → option directory) (l done : list A)
    (dir dir' : directory) :
  (∀ x seen d d', x ∈ l → P seen d → body x d = Some d' → P (x :: seen) d') →
  P done dir → forEach body l dir = Some dir' → P (rev l ++ done) dir'.
Proof.
  revert done dir. induction l as [|x l IH]; intros seen dir Hbody HP; simpl.
  - by intros [= <-].
  - destruct (body x dir) as [d|] eqn:E; simpl; [|done].
    rewrite <- app_assoc. simpl. apply IH.
    + intros y seen' d1 d2 Hy. apply Hbody. by right.
    + eapply Hbody; [by left|done|done].
Qed.

Variable collectionName : string.
Variable documents : option (list obj).
Variable docs : list obj.
Hypothesis documents_in : ∀ stored, documents = Some stored → stored ⊆ docs.
Variable indexMeta : index_meta.
Hypothesis indexMeta_collection : collection indexMeta = collectionName.

Lemma collectIndexes_collects (P : directory → Prop)
    (repair : string → directory → option directory) (files : list string)
    (indexes indexes' : list index_meta) (dir dir' : directory) :
  (∀ d, P d → ∃ data, readFile d (name indexMeta) = Some (Good indexMeta data)) →
  (∀ file d d', P d → readFile d file = Some Corrupt → repair file d = Some d' → P d') →
  P dir →
  collectIndexes collectionName repair files indexes dir = Some (indexes', dir') →
  P dir' ∧ (name indexMeta ∈ files ∨ indexMeta ∈ indexes → indexMeta ∈ indexes').
Proof.
  intros Hfile Hrepair. revert indexes dir.
  induction files as [|file files IH]; intros indexes dir HP; simpl.
  - intros [= <- <-]. split; [done|]. intros [Hin|Hin]; [|done].
    by apply elem_of_nil in Hin.
  - destruct (Hfile dir HP) as [data Hdata].
    destruct (readFile dir file) as [[|metadata data0]|] eqn:Hread.
    + destruct (repair file dir) as [d|] eqn:E; simpl; [|done].
      intros Hrun. destruct (IH _ _ (Hrepair _ _ _ HP Hread E) Hrun) as [Hd Hin].
      split; [done|]. intros [[Heq|Hfiles]%elem_of_cons|Hindexes];
        [rewrite <- Heq in Hread| |].
      * by rewrite Hdata in Hread.
      * apply Hin. by left.
      * apply Hin. by right.
    + destruct (String.eqb_spec (collection metadata) collectionName) as [Hcoll|Hcoll].
      * intros Hrun. destruct (IH _ _ HP Hrun) as [Hd Hin].
        split; [done|]. intros [[Heq|Hfiles]%elem_of_cons|Hindexes];
        [rewrite <- Heq in Hread| |].
        -- apply Hin. right. rewrite Hdata in Hread. injection Hread as <- <-.
           apply elem_of_app. right. by left.
        -- apply Hin. by left.
        -- apply Hin. right. apply elem_of_app. by left.
      * intros Hrun. destruct (IH _ _ HP Hrun) as [Hd Hin].
        split; [done|]. intros [[Heq|Hfiles]%elem_of_cons|Hindexes];
        [rewrite <- Heq in Hread| |].
        -- rewrite Hdata in Hread. injection Hread as <- <-. done.
        -- apply Hin. by left.
        -- apply Hin. by right.
    + intros Hrun. destruct (IH _ _ HP Hrun) as [Hd Hin].
      split; [done|]. intros [[Heq|Hfiles]%elem_of_cons|Hindexes];
        [rewrite <- Heq in Hread| |].
      * by rewrite Hdata in Hread.
      * apply Hin. by left.
      * apply Hin. by right.
Qed.

Lemma indexLists_tail (doc : obj) (seen : list obj) (dir : directory) :
  indexLists indexMeta (doc :: seen) dir → indexLists indexMeta seen dir.
Proof.
  intros (data & Hread & Hall). exists data. split; [done|].
  by apply Forall_cons in Hall as [_ ?].
Qed.

(** On a directory that is ready for the documents in play, an index
    of the collection that is on file keeps the documents it lists
    through each of the five methods, and an update adds the new
    document to them. *)
Lemma index_methods_keep_listed (fuel : nat) :
  (∀ seen dir indexes dir',
     ready docs dir →
     indexLists indexMeta seen dir →
     getCollectionIndexes collectionName documents fuel dir = Some (indexes, dir') →
     indexLists indexMeta seen dir' ∧ indexMeta ∈ indexes)
  ∧ (∀ seen indexName dir dir',
       ready docs dir →
       indexLists indexMeta seen dir →
       readFile dir indexName = Some Corrupt →
       repairIndexFile collectionName documents fuel indexName dir = Some dir' →
       indexLists indexMeta seen dir')
  ∧ (∀ seen fieldArray dir meta dir',
       ready docs dir →
       Forall (fun doc => indexable fieldArray doc = true) docs →
       indexLists indexMeta seen dir →
       String.concat "_" fieldArray ≠ name indexMeta →
       createIndex collectionName documents fuel fieldArray dir = Some (meta, dir') →
       indexLists indexMeta seen dir')
  ∧ (∀ seen newDoc dir dir',
       newDoc ∈ docs →
       ready docs dir →
       indexLists indexMeta seen dir →
       updateIndex collectionName documents fuel newDoc None dir = Some dir' →
       indexLists indexMeta (newDoc :: seen) dir')
  ∧ (∀ seen indexName newDoc dir dir',
       newDoc ∈ docs →
       ready docs dir →
       indexLists indexMeta seen dir →
       updateFileIndex collectionName documents fuel indexName newDoc None dir
         = Some dir' →
       indexLists indexMeta seen dir'
       ∧ (indexName = name indexMeta → indexLists indexMeta (newDoc :: seen) dir')).
Proof.
  induction fuel as [|fuel (IHget & IHrepair & IHcreate & IHupdate & IHfile)];
    [by repeat split|].
  destruct (index_methods_keep_ready collectionName documents docs documents_in fuel)
    as (Kget & Krepair & Kcreate & Kupdate & Kfile).
  assert (∀ old : obj, @None obj = Some old → old ∈ docs) as Hnone by done.
  split; [|split; [|split; [|split]]].
  - intros seen dir indexes dir' Hready Hdir. simpl. intros Hrun.
    destruct (collectIndexes_collects
                (fun d => indexLists indexMeta seen d ∧ ready docs d)
                (repairIndexFile collectionName documents fuel)
                (List.map fst dir) [] indexes dir dir') as [[Hd _] Hin];
      [| |by split|done|].
    { intros d [(data & ? & _) _]. by exists data. }
    { intros file d d' [Hd1 Hd2] Hread Hrepair. split.
      - by eapply IHrepair.
      - by eapply Krepair. }
    split; [done|]. apply Hin. left.
    destruct Hdir as (data & Hread & _). by eapply readFile_elem.
  - intros seen indexName dir dir' Hready Hdir Hread. simpl. rewrite Hread.
    destruct (createIndex _ _ _ _ _) as [[meta d]|] eqn:E; simpl; [|done].
    intros [= <-].
    assert (indexName ≠ name indexMeta) as Hne.
    { intros ->. destruct Hdir as (data & Hdata & _). by rewrite Hdata in Hread. }
    eapply IHcreate; [| | | |exact E].
    + by apply ready_unlink.
    + exact (Hready _ _ Hread).
    + destruct Hdir as (data & Hdata & Hall). exists data.
      by rewrite readFile_unlink_ne.
    + change (String.concat "_" (split "_" indexName))
        with (String.concat (String "_"%char EmptyString) (split "_"%char indexName)).
      by rewrite concat_split.
  - intros seen fieldArray dir meta dir' Hready Hfields Hdir Hne. simpl.
    match goal with
    | |- context [writeFile dir ?n ?f] =>
        assert (indexLists indexMeta seen (writeFile dir n f)
                ∧ ready docs (writeFile dir n f)) as Hnew
    end.
    { split; [|by apply ready_writeFile].
      destruct Hdir as (data & Hdata & Hall). exists data.
      by rewrite readFile_writeFile_ne. }
    destruct documents as [stored|] eqn:Hstored; [|intros [= <- <-]; apply Hnew].
    destruct (forEach _ _ _) as [d|] eqn:E; simpl; [|done].
    intros [= <- <-].
    eapply (forEach_preserves_in
              (fun d => indexLists indexMeta seen d ∧ ready docs d));
      [|exact Hnew|exact E].
    intros doc d1 d2 Hdoc [Hd1 Hd2] Hbody. simpl in Hbody.
    assert (doc ∈ docs) as Hin by (by apply (documents_in stored)).
    split.
    + eapply indexLists_tail, IHupdate; [exact Hin|exact Hd2|exact Hd1|exact Hbody].
    + eapply Kupdate; [exact Hin|exact Hnone|exact Hd2|exact Hbody].
  - intros seen newDoc dir dir' Hnew Hready Hdir. simpl.
    destruct (getCollectionIndexes _ _ _ _) as [[indexes d]|] eqn:E; simpl; [|done].
    destruct (IHget _ _ _ _ Hready Hdir E) as [Hd Hin].
    pose proof (Kget _ _ _ Hready E) as Hreadyd.
    intros Hrun.
    eapply proj1.
    eapply (forEach_establishes
              (fun d => indexLists indexMeta seen d ∧ ready docs d)
              (fun d => indexLists indexMeta (newDoc :: seen) d ∧ ready docs d)
              _ _ indexMeta d dir'); [| | | | |exact Hrun]; [| | |done|by split].
    + intros index d1 d2 [Hd1 Hd2] Hbody. split.
      * exact (proj1 (IHfile _ _ _ _ _ Hnew Hd2 Hd1 Hbody)).
      * eapply Kfile; [exact Hnew|exact Hnone|exact Hd2|exact Hbody].
    + intros index d1 d2 [Hd1 Hd2] Hbody. split.
      * exact (proj1 (IHfile _ _ _ _ _ Hnew Hd2 Hd1 Hbody)).
      * eapply Kfile; [exact Hnew|exact Hnone|exact Hd2|exact Hbody].
    + intros d1 d2 [Hd1 Hd2] Hbody. split.
      * exact (proj2 (IHfile _ _ _ _ _ Hnew Hd2 Hd1 Hbody) eq_refl).
      * eapply Kfile; [exact Hnew|exact Hnone|exact Hd2|exact Hbody].
  - intros seen indexName newDoc dir dir' Hnew Hready Hdir. simpl.
    destruct (readFile dir indexName) as [[|metadata data]|] eqn:Hread.
    + intros Hrun. split; [by eapply IHrepair|].
      intros ->. destruct Hdir as (data & Hdata & _). by rewrite Hdata in Hread.
    + pose proof (Hready _ _ Hread) as Hfields. simpl in Hfields.
      rewrite Forall_forall in Hfields.
      destruct (updateIndexData_returns (fields metadata) data newDoc None)
        as [data' Hstep]; [by apply Hfields|done|].
      rewrite Hstep. intros [= <-].
      destruct Hdir as (data0 & Hdata0 & Hall).
      destruct (decide (indexName = name indexMeta)) as [->|Hne].
      * rewrite Hdata0 in Hread. injection Hread as <- <-.
        destruct (updateIndexData_adds _ _ _ _ Hstep) as [Hadded Hkept].
        assert (Forall (listed (fields indexMeta) data') seen) as Hseen.
        { eapply Forall_impl; [exact Hall|]. exact Hkept. }
        split; [|intros _]; exists data'; rewrite readFile_writeFile_eq;
          (split; [done|]); [done|by constructor].
      * split; [|done]. exists data0. by rewrite readFile_writeFile_ne.
    + intros [= <-]. split; [done|].
      intros ->. destruct Hdir as (data & Hdata & _). by rewrite Hdata in Hread.
Qed.

End BuildFurther.

Section BuildReturns.
Import Js IndexManager.
Local Open Scope nat_scope.

(** [createIndex] builds the index.  When the directory is regular for
    the documents of the collection, the new index can take each of
    them, its name makes a file name and the fuel covers the nested
    calls, the call returns the metadata it wrote, with the fields it
    was given, and the index file it leaves lists every document of
    the collection under the document's composite key. *)
Theorem createIndex_lists_documents (collectionName : string) (docs : list obj)
    (fuel : nat) (fieldArray : list string) (dir : directory) :
  regular docs dir = true →
  forallb (indexable fieldArray) docs = true →
  validName (String.concat "_" fieldArray) = true →
  4 * corruptFiles dir + 3 ≤ fuel →
  ∃ meta dir' data,
    createIndex collectionName (Some docs) fuel fieldArray dir = Some (meta, dir')
    ∧ fields meta = fieldArray
    ∧ readFile dir' (String.concat "_" fieldArray) = Some (Good meta data)
    ∧ Forall (listed fieldArray data) docs.
Proof.
  intros Hdir%regular_ready Hfields _ Hfuel.
  assert (Forall (fun doc => indexable fieldArray doc = true) docs) as Hall.
  { apply Forall_forall. intros doc Hdoc. rewrite forallb_forall in Hfields.
    by apply Hfields, list_elem_of_In. }
  assert (∀ stored, Some docs = Some stored → stored ⊆ docs) as Hin
    by (by intros stored [= <-]).
  destruct (index_methods_return collectionName (Some docs) docs Hin fuel)
    as (_ & _ & Hreturns & _).
  destruct (Hreturns fieldArray dir Hdir Hall Hfuel) as (meta & dir' & Hrun & _).
  destruct fuel as [|fuel]; [done|]. pose proof Hrun as Hcall. simpl in Hrun.
  destruct (forEach _ _ _) as [d|] eqn:E; simpl in Hrun; [|done].
  injection Hrun as <- <-.
  set (meta := {| name := String.concat "_" fieldArray;
                  collection := collectionName; fields := fieldArray |}) in *.
  destruct (index_methods_keep_listed collectionName (Some docs) docs Hin meta
              eq_refl fuel) as (_ & _ & _ & Hupdate & _).
  destruct (index_methods_keep_ready collectionName (Some docs) docs Hin fuel)
    as (_ & _ & _ & Kupdate & _).
  assert (ready docs (writeFile dir (String.concat "_" fieldArray) (Good meta ∅)))
    as Hwritten by (by apply ready_writeFile).
  assert (indexLists meta (rev docs ++ []) d ∧ ready docs d)
    as [(data & Hread & Hlisted) _].
  { eapply (forEach_accumulates
              (fun seen d => indexLists meta seen d ∧ ready docs d));
      [| |exact E].
    - intros doc seen d1 d2 Hdoc [Hd1 Hd2] Hbody. simpl in Hbody. split.
      + eapply Hupdate; [exact Hdoc|exact Hd2|exact Hd1|exact Hbody].
      + eapply Kupdate; [exact Hdoc| |exact Hd2|exact Hbody]. done.
    - split; [|exact Hwritten].
      exists ∅. split; [apply readFile_writeFile_eq|constructor]. }
  exists meta, d, data. split; [exact Hcall|].
  split; [done|]. split; [done|].
  rewrite app_nil_r in Hlisted. apply Forall_forall. intros doc Hdoc.
  apply (proj1 (Forall_forall _ _) Hlisted). apply list_elem_of_In, in_rev.
  rewrite rev_involutive. by apply list_elem_of_In.
Qed.

Lemma createIndex_lists_documents_witness :
  ∃ meta dir' data,
    createIndex "users" (Some [Sample.john; Sample.jane]) 7 ["name"; "age"]
      Sample.usersIndexes = Some (meta, dir')
    ∧ fields meta = ["name"; "age"]
    ∧ readFile dir' "name_age" = Some (Good meta data)
    ∧ Forall (listed ["name"; "age"] data) [Sample.john; Sample.jane].
Proof.
  apply (createIndex_lists_documents "users" [Sample.john; Sample.jane] 7
           ["name"; "age"] Sample.usersIndexes).
  - by vm_compute.
  - by vm_compute.
  - by vm_compute.
  - vm_compute. lia.
Defined.

End BuildReturns.

(** *** Removing a document from the indexes, dropping the indexes *)

Section UnlistFurther.
Import Js IndexManager.
Local Open Scope nat_scope.

Lemma removeIndexData_returns (fieldArray : list string)
    (data : gmap string (list string)) (doc : obj) :
  indexable fieldArray doc = true →
  ∃ data', removeIndexData fieldArray data doc = Ok data'.
Proof.
  intros Hdoc. unfold removeIndexData.
  rewrite (member_plain _ _ (indexable_key _ _ Hdoc)). simpl.
  rewrite (indexable_identifier _ _ Hdoc).
  destruct (data !! _) as [[|id ids]|]; simpl; by eauto.
Qed.

Lemma removeIndexData_absent (fieldArray : list string)
    (data data' : gmap string (list string)) (doc : obj) (docId : string) :
  toString_method (get doc "_id") = Ok docId →
  removeIndexData fieldArray data doc = Ok data' →
  docId ∉ default [] (data' !! getDocumentIndexKey doc fieldArray).
Proof.
  intros Hid Hstep.
  destruct (removeIndexData_spec _ _ _ _ Hstep) as [Hgone _].
  destruct (data' !! _) as [ids|] eqn:Hids; simpl; [|apply not_elem_of_nil].
  by apply Hgone.
Qed.

(** One [removeFromFileIndex] keeps the metadata of every file that
    parses, takes the document out of the file it is called for, and
    puts it into no file. *)
Lemma removeFromFileIndex_step (indexName : string) (doc : obj)
    (dir : directory) (indexMeta : index_meta) (data : gmap string (list string)) :
  indexable (fields indexMeta) doc = true →
  readFile dir (name indexMeta) = Some (Good indexMeta data) →
  ∃ data',
    readFile (removeFromFileIndex indexName doc dir) (name indexMeta)
      = Some (Good indexMeta data')
    ∧ (indexName = name indexMeta
       ∨ to_string (get doc "_id")
           ∉ default [] (data !! getDocumentIndexKey doc (fields indexMeta)) →
       to_string (get doc "_id")
         ∉ default [] (data' !! getDocumentIndexKey doc (fields indexMeta))).
Proof.
  intros Hdoc Hread. unfold removeFromFileIndex.
  destruct (decide (indexName = name indexMeta)) as [->|Hne].
  - rewrite Hread.
    destruct (removeIndexData_returns (fields indexMeta) data doc Hdoc)
      as [data' Hstep].
    rewrite Hstep. exists data'. rewrite readFile_writeFile_eq.
    split; [done|]. intros _.
    eapply removeIndexData_absent; [|done]. by eapply indexable_identifier.
  - exists data.
    assert (indexName = name indexMeta
            ∨ to_string (get doc "_id")
                ∉ default [] (data !! getDocumentIndexKey doc (fields indexMeta)) →
            to_string (get doc "_id")
              ∉ default [] (data !! getDocumentIndexKey doc (fields indexMeta)))
      as Hkept by (by intros [?|?]).
    destruct (readFile dir indexName) as [[|metadata data0]|]; [done| |done].
    destruct (removeIndexData _ _ _); [|done].
    by rewrite readFile_writeFile_ne.
Qed.

Lemma removeFromFileIndex_fold (indexes : list index_meta) (doc : obj)
    (dir : directory) (indexMeta : index_meta)
    (data : gmap string (list string)) :
  indexable (fields indexMeta) doc = true →
  readFile dir (name indexMeta) = Some (Good indexMeta data) →
  indexMeta ∈ indexes
  ∨ to_string (get doc "_id")
      ∉ default [] (data !! getDocumentIndexKey doc (fields indexMeta)) →
  ∃ data',
    readFile (fold_left (fun dir index => removeFromFileIndex (name index) doc dir)
                        indexes dir) (name indexMeta)
      = Some (Good indexMeta data')
    ∧ to_string (get doc "_id")
        ∉ default [] (data' !! getDocumentIndexKey doc (fields indexMeta)).
Proof.
  intros Hdoc. revert dir data.
  induction indexes as [|index indexes IH]; intros dir data Hread Hcase; simpl.
  - exists data. split; [done|]. destruct Hcase as [Hin|?]; [|done].
    by apply elem_of_nil in Hin.
  - destruct (removeFromFileIndex_step (name index) doc dir indexMeta data
                Hdoc Hread) as (data1 & Hread1 & Hstep).
    apply (IH _ data1 Hread1).
    destruct Hcase as [[->|Hin]%elem_of_cons|Habsent].
    + right. apply Hstep. by left.
    + by left.
    + right. apply Hstep. by right.
Qed.

Lemma dropIndex_fold (indexes : list index_meta) (dir : directory)
    (indexMeta : index_meta) :
  String.concat "_" (fields indexMeta) = name indexMeta →
  indexMeta ∈ indexes ∨ readFile dir (name indexMeta) = None →
  readFile (fold_left (fun dir index => (dropIndex (fields index) dir).2) indexes dir)
           (name indexMeta) = None.
Proof.
  intros Hname. revert dir.
  induction indexes as [|index indexes IH]; intros dir Hcase; simpl.
  - destruct Hcase as [Hin|?]; [|done]. by apply elem_of_nil in Hin.
  - apply IH. destruct Hcase as [[->|Hin]%elem_of_cons|Hgone].
    + right. rewrite Hname. apply readFile_unlink_eq.
    + by left.
    + right. by apply readFile_unlink_None.
Qed.

Lemma documents_with (doc : obj) (documents : option (list obj)) :
  ∀ stored, documents = Some stored → stored ⊆ doc :: default [] documents.
Proof. intros stored -> x Hx. by right. Qed.

(** [removeFromIndex] takes the document out of every index of the
    collection whose file parses: when the directory is regular for
    the document and the documents of the collection and the fuel
    covers the nested calls, the call returns, the file keeps its
    metadata and the identifier of the document is no longer listed
    under the document's composite key. *)
Theorem removeFromIndex_unlists (collectionName : string)
    (documents : option (list obj)) (fuel : nat) (doc : obj)
    (dir : directory) (indexMeta : index_meta) (data : gmap string (list string)) :
  regular (doc :: default [] documents) dir = true →
  collection indexMeta = collectionName →
  readFile dir (name indexMeta) = Some (Good indexMeta data) →
  4 * corruptFiles dir + 1 ≤ fuel →
  ∃ dir' data',
    removeFromIndex collectionName documents fuel doc dir = Some dir'
    ∧ readFile dir' (name indexMeta) = Some (Good indexMeta data')
    ∧ to_string (get doc "_id")
        ∉ default [] (data' !! getDocumentIndexKey doc (fields indexMeta)).
Proof.
  intros Hdir%regular_ready Hcoll Hread Hfuel.
  pose proof (documents_with doc documents) as Hin.
  destruct (index_methods_return collectionName documents _ Hin fuel)
    as (Hreturns & _).
  destruct (Hreturns dir Hdir Hfuel) as (indexes & dir1 & Hrun & _).
  destruct (index_methods_keep_ready collectionName documents _ Hin fuel)
    as (Kget & _).
  pose proof (Kget _ _ _ Hdir Hrun) as Hdir1.
  destruct (index_methods_keep_listed collectionName documents _ Hin indexMeta
              Hcoll fuel) as (Hkeeps & _).
  destruct (Hkeeps [] dir indexes dir1) as [(data1 & Hread1 & _) Hmeta];
    [done| |done|].
  { exists data. by split. }
  assert (indexable (fields indexMeta) doc = true) as Hdoc.
  { pose proof (Hdir1 _ _ Hread1) as Hall. simpl in Hall.
    rewrite Forall_forall in Hall. apply Hall. by left. }
  destruct (removeFromFileIndex_fold indexes doc dir1 indexMeta data1
              Hdoc Hread1) as (data' & Hread' & Habsent); [by left|].
  eexists. exists data'. unfold removeFromIndex. rewrite Hrun. simpl. by split.
Qed.

(** [dropCollectionIndexes] unlinks every index file of the collection
    that parses and is named after the fields in its metadata, as
    [createIndex] names it. *)
Theorem dropCollectionIndexes_unlinks (collectionName : string)
    (documents : option (list obj)) (fuel : nat) (dir : directory)
    (indexMeta : index_meta) (data : gmap string (list string)) :
  regular (default [] documents) dir = true →
  collection indexMeta = collectionName →
  String.concat "_" (fields indexMeta) = name indexMeta →
  readFile dir (name indexMeta) = Some (Good indexMeta data) →
  4 * corruptFiles dir + 1 ≤ fuel →
  ∃ dir',
    dropCollectionIndexes collectionName documents fuel dir = Some dir'
    ∧ readFile dir' (name indexMeta) = None.
Proof.
  intros Hdir%regular_ready Hcoll Hname Hread Hfuel.
  pose proof (documents_default documents) as Hin.
  destruct (index_methods_return collectionName documents _ Hin fuel)
    as (Hreturns & _).
  destruct (Hreturns dir Hdir Hfuel) as (indexes & dir1 & Hrun & _).
  destruct (index_methods_keep_listed collectionName documents _ Hin indexMeta
              Hcoll fuel) as (Hkeeps & _).
  destruct (Hkeeps [] dir indexes dir1) as [_ Hmeta]; [done| |done|].
  { exists data. by split. }
  eexists. unfold dropCollectionIndexes. rewrite Hrun. simpl.
  split; [done|]. apply dropIndex_fold; [done|by left].
Qed.

Lemma removeFromIndex_unlists_witness :
  let indexMeta := {| name := "name_age"; collection := "users";
                      fields := ["name"; "age"] |} in
  let dir := [("name_age",
               Good indexMeta (<["John::30" := ["65a000000000000000000001"]]> ∅));
              ("_id", Corrupt)] in
  ∃ dir' data',
    removeFromIndex "users" (Some [Sample.john]) 5 Sample.john dir = Some dir'
    ∧ readFile dir' "name_age" = Some (Good indexMeta data')
    ∧ "65a000000000000000000001" ∉ default [] (data' !! "John::30").
Proof.
  intros indexMeta dir.
  apply (removeFromIndex_unlists "users" (Some [Sample.john]) 5 Sample.john
           dir indexMeta
           (<["John::30" := ["65a000000000000000000001"]]> ∅)).
  - by vm_compute.
  - reflexivity.
  - reflexivity.
  - vm_compute. lia.
Defined.

Lemma dropCollectionIndexes_unlinks_witness :
  let indexMeta := {| name := "name_age"; collection := "users";
                      fields := ["name"; "age"] |} in
  let dir := [("name_age",
               Good indexMeta (<["John::30" := ["65a000000000000000000001"]]> ∅));
              ("_id", Corrupt)] in
  ∃ dir',
    dropCollectionIndexes "users" (Some [Sample.john]) 5 dir = Some dir'
    ∧ readFile dir' "name_age" = None.
Proof.
  intros indexMeta dir.
  apply (dropCollectionIndexes_unlinks "users" (Some [Sample.john]) 5 dir indexMeta
           (<["John::30" := ["65a000000000000000000001"]]> ∅)).
  - by vm_compute.
  - reflexivity.
  - reflexivity.
  - reflexivity.
  - vm_compute. lia.
Defined.

End UnlistFurther.

(** *** Looking a document up by its identifier *)

Section ByIdFurther.
Import Js Collection.
Variable host : Host.

(** A query on [_id] with an [ObjectId] runs the operator loop over the
    own properties of the [ObjectId]; the identifier of the document is
    compared with nothing. *)
Lemma matchDocument_by_ObjectId (doc : obj) (hex : string) :
  matchDocument host doc (VObj [("_id", VOid hex)])
  = (b ← matchOperators host (get doc "_id") (objectid_entries host hex);
     Ok (if b : bool then true else false)).
Proof.
  cbn [matchDocument every]. simpl. unfold matchField. simpl.
  destruct (matchOperators _ _ _) as [[|]|]; done.
Qed.

Lemma findIndex_all {A} (p : A → result bool) (l : list A) :
  (∀ x, p x = Ok true) →
  findIndex p l = Ok (match l with [] => None | _ => Some 0%nat end).
Proof. intros Hp. destruct l as [|x l]; simpl; [done|]. by rewrite Hp. Qed.

Lemma findIndex_none {A} (p : A → result bool) (l : list A) :
  (∀ x, p x = Ok false) → findIndex p l = Ok None.
Proof.
  intros Hp. induction l as [|x l IH]; simpl; [done|].
  rewrite Hp. simpl. by rewrite IH.
Qed.

(** [findById] does not look at the identifiers of the documents.  For
    an [ObjectId] without own enumerable properties it returns the
    first document of the collection, whatever identifier was asked
    for; for an [ObjectId] whose first own property is not named like an
    operator it returns null. *)
Theorem findById_compares_no_identifier (id : value) (hex : string) (st : store) :
  id = VOid hex ∨ (∃ s, id = VStr s ∧ objectid_of_string host s = Ok hex) →
  (objectid_entries host hex = [] →
     findById host id st = (Ok (head (snapshot (dataFile st))), st))
  ∧ (∀ property v rest,
       objectid_entries host hex = (property, v) :: rest →
       Design.supported property = false →
       findById host id st = (Ok None, st)).
Proof.
  intros Hid.
  assert (findById host id st = findOne host (VObj [("_id", VOid hex)]) st) as ->.
  { unfold findById. destruct Hid as [->|(s & -> & Hs)]; [done|].
    unfold parseObjectId. rewrite Hs. done. }
  unfold findOne. rewrite M_bind_unfold, loadData_snapshot. cbv beta iota.
  rewrite M_bind_unfold. unfold lift.
  split.
  - intros Hnone. rewrite findIndex_all.
    + by destruct (snapshot (dataFile st)).
    + intros doc. cbv beta. rewrite matchDocument_by_ObjectId, Hnone. done.
  - intros property v rest Hentries Hproperty. rewrite findIndex_none; [done|].
    intros doc. cbv beta. rewrite matchDocument_by_ObjectId, Hentries.
    unfold matchOperators. simpl.
    by rewrite (matchOperator_default host _ _ _ Hproperty).
Qed.

End ByIdFurther.

Section ByIdWitness.
Import Js Collection.

Lemma findById_compares_no_identifier_witness :
  findById Sample.host (VStr "65a000000000000000000002")
    (Sample.storeOf [Sample.john; Sample.jane])
  = (Ok (Some Sample.john), Sample.storeOf [Sample.john; Sample.jane]).
Proof.
  apply (findById_compares_no_identifier Sample.host
           (VStr "65a000000000000000000002") "65a000000000000000000002"
           (Sample.storeOf [Sample.john; Sample.jane])).
  - right. by exists "65a000000000000000000002".
  - reflexivity.
Defined.

End ByIdWitness.

(* ===================================================================== *)
(** ** Theorems about the schema validation                              *)
(* ===================================================================== *)

Section ValidateFurther.
Import Js Model.

Lemma get_set_ne (o : obj) (field k : string) (v : value) :
  field ≠ k → get (set o field v) k = get o k.
Proof. intros Hne. unfold get. by rewrite lookup_set_ne. Qed.

Lemma convert_other (document : obj) (field f : string) (type value : value) :
  f ≠ field → get (convert document field type value) f = get document f.
Proof.
  intros Hne.
  assert (convert document field type value = document
          ∨ ∃ v, convert document field type value = set document field v)
    as [->| [v ->]]; [|done|by apply get_set_ne].
  unfold convert. repeat case_match; by eauto.
Qed.

(** A turn of the loop touches no field but its own, also when it
    throws. *)
Lemma checkField_other (document document' : obj) (field : string) (rules : rules)
    (r : result (list string)) :
  checkField document field rules = (r, document') →
  ∀ f, f ≠ field → get document' f = get document f.
Proof.
  unfold checkField.
  destruct (truthy (required rules) && nullish (get document field));
    [by intros [= _ <-]|].
  destruct (nullish (get document field)); [by intros [= _ <-]|].
  intros [= _ <-] f Hne. destruct (truthy (type rules)); [|done].
  by apply convert_other.
Qed.

Lemma checkFields_other (schema : schema) (document document' : obj)
    (errors : list string) (r : result (list string)) :
  checkFields schema document errors = (r, document') →
  ∀ f, f ∉ List.map fst schema → get document' f = get document f.
Proof.
  revert document errors.
  induction schema as [|[field rules] schema IH]; intros document errors; simpl.
  - by intros [= _ <-].
  - destruct (checkField document field rules) as [[found|e] document1] eqn:Hturn.
    + intros Hrest f [Hne Hf]%not_elem_of_cons.
      rewrite (IH _ _ Hrest f Hf). by eapply checkField_other.
    + intros [= _ <-] f [Hne Hf]%not_elem_of_cons. by eapply checkField_other.
Qed.

(** The loop only adds errors. *)
Lemma checkFields_errors (schema : schema) (document document' : obj)
    (errors errors' : list string) :
  checkFields schema document errors = (Ok errors', document') →
  ∃ more, errors' = errors ++ more.
Proof.
  revert document errors.
  induction schema as [|[field rules] schema IH]; intros document errors; simpl.
  - intros [= <- _]. exists []. by rewrite app_nil_r.
  - destruct (checkField document field rules) as [[found|e] document1]; [|done].
    intros Hrest. destruct (IH _ _ Hrest) as [more ->].
    exists (found ++ more). by rewrite app_assoc.
Qed.

Lemma if_nil {A} (b : bool) (x : A) : (if b then [x] else []) = [] → b = false.
Proof. by destruct b. Qed.

(** A turn without error has checked every rule of its field. *)
Lemma checkField_passes (document document' : obj) (field : string) (rules : rules) :
  checkField document field rules = (Ok [], document') →
  passes rules (get document field) (get document' field).
Proof.
  unfold checkField, passes.
  destruct (nullish (get document field)) eqn:Hnull.
  - destruct (truthy (required rules)); simpl; [done|]. by intros [= <-].
  - rewrite andb_false_r. simpl.
    destruct (if truthy (enum rules) then _ else _) as [enumErrors|e] eqn:Henum;
      simpl; [|done].
    destruct (match validate_ rules with Some _ => _ | None => _ end)
      as [customErrors|e] eqn:Hcustom; simpl; [|done].
    intros [= Herrors <-].
    apply app_eq_nil in Herrors as [Htype Herrors].
    apply app_eq_nil in Herrors as [Hmin Herrors].
    apply app_eq_nil in Herrors as [Hmax Herrors].
    apply app_eq_nil in Herrors as [-> Herrors].
    apply app_eq_nil in Herrors as [Hmatch ->].
    apply if_nil in Htype, Hmin, Hmax.
    split; [done|]. intros _.
    set (value := get document field) in *.
    assert (∀ name, type rules = VStr name → name ≠ "" →
                    isValidType (VStr name) value = true) as Hvalid.
    { intros name Hname Hne. rewrite Hname in Htype. cbn [truthy] in Htype.
      apply String.eqb_neq in Hne. rewrite Hne in Htype.
      by destruct (isValidType (VStr name) value). }
    split; [|split; [|split; [|split; [|split; [|split; [|split; [|split;
      [|split]]]]]]]].
    + intros Hname. specialize (Hvalid _ Hname ltac:(done)). simpl in Hvalid.
      destruct value; try done. by eauto.
    + intros Hname. specialize (Hvalid _ Hname ltac:(done)). simpl in Hvalid.
      destruct value; try done. by eauto.
    + intros Hname. specialize (Hvalid _ Hname ltac:(done)). simpl in Hvalid.
      destruct value; try done. by eauto.
    + intros Hname. specialize (Hvalid _ Hname ltac:(done)). simpl in Hvalid.
      destruct value; try done; by eauto.
    + intros Hname. specialize (Hvalid _ Hname ltac:(done)). simpl in Hvalid.
      rewrite Hname. simpl.
      destruct value as [| | | | |s| |items|] eqn:Hvalue; try done.
      * right. exists s. split; [done|]. subst value. cbn [convert].
        by rewrite get_set_eq.
      * left. by eauto.
    + intros Hpresent. destruct (strict_eq (min rules) VUndef) eqn:E; [|done].
      by destruct (min rules).
    + intros Hpresent. destruct (strict_eq (max rules) VUndef) eqn:E; [|done].
      by destruct (max rules).
    + intros items Hitems. rewrite Hitems in Henum. simpl in Henum.
      destruct (existsb _ _); [done|]. by simpl in Henum.
    + intros re s Hre Hs. rewrite Hre, Hs in Hmatch.
      by destruct (test re s).
    + intros f Hf. rewrite Hf in Hcustom.
      destruct (f value) as [verdict|e]; simpl in Hcustom; [|done].
      exists verdict. split; [done|]. injection Hcustom as Hcustom.
      by destruct (truthy verdict).
Qed.

Lemma checkFields_passes (schema : schema) (document document' : obj) :
  NoDup (List.map fst schema) →
  checkFields schema document [] = (Ok [], document') →
  ∀ field rules, (field, rules) ∈ schema →
                 passes rules (get document field) (get document' field).
Proof.
  revert document.
  induction schema as [|[field0 rules0] schema IH]; intros document Hdup; simpl.
  - intros _ field rules Hin. by apply elem_of_nil in Hin.
  - apply NoDup_cons in Hdup as [Hfresh Hdup].
    destruct (checkField document field0 rules0) as [[found|e] document1] eqn:Hturn;
      [|done].
    intros Hrest. destruct (checkFields_errors _ _ _ _ _ Hrest) as [more Hmore].
    symmetry in Hmore. apply app_eq_nil in Hmore as [-> ->].
    intros field rules [[= -> ->]|Hin]%elem_of_cons.
    + rewrite (checkFields_other _ _ _ _ _ Hrest field0 Hfresh).
      by apply checkField_passes.
    + assert (field ≠ field0) as Hne.
      { intros ->. apply Hfresh. apply list_elem_of_fmap. by exists (field0, rules). }
      rewrite <- (checkField_other _ _ _ _ _ Hturn field Hne).
      by apply IH.
Qed.

(** When [validate] returns, every rule of the schema has been checked
    and holds: a required field is present, a present field has the
    type its rule names (for [array], an array, or a string that the
    call has replaced in the document by its trimmed parts), it lies
    within [min] and [max], is one of [enum], matches [match] and passes
    the custom validation; and no field outside the schema has been
    touched. *)
Theorem validate_checks_every_rule (schema : schema) (document document' : obj) :
  NoDup (List.map fst schema) →
  validate schema document = (Ok true, document') →
  (∀ field rules, (field, rules) ∈ schema →
                  passes rules (get document field) (get document' field))
  ∧ (∀ field, field ∉ List.map fst schema →
              get document' field = get document field).
Proof.
  intros Hdup. unfold validate.
  destruct (checkFields schema document []) as [[[|error errors]|e] document1] eqn:Hrun;
    [|done|done].
  intros [= <-]. split.
  - by apply checkFields_passes.
  - by eapply checkFields_other.
Qed.

Lemma validate_checks_every_rule_witness :
  let nameRules := {| required := VBool true; type := VStr "string";
                      min := VUndef; max := VUndef; enum := VUndef;
                      match_ := None; validate_ := None |} in
  let tagsRules := {| required := VUndef; type := VStr "array";
                      min := VUndef; max := VUndef; enum := VUndef;
                      match_ := None; validate_ := None |} in
  validate [("name", nameRules); ("tags", tagsRules)]
           [("name", VStr "John"); ("tags", VStr "a, b,,c ")]
  = (Ok true, [("name", VStr "John"); ("tags", VArr [VStr "a"; VStr "b"; VStr "c"])])
  ∧ passes tagsRules (VStr "a, b,,c ") (VArr [VStr "a"; VStr "b"; VStr "c"]).
Proof.
  intros nameRules tagsRules.
  assert (validate [("name", nameRules); ("tags", tagsRules)]
                   [("name", VStr "John"); ("tags", VStr "a, b,,c ")]
          = (Ok true, [("name", VStr "John");
                       ("tags", VArr [VStr "a"; VStr "b"; VStr "c"])])) as Hrun
    by (by vm_compute).
  split; [exact Hrun|].
  edestruct validate_checks_every_rule as [Hpasses _]; [|exact Hrun|].
  { simpl. constructor; [|constructor; [|constructor]];
      rewrite ?elem_of_cons, ?elem_of_nil; intuition congruence. }
  apply (Hpasses "tags" tagsRules). right. by left.
Defined.

End ValidateFurther.

(* ===================================================================== *)
(** ** Theorems about the worker manager                                 *)
(* ===================================================================== *)

Section WorkersFurther.
Import Js WorkerManager.
Local Open Scope nat_scope.

Lemma executeTask_below (this this' : t) (effect : effect) :
  (∀ id, is_Some (pendingTasks this !! id) → id < taskId this) →
  executeTask this = (effect, this') →
  ∀ id, is_Some (pendingTasks this' !! id) → id < taskId this'.
Proof.
  intros Hinv. unfold executeTask.
  destruct (_ || _); [by intros [= _ <-]|]. simpl.
  destruct (workers this !! _) as [worker|]; intros [= _ <-] id; simpl.
  - destruct (decide (id = taskId this)) as [->|Hne]; [lia|].
    rewrite lookup_insert_ne by done. intros Hid%Hinv. lia.
  - intros Hid%Hinv. lia.
Qed.

Lemma step_below (this this' : t) (e : event) (effects : list effect) :
  (∀ id, is_Some (pendingTasks this !! id) → id < taskId this) →
  step this e = (effects, this') →
  ∀ id, is_Some (pendingTasks this' !! id) → id < taskId this'.
Proof.
  intros Hinv. destruct e as [workerId worker m|workerId| |]; simpl.
  - destruct m as [|k|k|]; simpl; try by intros [= _ <-].
    + destruct (pendingTasks this !! k); intros [= _ <-] id; simpl; [|by apply Hinv].
      destruct (decide (id = k)) as [->|Hne].
      * rewrite fin_maps.lookup_delete_eq. by intros [? ?].
      * rewrite fin_maps.lookup_delete_ne by done. by apply Hinv.
    + destruct (pendingTasks this !! k); intros [= _ <-] id; simpl; [|by apply Hinv].
      destruct (decide (id = k)) as [->|Hne].
      * rewrite fin_maps.lookup_delete_eq. by intros [? ?].
      * rewrite fin_maps.lookup_delete_ne by done. by apply Hinv.
  - by intros [= _ <-].
  - destruct (executeTask this) as [effect this1] eqn:Hrun. intros [= _ <-].
    by eapply executeTask_below.
  - intros [= _ <-] id. simpl. rewrite lookup_empty. by intros [? ?].
Qed.

Lemma run_below (events : list event) (this : t) :
  (∀ id, is_Some (pendingTasks this !! id) → id < taskId this) →
  ∀ id, is_Some (pendingTasks (run events this).2 !! id)
        → id < taskId (run events this).2.
Proof.
  revert this. induction events as [|e events IH]; intros this Hinv; [done|].
  simpl. destruct (step this e) as [effects this1] eqn:Hstep.
  specialize (IH this1 (step_below _ _ _ _ Hinv Hstep)).
  by destruct (run events this1).
Qed.

(** Whatever has happened to a manager since its construction, the
    identifiers of its pending tasks lie below its counter.  So a task
    that [executeTask] posts gets an identifier that no pending task
    has; it is posted to the worker registered under the identifier
    modulo the number of workers and becomes pending, and the other
    pending tasks stay. *)
Theorem pending_tasks_never_collide (threads : value) (events : list event) :
  (Z.of_nat (length events) < 2 ^ 53)%Z →
  let this := (run events (new threads)).2 in
  (∀ id, is_Some (pendingTasks this !! id) → id < taskId this)
  ∧ (∀ worker id this',
       executeTask this = (PostMessage worker id, this') →
       pendingTasks this !! id = None
       ∧ workers this !! (id mod size (workers this)) = Some worker
       ∧ pendingTasks this' = <[id := tt]> (pendingTasks this)
       ∧ workers this' = workers this).
Proof.
  intros _ this.
  assert (∀ id, is_Some (pendingTasks this !! id) → id < taskId this) as Hinv.
  { apply run_below. intros id. simpl. rewrite lookup_empty. by intros [? ?]. }
  split; [done|].
  intros worker id this'. unfold executeTask.
  destruct (_ || _); [done|]. simpl.
  destruct (workers this !! _) as [w|] eqn:Hworker; [|done].
  intros [= <- <- <-]. simpl. split; [|done].
  destruct (pendingTasks this !! taskId this) eqn:Hpending; [|done].
  specialize (Hinv (taskId this) ltac:(by eexists)). lia.
Qed.

Lemma pending_tasks_never_collide_witness :
  let this := (run [Message 0 7 ready; Message 1 8 ready; ExecuteTask;
                    ExecuteTask; Message 0 7 (response 0)]
                   (new (VNum 2))).2 in
  pendingTasks this !! 1 = Some tt ∧ 1 < taskId this.
Proof.
  intros this. split; [by vm_compute|].
  apply (pending_tasks_never_collide (VNum 2)
           [Message 0 7 ready; Message 1 8 ready; ExecuteTask; ExecuteTask;
            Message 0 7 (response 0)]).
  - by vm_compute.
  - exists tt. by vm_compute.
Defined.

End WorkersFurther.
